(** * step-free-api: the chat controller, embedded and verified

    A shallow embedding of [src/api/controllers/chat.ts]: the credential
    lease store ([requestToken], [acquireToken], [checkResult]), the
    length-framed stream decoder and the two event transcoders
    ([receiveStream], [createTransStream]), message preparation
    ([extractRefFileUrls], [messagesPrepare], [wrapData]), the attachment
    uploader ([checkFileUrl], [uploadFile]) and the retry policy of
    [createCompletion].

    Strings are sequences of UTF-8 bytes (one [ascii] per byte), so string
    concatenation and [Buffer.from(str)] agree with the JavaScript
    originals on well-formed text. *)

From stdpp Require Import base strings gmap list.
From Stdlib Require Import ZArith NArith Ascii DecimalString.
From Stdlib.Strings Require Import Byte.

Open Scope string_scope.

Set Warnings "-register-all".

(** ** Exceptions and results *)

(** The entries of [EX] (api/consts/exceptions.ts) that the controller
    raises. *)
Inductive EX : Type :=
| API_REQUEST_FAILED
| API_FILE_URL_INVALID
| API_FILE_EXECEEDS_SIZE
| API_FILE_UPLOAD_FAILED
| API_FILE_UPLOAD_TIMEOUT.

(** What a [throw] or a rejected promise carries.  [InvalidResponse payload]
    is the [new Error(`Stream response invalid: ${result}`)] of the two
    stream parsers, [result] being the SyntaxError that [JSON.parse] threw on
    [payload]: its message is that prefix followed by the engine's text for
    the SyntaxError. *)
Inductive exn : Type :=
| TypeError (what : string)
| RangeError (what : string)
| Error (message : string)
| InvalidResponse (payload : list Byte.byte)
| APIException (ex : EX) (message : string)
| AxiosError (message : string).

(** The outcome of a call that may throw. *)
Inductive Res (A : Type) : Type :=
| Ok (a : A)
| Throw (e : exn).
Arguments Ok {A} a.
Arguments Throw {A} e.

#[global] Instance Res_ret : MRet Res := fun A a => Ok a.
#[global] Instance Res_bind : MBind Res := fun A B f r =>
  match r with
  | Ok a => f a
  | Throw e => Throw e
  end.

(** ** JavaScript values

    Request bodies and provider payloads are parsed JSON, so the values the
    controller inspects are JSON values; [undefined] is the absence of a
    value.  Numbers are restricted to integers below 10^21 in magnitude,
    which JavaScript prints in decimal (larger ones are printed with an
    exponent): the controller never does arithmetic on a payload number, it
    only tests, prints and compares them. *)
Module JS.

Inductive JSON : Type :=
| JNull
| JBool (b : bool)
| JNum (n : Z)
| JStr (s : string)
| JArr (items : list JSON)
| JObj (fields : list (string * JSON)).

(** [None] is [undefined]. *)
Definition value : Type := option JSON.
Definition undefined : value := None.

(** A string where a value is expected is that string as a value. *)
Definition str (s : string) : value := Some (JStr s).
Coercion str : string >-> value.

(** Own-property lookup in an object literal (fields in insertion order;
    a parsed object has pairwise distinct keys). *)
Fixpoint lookup_field (fields : list (string * JSON)) (k : string) : value :=
  match fields with
  | [] => None
  | (k', v) :: rest => if String.eqb k' k then Some v else lookup_field rest k
  end.

(** [v[k]] for the property names the controller uses (none of them is
    defined on a prototype): a TypeError on [null] and [undefined],
    [undefined] on every primitive and on arrays. *)
Definition get (v : value) (k : string) : Res value :=
  match v with
  | None => Throw (TypeError ("Cannot read properties of undefined (reading '" ++ k ++ "')"))
  | Some JNull => Throw (TypeError ("Cannot read properties of null (reading '" ++ k ++ "')"))
  | Some (JObj fields) => Ok (lookup_field fields k)
  | Some _ => Ok None
  end.

(** [const { k: x } = v]: the read of a destructuring pattern.  It differs
    from [v[k]] in the TypeError thrown on [null] and [undefined], whose
    message names the pattern and the expression destructured, printed as
    [source]. *)
Definition destructure (v : value) (source k : string) : Res value :=
  match v with
  | None =>
      Throw (TypeError ("Cannot destructure property '" ++ k ++ "' of '" ++ source
                        ++ "' as it is undefined."))
  | Some JNull =>
      Throw (TypeError ("Cannot destructure property '" ++ k ++ "' of '" ++ source
                        ++ "' as it is null."))
  | _ => get v k
  end.

(** The same read on a value already known not to be [null] or
    [undefined], where it cannot throw. *)
Definition field (v : value) (k : string) : value :=
  match v with
  | Some (JObj fields) => lookup_field fields k
  | _ => None
  end.

(** ToBoolean. *)
Definition truthy (v : value) : bool :=
  match v with
  | None => false
  | Some JNull => false
  | Some (JBool b) => b
  | Some (JNum n) => negb (Z.eqb n 0)
  | Some (JStr s) => negb (String.eqb s "")
  | Some (JArr _) => true
  | Some (JObj _) => true
  end.

Definition string_of_Z (n : Z) : string := NilZero.string_of_int (Z.to_int n).

(** ToString on a JSON value: what a template literal or [+] with a
    string prints.  An array prints its elements joined by commas, with
    [null] elements empty; a plain object prints as [[object Object]]. *)
Fixpoint to_string (j : JSON) : string :=
  match j with
  | JNull => "null"
  | JBool true => "true"
  | JBool false => "false"
  | JNum n => string_of_Z n
  | JStr s => s
  | JArr items =>
      String.concat ","
        (map (fun x => match x with JNull => "" | _ => to_string x end) items)
  | JObj _ => "[object Object]"
  end.

Definition show (v : value) : string :=
  match v with
  | None => "undefined"
  | Some j => to_string j
  end.

(** [_.isString], [_.isObject], [Array.isArray] / [_.isArray], and
    [typeof v === 'object']. *)
Definition isString (v : value) : bool :=
  match v with Some (JStr _) => true | _ => false end.
Definition isObject (v : value) : bool :=
  match v with Some (JArr _) | Some (JObj _) => true | _ => false end.
Definition isArray (v : value) : bool :=
  match v with Some (JArr _) => true | _ => false end.
Definition typeof_object (v : value) : bool :=
  match v with Some JNull | Some (JArr _) | Some (JObj _) => true | _ => false end.

(** Strict equality with a string literal ([===], [Array.includes]). *)
Definition strict_eq_str (v : value) (lit : string) : bool :=
  match v with Some (JStr s) => String.eqb s lit | _ => false end.

(** Loose equality [v == lit] with a string literal that is not the
    spelling of a number (["text"], ["file"], ["image_url"],
    ["unauthenticated"]): a string compares by content, an array or object
    by its ToString, everything else goes through ToNumber of the
    literal, which is NaN, and differs. *)
Definition loose_eq_str (v : value) (lit : string) : bool :=
  match v with
  | Some (JStr s) => String.eqb s lit
  | Some (JArr items) => String.eqb (to_string (JArr items)) lit
  | Some (JObj fields) => String.eqb (to_string (JObj fields)) lit
  | _ => false
  end.

(** [['file', 'image_url'].includes(t)]. *)
Definition includes_str (lits : list string) (v : value) : bool :=
  existsb (strict_eq_str v) lits.

(** *** JSON.stringify *)

Definition hex_digit (n : N) : ascii :=
  match n with
  | 0 => "0" | 1 => "1" | 2 => "2" | 3 => "3" | 4 => "4" | 5 => "5"
  | 6 => "6" | 7 => "7" | 8 => "8" | 9 => "9" | 10 => "a" | 11 => "b"
  | 12 => "c" | 13 => "d" | 14 => "e" | _ => "f"
  end%N%char.

(** One character of a quoted JSON string: the quote, the backslash and
    the control characters are escaped, every other byte is copied. *)
Definition escape_char (c : ascii) : string :=
  let n := N_of_ascii c in
  if N.eqb n 34 then "\" ++ String c ""
  else if N.eqb n 92 then "\\"
  else if N.eqb n 8 then "\b"
  else if N.eqb n 9 then "\t"
  else if N.eqb n 10 then "\n"
  else if N.eqb n 12 then "\f"
  else if N.eqb n 13 then "\r"
  else if N.ltb n 32 then
    "\u00" ++ String (hex_digit (N.div n 16)) (String (hex_digit (N.modulo n 16)) "")
  else String c "".

Fixpoint escape (s : string) : string :=
  match s with
  | EmptyString => ""
  | String c rest => escape_char c ++ escape rest
  end.

Definition quote (s : string) : string :=
  String (ascii_of_N 34) (escape s ++ String (ascii_of_N 34) "").

Fixpoint stringify (j : JSON) : string :=
  match j with
  | JNull => "null"
  | JBool true => "true"
  | JBool false => "false"
  | JNum n => string_of_Z n
  | JStr s => quote s
  | JArr items => "[" ++ String.concat "," (map stringify items) ++ "]"
  | JObj fields =>
      "{" ++ String.concat ","
               (map (fun kv => quote (fst kv) ++ ":" ++ stringify (snd kv)) fields)
          ++ "}"
  end.

(** An object literal whose property values may be [undefined]:
    JSON.stringify leaves such properties out. *)
Fixpoint object (fields : list (string * value)) : list (string * JSON) :=
  match fields with
  | [] => []
  | (k, Some v) :: rest => (k, v) :: object rest
  | (_, None) :: rest => object rest
  end.

End JS.

Import JS.

(** The newline character, as the one-character string ["\n"] of the
    source. *)
Definition LF : string := String (ascii_of_N 10) "".

(** ** Buffers

    A Node [Buffer] is a list of bytes; offsets and lengths are natural
    numbers, 32-bit header values live in [N]. *)
Module Buf.

Definition Buffer : Type := list byte.

(** [Buffer.from(str)]: the UTF-8 bytes of the string. *)
Definition from (s : string) : Buffer := String.list_byte_of_string s.

(** [Buffer.alloc(n)]: [n] zero bytes. *)
Definition alloc (n : nat) : Buffer := replicate n x00.

Definition byte_of_N (n : N) : byte :=
  default x00 (Byte.of_N (n mod 256)).

(** [buffer.set(data, offset)], for data that fits. *)
Definition set (buffer data : Buffer) (offset : nat) : Buffer :=
  list_inserts offset data buffer.

(** [DataView.setUint8] and [DataView.setUint32] (big-endian, the
    DataView default); the value is taken modulo 2^8 and 2^32. *)
Definition setUint8 (buffer : Buffer) (offset : nat) (v : N) : Buffer :=
  <[offset := byte_of_N v]> buffer.

Definition setUint32 (buffer : Buffer) (offset : nat) (v : N) : Buffer :=
  <[offset + 3 := byte_of_N v]>
    (<[offset + 2 := byte_of_N (v / 2 ^ 8)]>
      (<[offset + 1 := byte_of_N (v / 2 ^ 16)]>
        (<[offset := byte_of_N (v / 2 ^ 24)]> buffer))).

(** [buffer.readUint32BE(offset)]: a RangeError unless four bytes are
    there. *)
Definition readUint32BE (buffer : Buffer) (offset : nat) : Res N :=
  match buffer !! offset, buffer !! (offset + 1),
        buffer !! (offset + 2), buffer !! (offset + 3) with
  | Some a, Some b, Some c, Some d =>
      Ok (Byte.to_N a * 2 ^ 24 + Byte.to_N b * 2 ^ 16
          + Byte.to_N c * 2 ^ 8 + Byte.to_N d)%N
  | _, _, _, _ => Throw (RangeError "ERR_OUT_OF_RANGE")
  end.

(** [buffer.subarray(start, end)] for non-negative bounds: both are
    clamped to the length, and an end before the start gives the empty
    buffer.  [None] is an omitted [end]. *)
Definition subarray (buffer : Buffer) (start : N) (stop : option N) : Buffer :=
  let len := N.of_nat (length buffer) in
  let s := N.min start len in
  let e := N.min (default len stop) len in
  take (N.to_nat (e - s)) (drop (N.to_nat s) buffer).

End Buf.

Import Buf.

(** ** wrapData: the outgoing frame *)

Definition wrapData (json : string) : Buffer :=
  let data := Buf.from json in
  let buffer := Buf.alloc (length data + 5) in
  let buffer := Buf.set buffer data 5 in
  let buffer := Buf.setUint8 buffer 0 0 in
  Buf.setUint32 buffer 1 (N.of_nat (length data)).

(** ** The stream listener shared by receiveStream and createTransStream

    Both functions install the same ['data'] listener over two variables,
    [chunk] and [temp]; they differ in the [parser] it calls and in the
    state [S] that parser updates. *)
Module Frame.

Record Decoder : Type := mkDecoder { chunk : Buffer; temp : Buffer }.

(** [let chunk = Buffer.from([]); let temp = Buffer.from([]);] *)
Definition init : Decoder := {| chunk := []; temp := [] |}.

Section Listener.
Context {S : Type}.
Variable parser : Buffer -> S -> Res S.

(** One call of the ['data'] listener: the variables after the call, and
    the exception when the call threw.  The listener handles at most one
    frame per call; when [parser] throws, the statement that empties
    [chunk] is not reached. *)
Definition on_data (d : Decoder) (s : S) (buffer : Buffer)
  : Decoder * S * option exn :=
  let chunk0 := (temp d ++ chunk d ++ buffer)%list in
  if (length chunk0 <? 5)%nat
  then ({| chunk := chunk0; temp := temp d |}, s, None)
  else
    match Buf.readUint32BE chunk0 1 with
    | Throw e => ({| chunk := chunk0; temp := temp d |}, s, Some e)
    | Ok chunkSize =>
        let temp1 := Buf.subarray chunk0 (chunkSize + 5) None in
        let chunk1 := Buf.subarray chunk0 0 (Some (chunkSize + 5)%N) in
        if (N.of_nat (length chunk1) <? chunkSize + 5)%N
        then ({| chunk := chunk1; temp := temp1 |}, s, None)
        else
          match parser (Buf.subarray chunk1 5 None) s with
          | Throw e => ({| chunk := chunk1; temp := temp1 |}, s, Some e)
          | Ok s' => ({| chunk := []; temp := temp1 |}, s', None)
          end
    end.
End Listener.

(** The payloads handed to the parser: the listener run with a parser that
    only records its argument. *)
Definition record_payload (payload : Buffer) (seen : list Buffer)
  : Res (list Buffer) := Ok (seen ++ [payload])%list.

Fixpoint feed (d : Decoder) (seen : list Buffer) (chunks : list Buffer)
  : Decoder * list Buffer :=
  match chunks with
  | [] => (d, seen)
  | buffer :: rest =>
      let '(d', seen', _) := on_data record_payload d seen buffer in
      feed d' seen' rest
  end.

Definition decode (chunks : list Buffer) : list Buffer :=
  snd (feed init [] chunks).

(** A well-formed frame: flag byte, 4-byte big-endian length, payload. *)
Definition be32 (n : N) : Buffer :=
  [Buf.byte_of_N (n / 2 ^ 24); Buf.byte_of_N (n / 2 ^ 16);
   Buf.byte_of_N (n / 2 ^ 8); Buf.byte_of_N n].

Definition frame (flag : byte) (payload : Buffer) : Buffer :=
  (flag :: be32 (N.of_nat (length payload)) ++ payload)%list.

Definition serialize (frames : list (byte * Buffer)) : Buffer :=
  concat (map (fun f => frame (fst f) (snd f)) frames).

End Frame.

(** ** HTTP responses *)

(** What the controller reads of an axios response.  [headers] holds the
    header values it looks at, by lower-case name. *)
Record AxiosResponse : Type := mkResponse {
  status : Z;
  statusText : string;
  headers : list (string * string);
  data : value
}.

(** A response with the given body and nothing else of interest. *)
Definition body_response (body : value) : AxiosResponse :=
  {| status := 200; statusText := "OK"; headers := []; data := body |}.

(** ** The lease store

    [accessTokenMap] and [accessTokenRequestQueueMap] are module-level
    variables shared by every request.  JavaScript runs each function to its
    next [await] without interruption, so the store changes in atomic steps:
    a call of [acquireToken] up to its first suspension, and the arrival of
    a RegisterDevice response together with the continuations it wakes.
    Refresh keys are assumed not to be names of [Object.prototype]
    members. *)
Module Lease.

Definition ACCESS_TOKEN_EXPIRES : Z := 900.

(** The object [requestToken] builds from a RegisterDevice response. *)
Record Token : Type := mkToken {
  deviceId : value;
  accessToken : value;
  refreshToken : value;
  refreshTime : Z
}.

(** What a [requestToken] promise is fulfilled with, and so what
    [accessTokenMap] can hold: a token object, or the error object that the
    [catch] handler passes to the queued [resolve] functions. *)
Inductive Entry : Type :=
| TokenEntry (t : Token)
| ErrorEntry (e : exn).

(** The value [acquireToken] returns. *)
Record Acquired : Type := mkAcquired {
  acq_deviceId : value;
  token : string
}.

(** The two [await requestToken(...)] of [acquireToken]. *)
Inductive Stage : Type := AwaitMissing | AwaitExpired.

(** A suspended [acquireToken] call: who called, and where it waits. *)
Record Waiter : Type := mkWaiter { caller : nat; stage : Stage }.

Record Store : Type := mkStore {
  accessTokenMap : gmap string Entry;
  accessTokenRequestQueueMap : gmap string (list Waiter);
  (** the [requestToken] call awaiting [axios.post], per key *)
  inflight : gmap string Waiter;
  (** RegisterDevice requests sent so far, oldest first *)
  requests : list string;
  (** the [acquireToken] calls that have returned or thrown *)
  settled : gmap nat (Res Acquired)
}.

Definition empty : Store :=
  {| accessTokenMap := ∅; accessTokenRequestQueueMap := ∅; inflight := ∅;
     requests := []; settled := ∅ |}.

(** [checkResult(result, refreshToken)]: its return value or exception,
    and [accessTokenMap] after the call. *)
Definition checkResult (result : AxiosResponse) (refreshToken : string)
    (m : gmap string Entry) : gmap string Entry * Res value :=
  if negb (truthy (data result)) then (m, Ok (Some JNull))
  else
    match get (data result) "code", get (data result) "message" with
    | Ok code, Ok message =>
        if negb (isString code) then (m, Ok (data result))
        else
          let m' := if loose_eq_str code "unauthenticated"
                    then delete refreshToken m else m in
          (m', Throw (APIException API_REQUEST_FAILED
                        ("[请求step失败]: " ++ show message)))
    | Throw e, _ | _, Throw e => (m, Throw e)
    end.

(** The destructuring of the RegisterDevice body and the object built
    from it. *)
Definition makeToken (body : value) (now : Z) : Res Token :=
  a ← get body "accessToken";
  accessTokenRaw ← get a "raw";
  r ← get body "refreshToken";
  refreshTokenRaw ← get r "raw";
  d ← get body "device";
  deviceID ← get d "deviceID";
  mret {| deviceId := deviceID; accessToken := accessTokenRaw;
          refreshToken := refreshTokenRaw;
          refreshTime := now + ACCESS_TOKEN_EXPIRES |}.

(** The inner async function of [requestToken], from the moment
    [axios.post] settles with [r]. *)
Definition exchange (r : Res AxiosResponse) (refreshToken : string) (now : Z)
    (m : gmap string Entry) : gmap string Entry * Res Token :=
  match r with
  | Throw e => (m, Throw e)
  | Ok result =>
      let '(m', body) := checkResult result refreshToken m in
      (m', body ≫= fun b => makeToken b now)
  end.

(** [requestToken] up to its suspension: a call that finds a queue parks
    its [resolve] there; a call that finds none opens the queue and sends
    the RegisterDevice request. *)
Definition requestToken (refreshToken : string) (w : Waiter) (s : Store) : Store :=
  match accessTokenRequestQueueMap s !! refreshToken with
  | Some queue =>
      {| accessTokenMap := accessTokenMap s;
         accessTokenRequestQueueMap :=
           <[refreshToken := (queue ++ [w])%list]> (accessTokenRequestQueueMap s);
         inflight := inflight s;
         requests := requests s;
         settled := settled s |}
  | None =>
      {| accessTokenMap := accessTokenMap s;
         accessTokenRequestQueueMap :=
           <[refreshToken := []]> (accessTokenRequestQueueMap s);
         inflight := <[refreshToken := w]> (inflight s);
         requests := (requests s ++ [refreshToken])%list;
         settled := settled s |}
  end.

(** [result.deviceId], [result.accessToken], [result.refreshToken] on what
    the map holds; an error object has none of them. *)
Definition entry_deviceId (e : Entry) : value :=
  match e with TokenEntry t => deviceId t | ErrorEntry _ => undefined end.
Definition entry_accessToken (e : Entry) : value :=
  match e with TokenEntry t => accessToken t | ErrorEntry _ => undefined end.
Definition entry_refreshToken (e : Entry) : value :=
  match e with TokenEntry t => refreshToken t | ErrorEntry _ => undefined end.

(** [util.unixTimestamp() > result.refreshTime]; comparing with
    [undefined] is false. *)
Definition expired (now : Z) (e : Entry) : bool :=
  match e with
  | TokenEntry t => (refreshTime t <? now)%Z
  | ErrorEntry _ => false
  end.

(** The [return] of [acquireToken]. *)
Definition acquired (e : Entry) : Acquired :=
  {| acq_deviceId := entry_deviceId e;
     token := show (entry_accessToken e) ++ "..." ++ show (entry_refreshToken e) |}.

Definition settle (c : nat) (r : Res Acquired) (s : Store) : Store :=
  {| accessTokenMap := accessTokenMap s;
     accessTokenRequestQueueMap := accessTokenRequestQueueMap s;
     inflight := inflight s;
     requests := requests s;
     settled := <[c := r]> (settled s) |}.

Definition cache_set (k : string) (e : Entry) (s : Store) : Store :=
  {| accessTokenMap := <[k := e]> (accessTokenMap s);
     accessTokenRequestQueueMap := accessTokenRequestQueueMap s;
     inflight := inflight s;
     requests := requests s;
     settled := settled s |}.

(** [acquireToken] from its second [if] on, with [result] in hand. *)
Definition acquireToken_check (c : nat) (refreshToken : string) (now : Z)
    (result : Entry) (s : Store) : Store :=
  if expired now result
  then requestToken refreshToken {| caller := c; stage := AwaitExpired |} s
  else settle c (Ok (acquired result)) s.

(** A call of [acquireToken] by [c] at time [now], up to its first
    suspension or its return. *)
Definition acquireToken (c : nat) (refreshToken : string) (now : Z) (s : Store) : Store :=
  match accessTokenMap s !! refreshToken with
  | None => requestToken refreshToken {| caller := c; stage := AwaitMissing |} s
  | Some result => acquireToken_check c refreshToken now result s
  end.

(** The continuation of a suspended [acquireToken] when its
    [requestToken] promise settles with [r]. *)
Definition resume (w : Waiter) (refreshToken : string) (now : Z)
    (r : Res Entry) (s : Store) : Store :=
  match r with
  | Throw e => settle (caller w) (Throw e) s
  | Ok result =>
      let s' := cache_set refreshToken result s in
      match stage w with
      | AwaitMissing => acquireToken_check (caller w) refreshToken now result s'
      | AwaitExpired => settle (caller w) (Ok (acquired result)) s'
      end
  end.

(** What the [then] and [catch] handlers pass to the queued [resolve]
    functions, and what the first caller gets after
    [if (_.isError(result)) throw result]. *)
Definition queued_value (r : Res Token) : Res Entry :=
  match r with
  | Ok t => Ok (TokenEntry t)
  | Throw e => Ok (ErrorEntry e)
  end.

Definition leader_value (r : Res Token) : Res Entry :=
  match r with
  | Ok t => Ok (TokenEntry t)
  | Throw e => Throw e
  end.

(** The RegisterDevice request for [refreshToken] settles with [r] at time
    [now]: the exchange runs, the queue is emptied and deleted, and the
    queued callers and then the first caller continue. *)
Definition respond (refreshToken : string) (r : Res AxiosResponse) (now : Z)
    (s : Store) : Store :=
  match inflight s !! refreshToken with
  | None => s
  | Some leader =>
      let '(m, result) := exchange r refreshToken now (accessTokenMap s) in
      let queue := default [] (accessTokenRequestQueueMap s !! refreshToken) in
      let s1 := {| accessTokenMap := m;
                   accessTokenRequestQueueMap :=
                     delete refreshToken (accessTokenRequestQueueMap s);
                   inflight := delete refreshToken (inflight s);
                   requests := requests s;
                   settled := settled s |} in
      let s2 := foldl (fun acc w => resume w refreshToken now (queued_value result) acc)
                      s1 queue in
      resume leader refreshToken now (leader_value result) s2
  end.

(** Calls of [acquireToken] for one key by the callers [cs], in order, all
    at time [now]. *)
Definition acquire_all (cs : list nat) (refreshToken : string) (now : Z)
    (s : Store) : Store :=
  foldl (fun acc c => acquireToken c refreshToken now acc) s cs.

(** The queue entries of callers suspended at the first [await]. *)
Definition waiters (cs : list nat) : list Waiter :=
  map (fun c => {| caller := c; stage := AwaitMissing |}) cs.

End Lease.

(** ** Provider events *)

(** [JSON.parse(buffer.toString())] under [_.attempt] is the JavaScript
    runtime's, not the controller's: it is a parameter of the parsers
    below, [None] standing for the SyntaxError. *)
Definition JSONParser : Type := Buffer -> option JSON.

(** The service-unavailable notice of both transcoders. *)
Definition notice (code message : value) : string :=
  "服务暂时不可用，第三方响应错误：[" ++ show code ++ "] " ++ show message.

(** [results.reduce((str, v) => str += line(v), "")] over a property
    value: a TypeError when the value has no [reduce], or when an element
    is [null]. *)
Definition reduce_results (line : value -> value -> string) (results : value)
  : Res string :=
  match results with
  | Some (JArr items) =>
      foldl (fun acc v =>
               str ← acc;
               title ← get (Some v) "title";
               url ← get (Some v) "url";
               mret (str ++ line title url))
            (Ok "") items
  | _ => Throw (TypeError "results.reduce is not a function")
  end.

(** [str.replace(/\n$/, "")]: drops one newline at the very end. *)
Fixpoint trim_final_newline (s : string) : string :=
  match s with
  | EmptyString => EmptyString
  | String c rest =>
      if String.eqb rest "" && Ascii.eqb c (ascii_of_N 10) then EmptyString
      else String c (trim_final_newline rest)
  end.

(** ** receiveStream: the buffered transcoder *)
Module Buffered.

Record Message : Type := mkMessage { role : string; content : string }.
Record Choice : Type := mkChoice {
  index : Z; message : Message; finish_reason : string
}.
Record Usage : Type := mkUsage {
  prompt_tokens : Z; completion_tokens : Z; total_tokens : Z
}.
Record Completion : Type := mkCompletion {
  id : value;
  model : string;
  object : string;
  choices : list Choice;
  usage : Usage;
  created : Z
}.

(** The [data] object as [receiveStream] initialises it.  [convId] is
    whatever [createConversation] returned: a string when the provider
    answered with one, and left as it is otherwise. *)
Definition initial (model : string) (convId : value) (now : Z) : Completion :=
  {| id := convId;
     model := model;
     object := "chat.completion";
     choices := [ {| index := 0;
                     message := {| role := "assistant"; content := "" |};
                     finish_reason := "stop" |} ];
     usage := {| prompt_tokens := 1; completion_tokens := 1; total_tokens := 2 |};
     created := now |}.

(** [data.choices[0].message.content += text] *)
Definition append_content (text : string) (d : Completion) : Completion :=
  {| id := id d;
     model := model d;
     object := object d;
     choices :=
       alter (fun c => {| index := index c;
                          message := {| role := role (message c);
                                        content := content (message c) ++ text |};
                          finish_reason := finish_reason c |})
             0%nat (choices d);
     usage := usage d;
     created := created d |}.

(** The variables the parser closes over. *)
Record Vars : Type := mkVars { data : Completion; refContent : string }.

Definition search_line (title url : value) : string :=
  show title ++ "(" ++ show url ++ ")" ++ LF.

(** The parser, after [JSON.parse] has produced [result]. *)
Definition parser_json (result : value) (v : Vars) : Res Vars :=
  error ← get result "error";
  code ← (if truthy error then get error "code" else Ok undefined);
  if truthy error && truthy code then
    message ← get error "message";
    mret {| data := append_content (notice code message) (data v);
            refContent := refContent v |}
  else
    pipelineEvent ← get result "pipelineEvent";
    if truthy pipelineEvent then
      eventSearch ← get pipelineEvent "eventSearch";
      results ← (if truthy eventSearch then get eventSearch "results" else Ok undefined);
      if truthy eventSearch && truthy results then
        str ← reduce_results search_line results;
        mret {| data := data v; refContent := str |}
      else mret v
    else
      textEvent ← get result "textEvent";
      text ← (if truthy textEvent then get textEvent "text" else Ok undefined);
      if truthy textEvent && truthy text then
        mret {| data := append_content (show text) (data v);
                refContent := refContent v |}
      else
        doneEvent ← get result "doneEvent";
        if truthy doneEvent then
          mret {| data :=
                    append_content
                      (if negb (String.eqb (refContent v) "")
                       then LF ++ LF ++ "搜索结果来自：" ++ LF
                            ++ trim_final_newline (refContent v)
                       else "")
                      (data v);
                  refContent := refContent v |}
        else mret v.

Definition parser (parse : JSONParser) (buffer : Buffer) (v : Vars) : Res Vars :=
  match parse buffer with
  | None => Throw (InvalidResponse buffer)
  | Some result => parser_json (Some result) v
  end.

(** The promise [receiveStream] returns.  It resolves with the [data]
    object itself, so its value is read from the variables. *)
Inductive Promise : Type := Pending | Resolved | Rejected (e : exn).

(** What the upstream byte stream emits. *)
Inductive StreamEvent : Type :=
| on_data (buffer : Buffer)
| on_error (e : exn)
| on_close.

Record Receiver : Type := mkReceiver {
  decoder : Frame.Decoder;
  vars : Vars;
  promise : Promise;
  (** exceptions that left the ['data'] listener *)
  uncaught : list exn
}.

Definition start (model : string) (convId : value) (now : Z) : Receiver :=
  {| decoder := Frame.init;
     vars := {| data := initial model convId now; refContent := "" |};
     promise := Pending;
     uncaught := [] |}.

Definition step (parse : JSONParser) (r : Receiver) (ev : StreamEvent) : Receiver :=
  match ev with
  | on_data buffer =>
      let '(d, v, thrown) := Frame.on_data (parser parse) (decoder r) (vars r) buffer in
      {| decoder := d; vars := v; promise := promise r;
         uncaught := (uncaught r ++ option_list thrown)%list |}
  | on_error e =>
      {| decoder := decoder r; vars := vars r;
         promise := match promise r with Pending => Rejected e | p => p end;
         uncaught := uncaught r |}
  | on_close =>
      {| decoder := decoder r; vars := vars r;
         promise := match promise r with Pending => Resolved | p => p end;
         uncaught := uncaught r |}
  end.

Definition receiveStream (parse : JSONParser) (model : string) (convId : value)
    (now : Z) (events : list StreamEvent) : Receiver :=
  foldl (step parse) (start model convId now) events.

(** The completion object the caller holds, once the promise resolved. *)
Definition resolved (r : Receiver) : option Completion :=
  match promise r with
  | Resolved => Some (data (vars r))
  | _ => None
  end.

(** The parser run over already parsed events, for event-level
    statements. *)
Definition transcode (model : string) (convId : value) (now : Z)
    (events : list JSON) : Res Vars :=
  foldl (fun acc ev => v ← acc; parser_json (Some ev) v)
        (Ok {| data := initial model convId now; refContent := "" |}) events.

Definition answer (v : Vars) : list string :=
  map (fun c => content (message c)) (choices (data v)).

End Buffered.

(** ** createTransStream: the streaming transcoder *)
Module Streaming.

(** The [PassThrough] handed to the HTTP layer: what was written to it, in
    order, and whether it was ended.  [closed] is the flag the controller
    tests before every write; it is raised by the consumer's side.  A write
    or [end(chunk)] after [end] is refused by Node and recorded in
    [write_after_end]. *)
Record TransStream : Type := mkTransStream {
  written : list string;
  ended : bool;
  closed : bool;
  write_after_end : bool
}.

(** [!transStream.closed && transStream.write(chunk)] *)
Definition write (chunk : string) (t : TransStream) : TransStream :=
  if closed t then t
  else if ended t
  then {| written := written t; ended := true; closed := false;
          write_after_end := true |}
  else {| written := (written t ++ [chunk])%list; ended := false; closed := false;
          write_after_end := write_after_end t |}.

(** [!transStream.closed && transStream.end(chunk)] *)
Definition end_with (chunk : string) (t : TransStream) : TransStream :=
  if closed t then t
  else if ended t
  then {| written := written t; ended := true; closed := false;
          write_after_end := true |}
  else {| written := (written t ++ [chunk])%list; ended := true; closed := false;
          write_after_end := write_after_end t |}.

Definition DONE : string := "data: [DONE]" ++ LF ++ LF.

(** [`data: ${JSON.stringify(obj)}\n\n`] *)
Definition sse (obj : JSON) : string := "data: " ++ stringify obj ++ LF ++ LF.

Definition usage : JSON :=
  JObj [("prompt_tokens", JNum 1); ("completion_tokens", JNum 1);
        ("total_tokens", JNum 2)].

Section Chunks.
Variables (model : string) (convId : value) (created : Z).

(** The [id: convId] property of every chunk: [JSON.stringify] leaves it
    out when [convId] is [undefined]. *)
Definition id_property : list (string * JSON) := JS.object [("id", convId)].

(** The chunk written when the stream is created. *)
Definition opening_chunk : string :=
  sse (JObj (id_property ++ [("model", JStr model);
             ("object", JStr "chat.completion.chunk");
             ("choices",
              JArr [JObj [("index", JNum 0);
                          ("delta", JObj [("role", JStr "assistant");
                                          ("content", JStr "")]);
                          ("finish_reason", JNull)]]);
             ("created", JNum created)])%list).

Definition error_chunk (code message : value) : string :=
  sse (JObj (id_property ++ [("model", JStr model);
             ("object", JStr "chat.completion.chunk");
             ("choices",
              JArr [JObj [("index", JNum 0);
                          ("delta", JObj [("content", JStr (notice code message))]);
                          ("finish_reason", JStr "stop")]]);
             ("usage", usage);
             ("created", JNum created)])%list).

Definition search_chunk (refContent : string) : string :=
  sse (JObj (id_property ++ [("model", JStr model);
             ("object", JStr "chat.completion.chunk");
             ("choices",
              JArr [JObj [("index", JNum 0);
                          ("delta", JObj [("content", JStr (refContent ++ LF))]);
                          ("finish_reason", JNull)]]);
             ("created", JNum created)])%list).

(** [delta: { content: result.textEvent.text }]: the text as parsed (a
    truthy value is never [undefined]). *)
Definition text_chunk (text : JSON) : string :=
  sse (JObj (id_property ++ [("model", JStr model);
             ("object", JStr "chat.completion.chunk");
             ("choices",
              JArr [JObj [("index", JNum 0);
                          ("delta", JObj [("content", text)]);
                          ("finish_reason", JNull)]]);
             ("created", JNum created)])%list).

Definition done_chunk : string :=
  sse (JObj (id_property ++ [("model", JStr model);
             ("object", JStr "chat.completion.chunk");
             ("choices",
              JArr [JObj [("index", JNum 0);
                          ("delta", JObj []);
                          ("finish_reason", JStr "stop")]]);
             ("usage", usage);
             ("created", JNum created)])%list).

Definition search_line (title url : value) : string :=
  "检索 " ++ show title ++ "(" ++ show url ++ ") ..." ++ LF.

(** The variables the parser writes: the output stream and the number of
    calls of [endCallback]. *)
Record Vars : Type := mkVars { out : TransStream; endCallbacks : nat }.

(** The parser, after [JSON.parse] has produced [result]. *)
Definition parser_json (result : value) (v : Vars) : Res Vars :=
  error ← get result "error";
  code ← (if truthy error then get error "code" else Ok undefined);
  if truthy error && truthy code then
    message ← get error "message";
    mret {| out := end_with DONE (write (error_chunk code message) (out v));
            endCallbacks := S (endCallbacks v) |}
  else
    pipelineEvent ← get result "pipelineEvent";
    if truthy pipelineEvent then
      eventSearch ← get pipelineEvent "eventSearch";
      results ← (if truthy eventSearch then get eventSearch "results" else Ok undefined);
      if truthy eventSearch && truthy results then
        refContent ← reduce_results search_line results;
        mret {| out := write (search_chunk refContent) (out v);
                endCallbacks := endCallbacks v |}
      else mret v
    else
      textEvent ← get result "textEvent";
      text ← (if truthy textEvent then get textEvent "text" else Ok undefined);
      if truthy textEvent && truthy text then
        mret {| out := write (text_chunk (default JNull text)) (out v);
                endCallbacks := endCallbacks v |}
      else
        doneEvent ← get result "doneEvent";
        if truthy doneEvent then
          mret {| out := end_with DONE (write done_chunk (out v));
                  endCallbacks := S (endCallbacks v) |}
        else mret v.

Definition parser (parse : JSONParser) (buffer : Buffer) (v : Vars) : Res Vars :=
  match parse buffer with
  | None => Throw (InvalidResponse buffer)
  | Some result => parser_json (Some result) v
  end.

(** What happens around the transcoder: the upstream byte stream emits
    data, an error or close, and the consumer may go away. *)
Inductive StreamEvent : Type :=
| on_data (buffer : Buffer)
| on_error (e : exn)
| on_close
| consumer_closed.

Record Transcoder : Type := mkTranscoder {
  decoder : Frame.Decoder;
  vars : Vars;
  (** whether the [once] listeners are still installed *)
  error_listener : bool;
  close_listener : bool;
  (** exceptions that left a listener *)
  uncaught : list exn
}.

(** [createTransStream] up to its [return]: the opening chunk is
    written. *)
Definition start : Transcoder :=
  {| decoder := Frame.init;
     vars := {| out := write opening_chunk
                         {| written := []; ended := false; closed := false;
                            write_after_end := false |};
                endCallbacks := 0 |};
     error_listener := true;
     close_listener := true;
     uncaught := [] |}.

Definition with_out (f : TransStream -> TransStream) (v : Vars) : Vars :=
  {| out := f (out v); endCallbacks := endCallbacks v |}.

Definition step (parse : JSONParser) (t : Transcoder) (ev : StreamEvent) : Transcoder :=
  match ev with
  | on_data buffer =>
      let '(d, v, thrown) := Frame.on_data (parser parse) (decoder t) (vars t) buffer in
      {| decoder := d; vars := v;
         error_listener := error_listener t; close_listener := close_listener t;
         uncaught := (uncaught t ++ option_list thrown)%list |}
  | on_error e =>
      if error_listener t
      then {| decoder := decoder t; vars := with_out (end_with DONE) (vars t);
              error_listener := false; close_listener := close_listener t;
              uncaught := uncaught t |}
      else t
  | on_close =>
      if close_listener t
      then {| decoder := decoder t; vars := with_out (end_with DONE) (vars t);
              error_listener := error_listener t; close_listener := false;
              uncaught := uncaught t |}
      else t
  | consumer_closed =>
      {| decoder := decoder t;
         vars := with_out (fun o => {| written := written o; ended := ended o;
                                       closed := true;
                                       write_after_end := write_after_end o |})
                          (vars t);
         error_listener := error_listener t; close_listener := close_listener t;
         uncaught := uncaught t |}
  end.

Definition createTransStream (parse : JSONParser) (events : list StreamEvent)
  : Transcoder :=
  foldl (step parse) start events.

(** The parser run over already parsed events. *)
Definition transcode (events : list JSON) : Res Vars :=
  foldl (fun acc ev => v ← acc; parser_json (Some ev) v) (Ok (vars start)) events.

End Chunks.

End Streaming.

(** ** Message preparation *)

(** Modelled from the spec: [util.isBASE64Data] (lib/util.ts is not among
    the sources) decides whether a source "is an inline-encoded payload",
    that is, a string holding a [data:] URL; no other value is one,
    [undefined] included. *)
Definition isBASE64Data (v : value) : bool :=
  match v with
  | Some (JStr s) => String.prefix "data:" s
  | _ => false
  end.

(** [Array.prototype.filter] and [Array.prototype.some] with a callback
    that may throw. *)
Fixpoint filterM {A : Type} (keep : A -> Res bool) (l : list A) : Res (list A) :=
  match l with
  | [] => Ok []
  | x :: rest =>
      b ← keep x;
      rest' ← filterM keep rest;
      mret (if b : bool then x :: rest' else rest')
  end.

Fixpoint someM {A : Type} (test : A -> Res bool) (l : list A) : Res bool :=
  match l with
  | [] => Ok false
  | x :: rest =>
      b ← test x;
      if b : bool then Ok true else someM test rest
  end.

Fixpoint mapM {A B : Type} (f : A -> Res B) (l : list A) : Res (list B) :=
  match l with
  | [] => Ok []
  | x :: rest =>
      y ← f x;
      rest' ← mapM f rest;
      mret (y :: rest')
  end.

Module Prepare.

Definition FILE_TYPES : list string := ["file"; "image_url"].

(** [typeof v === 'object' && ['file', 'image_url'].includes(v['type'])] *)
Definition is_file_part (v : JSON) : Res bool :=
  if typeof_object (Some v) then
    t ← get (Some v) "type";
    mret (includes_str FILE_TYPES t)
  else mret false.

(** The callback of [message.content.filter]. *)
Definition keep_part (v : JSON) : Res bool :=
  file ← is_file_part v;
  if file : bool then
    url ← get (Some v) "url";
    mret (negb (isBASE64Data url))
  else mret true.

(** [message.content = parts] on an object that has the property. *)
Fixpoint assign (fields : list (string * JSON)) (k : string) (v : JSON)
  : list (string * JSON) :=
  match fields with
  | [] => [(k, v)]
  | (k', v') :: rest =>
      if String.eqb k' k then (k', v) :: rest else (k', v') :: assign rest k v
  end.

(** The callback of [messages.map]. *)
Definition strip (message : JSON) : Res JSON :=
  content ← get (Some message) "content";
  match content, message with
  | Some (JArr parts), JObj fields =>
      parts' ← filterM keep_part parts;
      mret (JObj (assign fields "content" (JArr parts')))
  | _, _ => mret message
  end.

Definition newFileMessage : JSON :=
  JObj [("content", JStr "以上为历史消息，关注以下用户发送的文件和消息");
        ("role", JStr "system")].

Definition newTextMessage : JSON :=
  JObj [("content", JStr "以上为历史消息，关注以下用户消息");
        ("role", JStr "system")].

(** [validMessages.splice(validMessages.length - 1, 0, m)] *)
Definition splice_before_last (l : list JSON) (m : JSON) : list JSON :=
  (take (length l - 1) l ++ m :: drop (length l - 1) l)%list.

(** The callback of the inner [reduce], over the parts of one message. *)
Definition add_part (acc : Res string) (v : JSON) : Res string :=
  _content ← acc;
  if negb (isObject (Some v)) then mret _content
  else
    t ← get (Some v) "type";
    if negb (loose_eq_str t "text") then mret _content
    else
      text ← get (Some v) "text";
      mret (_content ++ ("user:" ++ show text) ++ LF).

(** The callback of the outer [reduce], over the messages. *)
Definition add_message (acc : Res string) (message : JSON) : Res string :=
  content ← acc;
  c ← get (Some message) "content";
  match c with
  | Some (JArr parts) => foldl add_part (Ok content) parts
  | _ =>
      role ← get (Some message) "role";
      mret (content
            ++ show (if truthy role then role else Some (JStr "user"))
            ++ ":" ++ show c ++ LF)
  end.

(** The merged text, and the system message that was spliced in. *)
Definition merge (messages : list JSON) : Res (string * JSON) :=
  validMessages ← mapM strip messages;
  let latestMessage := last validMessages in
  content ← get latestMessage "content";
  hasFileOrImage ← match content with
                   | Some (JArr parts) => someM is_file_part parts
                   | _ => Ok false
                   end;
  let injected := if hasFileOrImage : bool then newFileMessage else newTextMessage in
  let validMessages := splice_before_last validMessages injected in
  text ← foldl add_message (Ok "") validMessages;
  mret (text ++ "assistant:", injected).

Definition payload (convId : string) (text : string) (refs : list JSON) : string :=
  stringify
    (JObj (JS.object
       [("chatId", Some (JStr convId));
        ("messageInfo",
         Some (JObj (JS.object
           [("text", Some (JStr text));
            ("attachments",
             if (0 <? length refs)%nat then Some (JArr refs) else undefined)])))])).

Definition messagesPrepare (convId : string) (messages : list JSON) (refs : list JSON)
  : Res Buffer :=
  merged ← merge messages;
  mret (wrapData (payload convId (fst merged) refs)).

(** The callback of [lastMessage.content.forEach]: the URL it pushes, if
    any. *)
Definition ref_url (v : JSON) : option string :=
  let type := field (Some v) "type" in
  let file_url := field (Some v) "file_url" in
  let image_url := field (Some v) "image_url" in
  if negb (isObject (Some v)) || negb (includes_str FILE_TYPES type) then None
  else if loose_eq_str type "file" && isObject file_url
          && isString (field file_url "url")
  then Some (show (field file_url "url"))
  else if loose_eq_str type "image_url" && isObject image_url
          && isString (field image_url "url")
  then Some (show (field image_url "url"))
  else None.

Definition extractRefFileUrls (messages : list JSON) : Res (list string) :=
  match last messages with
  | None => Ok []
  | Some lastMessage =>
      content ← get (Some lastMessage) "content";
      match content with
      | Some (JArr parts) => Ok (omap ref_url parts)
      | _ => Ok []
      end
  end.

End Prepare.

(** ** The attachment uploader *)
Module Upload.

Definition FILE_MAX_SIZE : Z := 100 * 1024 * 1024.

(** The statuses after which [uploadFile] gives up. *)
Definition FAILED_STATUSES : list Z := [12; 22; 59; 404]%Z.

(** What [uploadFile] asks of the outside world, in order. *)
Inductive Call : Type :=
| HEAD (url : string)
| GET (url : string)
| ACQUIRE (refreshToken : string)
| PUT (filename : string) (size : nat)
| STATUS (id : value)
| SLEEP (ms : Z).

(** Library functions [uploadFile] calls ([util], [mime], [path],
    base64 decoding). *)
Record Lib : Type := mkLib {
  uuid : string;
  extractBASE64DataFormat : string -> value;
  removeBASE64DataHeader : string -> string;
  base64 : string -> Buffer;
  mime_getExtension : value -> value;
  mime_getType : string -> value;
  basename : string -> string
}.

(** The answers of the outside world.  [polls] lists the outcomes of the
    successive GetFileStatus requests, each with the value
    [util.unixTimestamp()] has when it is read after that request;
    [startTime] is its value before the first one.  [acquire] is the
    outcome of the [acquireToken] call, whose own steps are those of
    [Lease]. *)
Record World : Type := mkWorld {
  head : string -> Res AxiosResponse;
  download : string -> Res Buffer;
  acquire : string -> Res Lease.Acquired;
  put : string -> Buffer -> Res AxiosResponse;
  startTime : Z;
  polls : list (Res AxiosResponse * Z)
}.

(** The state threaded through a call: the requests made so far and
    [accessTokenMap], which [checkResult] may change. *)
Record St : Type := mkSt { calls : list Call; cache : gmap string Lease.Entry }.

(** How far a call got: it returned, it threw, or it is suspended on a
    response the world has not given yet. *)
Inductive Out (A : Type) : Type :=
| Returned (a : A)
| Raised (e : exn)
| Awaiting.
Arguments Returned {A} a.
Arguments Raised {A} e.
Arguments Awaiting {A}.

Definition Eff (A : Type) : Type := St -> St * Out A.

#[global] Instance Eff_ret : MRet Eff := fun A a s => (s, Returned a).
#[global] Instance Eff_bind : MBind Eff := fun A B f m s =>
  match m s with
  | (s', Returned a) => f a s'
  | (s', Raised e) => (s', Raised e)
  | (s', Awaiting) => (s', Awaiting)
  end.

Definition call (c : Call) : Eff unit :=
  fun s => ({| calls := (calls s ++ [c])%list; cache := cache s |}, Returned tt).

Definition raise {A : Type} (e : exn) : Eff A := fun s => (s, Raised e).

Definition lift {A : Type} (r : Res A) : Eff A :=
  match r with
  | Ok a => mret a
  | Throw e => raise e
  end.

Definition checkResult (result : AxiosResponse) (refreshToken : string) : Eff value :=
  fun s =>
    let '(m, r) := Lease.checkResult result refreshToken (cache s) in
    lift r {| calls := calls s; cache := m |}.

(** [parseInt(s, 10)]: leading white space, an optional sign, then the
    longest run of digits; [None] is NaN.  White space is what
    [parseInt] trims, the WhiteSpace and LineTerminator code points, here
    in their UTF-8 bytes: U+0009 to U+000D and U+0020 in one byte, U+00A0
    in two, and U+1680, U+2000 to U+200A, U+2028, U+2029, U+202F, U+205F,
    U+3000 and U+FEFF in three.  The number read is exact; [parseInt]
    rounds it to a double, which changes no comparison with
    [FILE_MAX_SIZE]. *)
Definition is_space (c : ascii) : bool :=
  let n := N_of_ascii c in
  (N.eqb n 32 || (N.leb 9 n && N.leb n 13))%N.

Definition is_space2 (c1 c2 : ascii) : bool :=
  (N.eqb (N_of_ascii c1) 194 && N.eqb (N_of_ascii c2) 160)%N.

Definition is_space3 (c1 c2 c3 : ascii) : bool :=
  let a := N_of_ascii c1 in
  let b := N_of_ascii c2 in
  let c := N_of_ascii c3 in
  (N.eqb a 225 && N.eqb b 154 && N.eqb c 128
   || N.eqb a 226 && N.eqb b 128
      && (N.leb 128 c && N.leb c 138 || N.eqb c 168 || N.eqb c 169 || N.eqb c 175)
   || N.eqb a 226 && N.eqb b 129 && N.eqb c 159
   || N.eqb a 227 && N.eqb b 128 && N.eqb c 128
   || N.eqb a 239 && N.eqb b 187 && N.eqb c 191)%N.

Fixpoint skip_spaces (s : string) : string :=
  match s with
  | String c1 rest1 =>
      if is_space c1 then skip_spaces rest1
      else
        match rest1 with
        | String c2 rest2 =>
            if is_space2 c1 c2 then skip_spaces rest2
            else
              match rest2 with
              | String c3 rest3 =>
                  if is_space3 c1 c2 c3 then skip_spaces rest3 else s
              | EmptyString => s
              end
        | EmptyString => s
        end
  | EmptyString => s
  end.

Fixpoint digits (s : string) (acc : option Z) : option Z :=
  match s with
  | String c rest =>
      let n := N_of_ascii c in
      if (N.leb 48 n && N.leb n 57)%N
      then digits rest (Some (10 * default 0 acc + Z.of_N (n - 48))%Z)
      else acc
  | EmptyString => acc
  end.

Definition parseInt10 (s : string) : option Z :=
  match skip_spaces s with
  | String "-" rest => Z.opp <$> digits rest None
  | String "+" rest => digits rest None
  | s' => digits s' None
  end.

Definition header (result : AxiosResponse) (name : string) : option string :=
  snd <$> List.find (fun kv => String.eqb (fst kv) name) (headers result).

Definition checkFileUrl (w : World) (fileUrl : string) : Eff unit :=
  if isBASE64Data (Some (JStr fileUrl)) then mret tt
  else
    call (HEAD fileUrl);;
    result ← lift (head w fileUrl);
    if (400 <=? status result)%Z
    then raise (APIException API_FILE_URL_INVALID
                  ("File " ++ fileUrl ++ " is not valid: ["
                   ++ string_of_Z (status result) ++ "] " ++ statusText result))
    else
      match header result "content-length" with
      | Some declared =>
          if String.eqb declared "" then mret tt
          else
            match parseInt10 declared with
            | Some fileSize =>
                if (FILE_MAX_SIZE <? fileSize)%Z
                then raise (APIException API_FILE_EXECEEDS_SIZE
                              ("File " ++ fileUrl ++ " is not valid"))
                else mret tt
            | None => mret tt
            end
      | None => mret tt
      end.

(** [filename.substring(0, filename.indexOf("?"))] when there is a
    question mark. *)
Fixpoint cut_query (filename : string) : string :=
  match filename with
  | EmptyString => EmptyString
  | String c rest => if Ascii.eqb c "?" then EmptyString else String c (cut_query rest)
  end.

(** The [while (needFurtherCall)] loop, entered with [needFurtherCall]
    true, over the poll outcomes that remain.  When none remains the
    GetFileStatus request has been sent and the loop waits for its
    answer. *)
Fixpoint poll (refreshToken : string) (fileId : value) (start : Z)
    (remaining : list (Res AxiosResponse * Z)) : Eff unit :=
  match remaining with
  | [] => call (STATUS fileId);; ((fun s => (s, Awaiting)) : Eff unit)
  | (r, now) :: rest =>
      call (STATUS fileId);;
      result ← lift r;
      body ← checkResult result refreshToken;
      fileStatus ← lift (destructure body "checkResult(...)" "fileStatus");
      needFurtherCall ← lift (destructure body "checkResult(...)" "needFurtherCall");
      if match fileStatus with
         | Some (JNum n) => bool_decide (n ∈ FAILED_STATUSES)
         | _ => false
         end
      then raise (APIException API_FILE_UPLOAD_FAILED "")
      else if (60 <? now - start)%Z
      then raise (APIException API_FILE_UPLOAD_TIMEOUT "")
      else if truthy needFurtherCall
      then poll refreshToken fileId start rest
      else mret tt
  end.

(** [uploadFile] up to its polling loop: the probe, the bytes, the
    transfer.  It yields the file name, the bytes, the MIME type and the id
    the provider gave. *)
Definition transfer (lib : Lib) (w : World) (fileUrl : string)
    (refreshToken : string) : Eff (string * Buffer * value * value) :=
  checkFileUrl w fileUrl;;
  '(filename, fileData, mimeType) ←
    (if isBASE64Data (Some (JStr fileUrl)) then
       let mimeType := extractBASE64DataFormat lib fileUrl in
       let ext := mime_getExtension lib mimeType in
       mret (uuid lib ++ "." ++ show ext,
             base64 lib (removeBASE64DataHeader lib fileUrl),
             mimeType)
     else
       call (GET fileUrl);;
       fileData ← lift (download w fileUrl);
       mret (cut_query (basename lib fileUrl), fileData, undefined));
  let mimeType := if truthy mimeType then mimeType else mime_getType lib filename in
  call (ACQUIRE refreshToken);;
  lift (acquire w refreshToken);;
  call (PUT filename (length fileData));;
  result ← lift (put w filename fileData);
  body ← checkResult result refreshToken;
  fileId ← lift (destructure body "checkResult(...)" "id");
  mret (filename, fileData, mimeType, fileId).

(** The object [uploadFile] returns. *)
Definition attachment (filename : string) (fileData : Buffer)
    (mimeType fileId : value) : JSON :=
  JObj (JS.object
          [("attachmentType", mimeType);
           ("attachmentId", fileId);
           ("name", Some (JStr filename));
           ("width", Some (JStr "undefined"));
           ("height", Some (JStr "undefined"));
           ("size", Some (JStr (string_of_Z (Z.of_nat (length fileData)))))]).

Definition uploadFile (lib : Lib) (w : World) (fileUrl : string)
    (refreshToken : string) : Eff JSON :=
  '(filename, fileData, mimeType, fileId) ← transfer lib w fileUrl refreshToken;
  poll refreshToken fileId (startTime w) (polls w);;
  call (SLEEP 5000);;
  mret (attachment filename fileData mimeType fileId).

(** A call from a fresh trace. *)
Definition run {A : Type} (m : Eff A) (cache : gmap string Lease.Entry)
  : St * Out A :=
  m {| calls := []; cache := cache |}.

(** The state after one more request. *)
Definition logged (c : Call) (s : St) : St :=
  {| calls := (calls s ++ [c])%list; cache := cache s |}.

(** Properties of a GetFileStatus exchange, for the statements about the
    polling loop: [checkResult] lets the response through (its body is
    truthy and carries no string [code]); its [fileStatus] is one of the
    failed statuses; and the loop goes on after it (it passes, is not a
    failure, comes within 60 seconds of the start and asks for a further
    call). *)
Definition passes (result : AxiosResponse) : bool :=
  truthy (data result) && negb (isString (field (data result) "code")).

Definition terminal_failure (result : AxiosResponse) : bool :=
  match field (data result) "fileStatus" with
  | Some (JNum n) => bool_decide (n ∈ FAILED_STATUSES)
  | _ => false
  end.

Definition keeps_polling (start : Z) (p : Res AxiosResponse * Z) : bool :=
  match p with
  | (Ok result, now) =>
      passes result && negb (terminal_failure result)
      && (now - start <=? 60)%Z
      && truthy (field (data result) "needFurtherCall")
  | (Throw _, _) => false
  end.

Definition is_probe (c : Call) : bool :=
  match c with HEAD _ => true | _ => false end.

(** The spec's "success status": HTTP's 2xx range, which is also what
    axios accepts by default. *)
Definition success_status (status : Z) : bool :=
  ((200 <=? status) && (status <? 300))%Z.

End Upload.

(** ** The orchestrator: createCompletion and createCompletionStream *)
Module Orchestrator.

Definition MAX_RETRY_COUNT : nat := 0.
Definition RETRY_DELAY : Z := 5000.

(** The [catch] handler both functions end with: a failed attempt is
    repeated, [retryCount] one higher, while [retryCount] is below
    [MAX_RETRY_COUNT]; otherwise the error is thrown on.  [attempt n] is
    the outcome of the async body when run with [retryCount = n]; the
    recursion runs out only after the bound has been passed. *)
Fixpoint retrying {A : Type} (budget : nat) (attempt : nat -> Res A)
    (retryCount : nat) : Res A :=
  match attempt retryCount with
  | Ok answer => Ok answer
  | Throw err =>
      if (retryCount <? MAX_RETRY_COUNT)%nat
      then match budget with
           | S budget' => retrying budget' attempt (S retryCount)
           | O => Throw err
           end
      else Throw err
  end.

Definition createCompletion {A : Type} (attempt : nat -> Res A) (retryCount : nat)
  : Res A :=
  retrying (MAX_RETRY_COUNT - retryCount) attempt retryCount.

(** The first statements of the async body: the URLs handed to
    [uploadFile] (every URL of [refFileUrls], since [Promise.all] is given
    the mapped array), and the attachments obtained. *)
Definition upload_refs (uploadFile : string -> Res JSON) (messages : list JSON)
  : list string * Res (list JSON) :=
  match Prepare.extractRefFileUrls messages with
  | Throw e => ([], Throw e)
  | Ok refFileUrls => (refFileUrls, mapM uploadFile refFileUrls)
  end.

(** The body of the SendMessageStream request. *)
Definition request_body (uploadFile : string -> Res JSON) (convId : string)
    (messages : list JSON) : Res Buffer :=
  refs ← snd (upload_refs uploadFile messages);
  Prepare.messagesPrepare convId messages refs.

End Orchestrator.

(** ** Inputs of the statements below *)

(** The provider's event payloads, in the shapes the two parsers test
    for. *)
Module Event.

Definition ErrorEvent (code message : JSON) : JSON :=
  JObj [("error", JObj [("code", code); ("message", message)])].

Definition SearchEvent (results : list (string * string)) : JSON :=
  JObj [("pipelineEvent",
         JObj [("eventSearch",
                JObj [("results",
                       JArr (map (fun r => JObj [("title", JStr (fst r));
                                                 ("url", JStr (snd r))])
                                 results))])])].

Definition TextEvent (text : string) : JSON :=
  JObj [("textEvent", JObj [("text", JStr text)])].

Definition DoneEvent : JSON := JObj [("doneEvent", JObj [])].

End Event.

(** One line per search result, [title(url)] and a newline. *)
Definition result_lines (results : list (string * string)) : string :=
  String.concat "" (map (fun r => fst r ++ "(" ++ snd r ++ ")" ++ LF) results).

(** The lines of the streaming transcoder's search chunk. *)
Definition searching_lines (results : list (string * string)) : string :=
  String.concat ""
    (map (fun r => "检索 " ++ fst r ++ "(" ++ snd r ++ ") ..." ++ LF) results).

(** Chat messages in the shape callers are documented to send: a role and
    either a plain string or a sequence of parts tagged [text], [file]
    ([{file_url: {url}}]) or [image_url] ([{image_url: {url}}]). *)
Module Chat.

Inductive Part : Type :=
| TextPart (text : string)
| FilePart (url : string)
| ImagePart (url : string).

Inductive Content : Type :=
| Plain (text : string)
| Parts (parts : list Part).

Record Turn : Type := mkTurn { role : option string; content : Content }.

Definition part_json (p : Part) : JSON :=
  match p with
  | TextPart text => JObj [("type", JStr "text"); ("text", JStr text)]
  | FilePart url => JObj [("type", JStr "file"); ("file_url", JObj [("url", JStr url)])]
  | ImagePart url =>
      JObj [("type", JStr "image_url"); ("image_url", JObj [("url", JStr url)])]
  end.

Definition content_json (c : Content) : JSON :=
  match c with
  | Plain text => JStr text
  | Parts parts => JArr (map part_json parts)
  end.

Definition turn_json (t : Turn) : JSON :=
  match role t with
  | Some r => JObj [("role", JStr r); ("content", content_json (content t))]
  | None => JObj [("content", content_json (content t))]
  end.

Definition is_attachment (p : Part) : bool :=
  match p with TextPart _ => false | _ => true end.

Definition carries_attachment (t : Turn) : bool :=
  match content t with
  | Plain _ => false
  | Parts parts => existsb is_attachment parts
  end.

(** The URLs of the file and image parts of a turn, in order. *)
Definition attachment_urls (t : Turn) : list string :=
  match content t with
  | Plain _ => []
  | Parts parts =>
      omap (fun p => match p with
                     | TextPart _ => None
                     | FilePart url | ImagePart url => Some url
                     end) parts
  end.

(** The spec's words for a serialised turn: ["<role>:<content>\n"], a
    missing role being [user]. *)
Definition spec_turn (role : option string) (content : string) : string :=
  default "user" role ++ ":" ++ content ++ LF.

(** What the code writes for a turn: a plain-string turn as
    ["<role>:<content>\n"], the role being [user] when missing or empty; a
    turn made of parts as one ["user:<text>\n"] per text part. *)
Definition role_label (role : option string) : string :=
  match role with
  | Some r => if String.eqb r "" then "user" else r
  | None => "user"
  end.

Definition turn_text (t : Turn) : string :=
  match content t with
  | Plain text => role_label (role t) ++ ":" ++ text ++ LF
  | Parts parts =>
      String.concat ""
        (map (fun p => match p with
                       | TextPart text => "user:" ++ text ++ LF
                       | _ => ""
                       end) parts)
  end.

Definition FILE_ATTENTION : string := "以上为历史消息，关注以下用户发送的文件和消息".
Definition MESSAGE_ATTENTION : string := "以上为历史消息，关注以下用户消息".

(** The merged text for the turns [prior ++ [final]]. *)
Definition merged_text (prior : list Turn) (final : Turn) : string :=
  String.concat "" (map turn_text prior)
  ++ "system:"
  ++ (if carries_attachment final then FILE_ATTENTION else MESSAGE_ATTENTION) ++ LF
  ++ turn_text final
  ++ "assistant:".

End Chat.

(** ** tokenSplit *)
Module Token.

(** [s.substring(n)] *)
Fixpoint skip (n : nat) (s : string) : string :=
  match n, s with
  | O, _ => s
  | S n', String _ rest => skip n' rest
  | S _, EmptyString => EmptyString
  end.

(** [s.replace(pattern, "")] with a string pattern: the first occurrence
    is removed, wherever it is. *)
Fixpoint remove_first (pattern : string) (s : string) : string :=
  if String.prefix pattern s then skip (String.length pattern) s
  else
    match s with
    | EmptyString => EmptyString
    | String c rest => String c (remove_first pattern rest)
    end.

(** [s.split(sep)] for a one-character separator: the empty string gives
    one empty piece. *)
Fixpoint split (sep : ascii) (s : string) : list string :=
  match s with
  | EmptyString => [EmptyString]
  | String c rest =>
      if Ascii.eqb c sep then EmptyString :: split sep rest
      else
        match split sep rest with
        | piece :: pieces => String c piece :: pieces
        | [] => [String c EmptyString]
        end
  end.

Definition tokenSplit (authorization : string) : list string :=
  split "," (remove_first "Bearer " authorization).

(** Whether a character occurs in a string. *)
Fixpoint occurs (c : ascii) (s : string) : bool :=
  match s with
  | EmptyString => false
  | String c' rest => Ascii.eqb c' c || occurs c rest
  end.

End Token.

(** Whether every character of a string satisfies a test. *)
Fixpoint every (test : ascii -> bool) (s : string) : bool :=
  match s with
  | EmptyString => true
  | String c rest => test c && every test rest
  end.

(** Characters that are not control characters (code 32 and above). *)
Definition printable (c : ascii) : bool := (32 <=? N_of_ascii c)%N.

(** ** Runs of the lease store *)
Module LeaseRun.
Import Lease.

(** What happens to the store: a caller asks for a token, or the
    RegisterDevice request for a key is answered. *)
Inductive Event : Type :=
| Acquire (c : nat) (k : string) (now : Z)
| Respond (k : string) (r : Res AxiosResponse) (now : Z).

Definition step (s : Store) (ev : Event) : Store :=
  match ev with
  | Acquire c k now => acquireToken c k now s
  | Respond k r now => respond k r now s
  end.

Definition run (events : list Event) : Store := foldl step Lease.empty events.

(** The number of RegisterDevice requests sent for a key, and the number
    of answers delivered for it. *)
Definition sent (k : string) (s : Store) : nat :=
  length (filter (fun k' => k' = k) (requests s)).

Definition is_answer (k : string) (ev : Event) : bool :=
  match ev with
  | Respond k' _ _ => String.eqb k' k
  | Acquire _ _ _ => false
  end.

Definition answers (k : string) (events : list Event) : nat :=
  length (filter (fun ev => is_answer k ev = true) events).

(** The key an event is about, and what the store holds for a key: its
    lease, its queue, its request in flight and the number of requests
    sent for it. *)
Definition key (ev : Event) : string :=
  match ev with
  | Acquire _ k _ => k
  | Respond k _ _ => k
  end.

Definition view (k : string) (s : Store)
  : option Entry * option (list Waiter) * option Waiter * nat :=
  (accessTokenMap s !! k, accessTokenRequestQueueMap s !! k, inflight s !! k,
   sent k s).

End LeaseRun.

(** ** A request from creation to removal of its conversation *)
Module Session.

(** [generateCookie(deviceId, accessToken)] *)
Definition generateCookie (deviceId : value) (accessToken : string) : string :=
  String.concat "; " ["Oasis-Token=" ++ accessToken; "Oasis-Webid=" ++ show deviceId].

(** The calls a request makes, in order: [acquireToken], the three
    provider endpoints with what they carry, and [uploadFile].  [cookie] is
    the Cookie header and [webid] the Oasis-Webid header as sent; [convId]
    is the conversation id of the request ([chatIds] of DelChat, the Referer
    of SendMessageStream, whose [chatId] is in [body]).  [UPLOAD] records
    that [uploadFile] was called; the requests it makes in turn are those
    of [Upload.uploadFile] and are not listed here. *)
Inductive Request : Type :=
| ACQUIRE (refreshToken : string)
| UPLOAD (fileUrl : string) (refreshToken : string)
| CreateChat (cookie : string) (webid : string) (chatName : string)
| DelChat (cookie : string) (webid : string) (convId : value)
| SendMessageStream (cookie : string) (webid : string) (convId : value)
    (body : Buffer).

(** What the upstream response stream emits. *)
Inductive Upstream : Type :=
| data_chunk (buffer : Buffer)
| stream_error (e : exn)
| stream_close.

(** The answers of the outside world.
    - [acquire] is an [acquireToken] call: its outcome and [accessTokenMap]
      after it, given the calls made before it, the refresh token and
      [accessTokenMap] at the call; its own steps are those of [Lease].
    - [uploading] is [Promise.all] over the [uploadFile] calls for the given
      URLs: how it settles, if it does (with the attachments in the order
      of the URLs, or with the rejection of the upload that fails first),
      and [accessTokenMap] at that moment, which the uploads may have
      changed through their own [acquireToken] and [checkResult] calls.
    - [post] answers CreateChat and DelChat, [stream] is the response stream
      of SendMessageStream.
    - [webid] is [FAKE_HEADERS["Oasis-Webid"]], a uuid drawn once when the
      module is loaded.  Every request spreads [FAKE_HEADERS] after its own
      ["Oasis-Webid": deviceId], so this is the value sent. *)
Record World : Type := mkWorld {
  acquire : list Request -> string -> gmap string Lease.Entry
            -> gmap string Lease.Entry * Res Lease.Acquired;
  uploading : list string -> string -> gmap string Lease.Entry
              -> gmap string Lease.Entry * Upload.Out (list JSON);
  post : Request -> Res AxiosResponse;
  stream : Request -> Res (list Upstream);
  parse : JSONParser;
  now : Z;
  webid : string
}.

(** The state threaded through a request: the calls made so far and
    [accessTokenMap]. *)
Record St : Type := mkSt { log : list Request; cache : gmap string Lease.Entry }.

Definition M (A : Type) : Type := St -> St * Upload.Out A.

#[global] Instance M_ret : MRet M := fun A a s => (s, Upload.Returned a).
#[global] Instance M_bind : MBind M := fun A B f m s =>
  match m s with
  | (s', Upload.Returned a) => f a s'
  | (s', Upload.Raised e) => (s', Upload.Raised e)
  | (s', Upload.Awaiting) => (s', Upload.Awaiting)
  end.

Definition request (r : Request) : M unit :=
  fun s => ({| log := (log s ++ [r])%list; cache := cache s |}, Upload.Returned tt).

Definition raise {A : Type} (e : exn) : M A := fun s => (s, Upload.Raised e).

Definition lift {A : Type} (r : Res A) : M A :=
  match r with
  | Ok a => mret a
  | Throw e => raise e
  end.

(** [await acquireToken(refreshToken)] *)
Definition acquireToken (w : World) (refreshToken : string) : M Lease.Acquired :=
  fun s =>
    let '(m, r) := acquire w (log s) refreshToken (cache s) in
    lift r {| log := (log s ++ [ACQUIRE refreshToken])%list; cache := m |}.

Definition checkResult (result : AxiosResponse) (refreshToken : string) : M value :=
  fun s =>
    let '(m, r) := Lease.checkResult result refreshToken (cache s) in
    lift r {| log := log s; cache := m |}.

Definition createConversation (w : World) (name : string) (refreshToken : string)
  : M value :=
  a ← acquireToken w refreshToken;
  let call := CreateChat (generateCookie (Lease.acq_deviceId a) (Lease.token a))
                         (webid w) name in
  request call;;
  result ← lift (post w call);
  body ← checkResult result refreshToken;
  lift (destructure body "checkResult(...)" "chatId").

Definition removeConversation (w : World) (convId : value) (refreshToken : string)
  : M unit :=
  a ← acquireToken w refreshToken;
  let call := DelChat (generateCookie (Lease.acq_deviceId a) (Lease.token a))
                      (webid w) convId in
  request call;;
  result ← lift (post w call);
  checkResult result refreshToken;;
  mret tt.

(** [removeConversation(...).catch((err) => console.error(err))], not
    awaited: its calls are made, its outcome is dropped. *)
Definition detached (m : M unit) : M unit :=
  fun s => ((m s).1, Upload.Returned tt).

(** [refFileUrls.length ? await Promise.all(refFileUrls.map((fileUrl) =>
    uploadFile(fileUrl, refreshToken))) : []]: with no URL nothing is
    called; otherwise [uploadFile] is called for every URL, and the
    function goes on when [Promise.all] settles. *)
Definition uploads (w : World) (refFileUrls : list string) (refreshToken : string)
  : M (list JSON) :=
  match refFileUrls with
  | [] => mret []
  | _ =>
      fun s =>
        let '(m, settled) := uploading w refFileUrls refreshToken (cache s) in
        ({| log := (log s ++ map (fun u => UPLOAD u refreshToken) refFileUrls)%list;
            cache := m |},
         settled)
  end.

(** [messagesPrepare(convId, messages, refs)] for a conversation id as it
    came from the provider: an [undefined] id is left out of the
    payload. *)
Definition messagesPrepare (convId : value) (messages : list JSON) (refs : list JSON)
  : Res Buffer :=
  merged ← Prepare.merge messages;
  mret (wrapData
          (stringify
             (JObj (JS.object
                [("chatId", convId);
                 ("messageInfo",
                  Some (JObj (JS.object
                    [("text", Some (JStr (fst merged)));
                     ("attachments",
                      if (0 <? length refs)%nat then Some (JArr refs)
                      else undefined)])))])))).

(** The async body shared by [createCompletion] and
    [createCompletionStream], up to the response of SendMessageStream:
    the uploads, the conversation, the token, the request.  It yields the
    conversation id and the events of the response stream. *)
Definition open_stream (w : World) (messages : list JSON) (refreshToken : string)
  : M (value * list Upstream) :=
  refFileUrls ← lift (Prepare.extractRefFileUrls messages);
  refs ← uploads w refFileUrls refreshToken;
  convId ← createConversation w "新会话" refreshToken;
  a ← acquireToken w refreshToken;
  body ← lift (messagesPrepare convId messages refs);
  let call := SendMessageStream
                (generateCookie (Lease.acq_deviceId a) (Lease.token a))
                (webid w) convId body in
  request call;;
  events ← lift (stream w call);
  mret (convId, events).

Definition buffered_event (ev : Upstream) : Buffered.StreamEvent :=
  match ev with
  | data_chunk buffer => Buffered.on_data buffer
  | stream_error e => Buffered.on_error e
  | stream_close => Buffered.on_close
  end.

Definition streaming_event (ev : Upstream) : Streaming.StreamEvent :=
  match ev with
  | data_chunk buffer => Streaming.on_data buffer
  | stream_error e => Streaming.on_error e
  | stream_close => Streaming.on_close
  end.

(** [await receiveStream(model, convId, result.data)]: the completion
    when the promise resolves, the error when it rejects, and no
    continuation when it never settles. *)
Definition receive (w : World) (model : string) (convId : value)
    (events : list Upstream) : M Buffered.Completion :=
  let r := Buffered.receiveStream (parse w) model convId (now w)
             (map buffered_event events) in
  match Buffered.promise r with
  | Buffered.Resolved => mret (Buffered.data (Buffered.vars r))
  | Buffered.Rejected e => raise e
  | Buffered.Pending => fun s => (s, Upload.Awaiting)
  end.

(** One attempt of [createCompletion]; with [MAX_RETRY_COUNT = 0] it is
    the only one, and its failure is thrown on. *)
Definition createCompletion (w : World) (model : string) (messages : list JSON)
    (refreshToken : string) : M Buffered.Completion :=
  '(convId, events) ← open_stream w messages refreshToken;
  answer ← receive w model convId events;
  detached (removeConversation w convId refreshToken);;
  mret answer.

(** [endCallback] called [n] times: [n] detached removals. *)
Fixpoint removals (w : World) (convId : value) (refreshToken : string) (n : nat)
  : M unit :=
  match n with
  | O => mret tt
  | S n' =>
      detached (removeConversation w convId refreshToken);;
      removals w convId refreshToken n'
  end.

(** One attempt of [createCompletionStream]: the transcoder as the
    response stream leaves it, and the removals its [endCallback] calls
    started. *)
Definition createCompletionStream (w : World) (model : string)
    (messages : list JSON) (refreshToken : string) : M Streaming.Transcoder :=
  '(convId, events) ← open_stream w messages refreshToken;
  let t := Streaming.createTransStream model convId (now w) (parse w)
             (map streaming_event events) in
  removals w convId refreshToken (Streaming.endCallbacks (Streaming.vars t));;
  mret t.

Definition is_removal (r : Request) : bool :=
  match r with DelChat _ _ _ => true | _ => false end.

Definition is_creation (r : Request) : bool :=
  match r with CreateChat _ _ _ => true | _ => false end.

End Session.

(** * Theorems *)

Close Scope string_scope.

(** ** Frames *)
Section FrameFacts.

Lemma to_N_byte_of_N n : Byte.to_N (Buf.byte_of_N n) = (n mod 256)%N.
Proof.
  unfold Buf.byte_of_N.
  destruct (Byte.of_N (n mod 256)) as [b|] eqn:E; simpl.
  - by apply Byte.to_of_N.
  - apply Byte.of_N_None_iff in E.
    pose proof (N.mod_upper_bound n 256). lia.
Qed.

Lemma base256_digits n :
  (n < 2 ^ 32)%N →
  ((n / 2 ^ 24) mod 256 * 2 ^ 24 + (n / 2 ^ 16) mod 256 * 2 ^ 16
   + (n / 2 ^ 8) mod 256 * 2 ^ 8 + n mod 256 = n)%N.
Proof.
  intros Hn.
  change (2 ^ 32)%N with 4294967296%N in Hn.
  change (2 ^ 24)%N with (256 * 256 * 256)%N.
  change (2 ^ 16)%N with (256 * 256)%N.
  change (2 ^ 8)%N with 256%N.
  rewrite <- !N.Div0.div_div.
  pose proof (N.Div0.div_mod n 256) as Ha.
  pose proof (N.mod_upper_bound n 256) as Ha'.
  set (a := (n / 256)%N) in *.
  pose proof (N.Div0.div_mod a 256) as Hb.
  pose proof (N.mod_upper_bound a 256) as Hb'.
  set (b := (a / 256)%N) in *.
  pose proof (N.Div0.div_mod b 256) as Hc.
  pose proof (N.mod_upper_bound b 256) as Hc'.
  set (c := (b / 256)%N) in *.
  rewrite (N.mod_small c 256).
  - generalize dependent (n mod 256)%N. generalize dependent (a mod 256)%N.
    generalize dependent (b mod 256)%N. clearbody c b a. intros. lia.
  - generalize dependent (n mod 256)%N. generalize dependent (a mod 256)%N.
    generalize dependent (b mod 256)%N. clearbody c b a. intros. lia.
Qed.

(** Reading back the header of a frame gives the payload length. *)
Lemma read_frame_header flag payload rest :
  (N.of_nat (length payload) < 2 ^ 32)%N →
  Buf.readUint32BE (Frame.frame flag payload ++ rest) 1
  = Ok (N.of_nat (length payload)).
Proof.
  intros Hn. unfold Buf.readUint32BE, Frame.frame, Frame.be32. simpl.
  rewrite !to_N_byte_of_N. f_equal. by apply base256_digits.
Qed.

Lemma length_frame flag payload :
  length (Frame.frame flag payload) = (5 + length payload)%nat.
Proof. reflexivity. Qed.

Lemma subarray_from (b : Buffer) (n : nat) :
  Buf.subarray b (N.of_nat n) None = drop n b.
Proof.
  unfold Buf.subarray. simpl. rewrite N.min_id.
  destruct (decide (n ≤ length b)).
  - rewrite N.min_l by lia. rewrite Nat2N.id.
    rewrite take_ge; [done|]. rewrite length_drop. lia.
  - rewrite N.min_r by lia. rewrite Nat2N.id.
    rewrite !drop_ge by lia. by destruct (N.to_nat _).
Qed.

Lemma subarray_upto (b : Buffer) (n : nat) :
  Buf.subarray b 0 (Some (N.of_nat n)) = take n b.
Proof.
  unfold Buf.subarray. simpl. rewrite N.min_0_l, N.sub_0_r. simpl.
  destruct (decide (n ≤ length b)).
  - rewrite N.min_l by lia. by rewrite Nat2N.id.
  - rewrite N.min_r by lia. rewrite Nat2N.id.
    rewrite firstn_all. rewrite take_ge; [done|lia].
Qed.

(** The listener, started empty on a buffer that begins with a whole
    frame, hands the payload to the parser and keeps the rest in [temp]. *)
Lemma on_data_whole_frame {S : Type} (parser : Buffer → S → Res S)
    flag payload rest (s : S) :
  (N.of_nat (length payload) < 2 ^ 32)%N →
  Frame.on_data parser Frame.init s (Frame.frame flag payload ++ rest)
  = match parser payload s with
    | Ok s' => ({| Frame.chunk := []; Frame.temp := rest |}, s', None)
    | Throw e =>
        ({| Frame.chunk := Frame.frame flag payload; Frame.temp := rest |}, s, Some e)
    end.
Proof.
  intros Hn. unfold Frame.on_data, Frame.init; simpl Frame.temp; simpl Frame.chunk.
  rewrite !app_nil_l.
  replace (length (Frame.frame flag payload ++ rest) <? 5)%nat with false
    by (symmetry; apply Nat.ltb_ge; rewrite length_app, length_frame; lia).
  rewrite read_frame_header by done.
  replace (N.of_nat (length payload) + 5)%N
    with (N.of_nat (length (Frame.frame flag payload)))
    by (rewrite length_frame; lia).
  rewrite subarray_from, subarray_upto.
  rewrite take_app_length, drop_app_length.
  rewrite N.ltb_irrefl.
  change 5%N with (N.of_nat 5). rewrite subarray_from.
  change (drop 5 (Frame.frame flag payload)) with payload.
  reflexivity.
Qed.

End FrameFacts.

Section Decoding.

Lemma feed_at_most_one_per_chunk chunks d seen :
  length (Frame.feed d seen chunks).2 ≤ length seen + length chunks.
Proof.
  revert d seen. induction chunks as [|buffer rest IH]; intros d seen; simpl.
  - lia.
  - destruct (Frame.on_data Frame.record_payload d seen buffer) as [[d' seen'] thrown] eqn:E.
    assert (length seen' ≤ S (length seen)) as Hs.
    { unfold Frame.on_data, Frame.record_payload in E.
      repeat case_match; simplify_eq; rewrite ?length_app; simpl; lia. }
    specialize (IH d' seen'). lia.
Qed.

(** The listener emits at most one payload per ['data'] event, however
    many frames the event carries. *)
Lemma decode_at_most_one_per_chunk chunks :
  length (Frame.decode chunks) ≤ length chunks.
Proof. apply (feed_at_most_one_per_chunk chunks Frame.init []). Qed.

(** Frames that arrive one per ['data'] event are all decoded, in
    order. *)
Lemma decode_frame_per_chunk flag payloads seen :
  Forall (λ p, (N.of_nat (length p) < 2 ^ 32)%N) payloads →
  (Frame.feed Frame.init seen (map (Frame.frame flag) payloads)).2
  = seen ++ payloads.
Proof.
  intros Hall. revert seen.
  induction Hall as [|p rest Hp _ IH]; intros seen; cbn [map Frame.feed].
  - by rewrite app_nil_r.
  - rewrite <- (app_nil_r (Frame.frame flag p)).
    rewrite on_data_whole_frame by done. cbn [Frame.record_payload].
    rewrite IH. by rewrite <- app_assoc.
Qed.

(** C1 (defect in the code).  Two well-formed frames that arrive packed in
    one chunk are not both decoded: the listener handles one frame per
    ['data'] event and leaves the second frame in [temp], so feeding the
    bytes whole yields only the first payload, while feeding them split at
    the frame boundary yields both. *)
Theorem C1_packed_frames_lose_payloads (flag : byte) (p q : Buffer) :
  (N.of_nat (length p) < 2 ^ 32)%N →
  (N.of_nat (length q) < 2 ^ 32)%N →
  Frame.decode [Frame.serialize [(flag, p); (flag, q)]] = [p]
  ∧ Frame.decode [Frame.frame flag p; Frame.frame flag q] = [p; q].
Proof.
  intros Hp Hq. split.
  - unfold Frame.decode.
    change (Frame.serialize [(flag, p); (flag, q)])
      with (Frame.frame flag p ++ (Frame.frame flag q ++ [])).
    cbn [Frame.feed]. rewrite on_data_whole_frame by done. reflexivity.
  - unfold Frame.decode.
    apply (decode_frame_per_chunk flag [p; q] []). by repeat constructor.
Qed.

Lemma C1_packed_frames_lose_payloads_witness :
  (N.of_nat (length (Buf.from "a")) < 2 ^ 32)%N
  ∧ (N.of_nat (length (Buf.from "b")) < 2 ^ 32)%N
  ∧ Frame.decode [Frame.serialize [(x00, Buf.from "a"); (x00, Buf.from "b")]]
    = [Buf.from "a"]
  ∧ Frame.decode [Frame.frame x00 (Buf.from "a"); Frame.frame x00 (Buf.from "b")]
    = [Buf.from "a"; Buf.from "b"].
Proof.
  split; [vm_compute; reflexivity|]. split; [vm_compute; reflexivity|].
  apply (C1_packed_frames_lose_payloads x00 (Buf.from "a") (Buf.from "b"));
    vm_compute; reflexivity.
Defined.

(** What the client sees of it: two text events packed in one chunk give
    an answer that lacks the second text. *)
Example receiveStream_drops_packed_text :
  let parse : JSONParser := λ payload,
    Some (Event.TextEvent (String.string_of_list_byte payload)) in
  let hi := Frame.frame x00 (Buf.from "Hi") in
  let there := Frame.frame x00 (Buf.from " there") in
  Buffered.answer
    (Buffered.vars
       (Buffered.receiveStream parse "step" "conv" 0
          [Buffered.on_data (hi ++ there); Buffered.on_close]))
  = ["Hi"%string]
  ∧ Buffered.answer
      (Buffered.vars
         (Buffered.receiveStream parse "step" "conv" 0
            [Buffered.on_data hi; Buffered.on_data there; Buffered.on_close]))
    = ["Hi there"%string].
Proof. split; reflexivity. Qed.

(** A header split after a leftover byte is corrupted as well: [temp] is
    not emptied when the listener returns early, and is prepended a second
    time at the next event. *)
Example decode_duplicates_leftover :
  Frame.decode [Frame.frame x00 (Buf.from "a") ++ [x00]; [x00];
                [x00; x00; x01] ++ Buf.from "b"]
  = [Buf.from "a"; []].
Proof. reflexivity. Qed.

End Decoding.

(** ** The lease store *)
Section LeaseFacts.
Import Lease.

(** A first call for a key with nothing cached and nothing in flight
    opens the queue and sends one request. *)
Lemma acquireToken_leads c k now s :
  accessTokenMap s !! k = None →
  accessTokenRequestQueueMap s !! k = None →
  acquireToken c k now s
  = {| accessTokenMap := accessTokenMap s;
       accessTokenRequestQueueMap := <[k := []]> (accessTokenRequestQueueMap s);
       inflight := <[k := {| caller := c; stage := AwaitMissing |}]> (inflight s);
       requests := requests s ++ [k];
       settled := settled s |}.
Proof. intros Hm Hq. unfold acquireToken, requestToken. by rewrite Hm, Hq. Qed.

(** A later call, while the request is in flight, only joins the queue. *)
Lemma acquireToken_follows c k now s queue :
  accessTokenMap s !! k = None →
  accessTokenRequestQueueMap s !! k = Some queue →
  acquireToken c k now s
  = {| accessTokenMap := accessTokenMap s;
       accessTokenRequestQueueMap :=
         <[k := queue ++ [{| caller := c; stage := AwaitMissing |}]]>
           (accessTokenRequestQueueMap s);
       inflight := inflight s;
       requests := requests s;
       settled := settled s |}.
Proof. intros Hm Hq. unfold acquireToken, requestToken. by rewrite Hm, Hq. Qed.

Lemma acquire_all_cons c cs k now s :
  acquire_all (c :: cs) k now s = acquire_all cs k now (acquireToken c k now s).
Proof. reflexivity. Qed.

Lemma acquire_all_follow cs k now s queue :
  accessTokenMap s !! k = None →
  accessTokenRequestQueueMap s !! k = Some queue →
  acquire_all cs k now s
  = {| accessTokenMap := accessTokenMap s;
       accessTokenRequestQueueMap :=
         <[k := queue ++ waiters cs]> (accessTokenRequestQueueMap s);
       inflight := inflight s;
       requests := requests s;
       settled := settled s |}.
Proof.
  revert s queue. induction cs as [|c cs IH]; intros s queue Hm Hq.
  - simpl. rewrite app_nil_r, insert_id by done. by destruct s.
  - rewrite acquire_all_cons.
    rewrite (acquireToken_follows c k now s queue) by done.
    rewrite (IH _ (queue ++ [{| caller := c; stage := AwaitMissing |}])); simpl.
    + by rewrite insert_insert_eq, <- app_assoc.
    + done.
    + by rewrite lookup_insert_eq.
Qed.

(** Single flight: however many callers ask for a key with nothing cached
    and nothing in flight, one RegisterDevice request is sent; the first
    caller awaits it and the others are queued, in order. *)
Lemma acquire_all_single_flight c cs k now s :
  accessTokenMap s !! k = None →
  accessTokenRequestQueueMap s !! k = None →
  acquire_all (c :: cs) k now s
  = {| accessTokenMap := accessTokenMap s;
       accessTokenRequestQueueMap :=
         <[k := waiters cs]> (accessTokenRequestQueueMap s);
       inflight := <[k := {| caller := c; stage := AwaitMissing |}]> (inflight s);
       requests := requests s ++ [k];
       settled := settled s |}.
Proof.
  intros Hm Hq. rewrite acquire_all_cons.
  rewrite acquireToken_leads by done.
  rewrite (acquire_all_follow cs k now _ []); simpl.
  - by rewrite insert_insert_eq.
  - done.
  - by rewrite lookup_insert_eq.
Qed.

End LeaseFacts.

Section LeaseResponses.
Import Lease.

Lemma lookup_settle_all (v : Res Acquired) (ws : list Waiter) (m : gmap nat (Res Acquired)) c :
  foldl (λ acc w, <[caller w := v]> acc) m ws !! c
  = if decide (c ∈ map caller ws) then Some v else m !! c.
Proof.
  revert m. induction ws as [|w ws IH]; intros m; simpl.
  - done.
  - rewrite IH. destruct (decide (c = caller w)) as [->|Hne].
    + rewrite lookup_insert_eq.
      rewrite (decide_True (P := caller w ∈ caller w :: map caller ws))
        by apply list_elem_of_here.
      by destruct (decide _).
    + rewrite lookup_insert_ne by done.
      destruct (decide (c ∈ map caller ws)).
      * by rewrite decide_True by (by apply list_elem_of_further).
      * rewrite decide_False; [done|]. by intros [?|?]%elem_of_cons.
Qed.

(** Waking the queued callers with a value that has not expired: each of
    them stores the value under the key and returns what [acquireToken]
    makes of it. *)
Lemma resume_queue k now entry ws s :
  expired now entry = false →
  foldl (λ acc w, resume w k now (Ok entry) acc) s ws
  = {| accessTokenMap :=
         match ws with [] => accessTokenMap s | _ => <[k := entry]> (accessTokenMap s) end;
       accessTokenRequestQueueMap := accessTokenRequestQueueMap s;
       inflight := inflight s;
       requests := requests s;
       settled := foldl (λ acc w, <[caller w := Ok (acquired entry)]> acc) (settled s) ws |}.
Proof.
  intros Hfresh. revert s. induction ws as [|w ws IH]; intros s.
  - by destruct s.
  - cbn [foldl]. rewrite IH.
    unfold resume, acquireToken_check. rewrite Hfresh.
    destruct (stage w); destruct ws; simpl; by rewrite ?insert_insert_eq.
Qed.

Lemma exchange_fresh r k now m m' t :
  exchange r k now m = (m', Ok t) → expired now (TokenEntry t) = false.
Proof.
  unfold exchange. destruct r as [result|e]; [|naive_solver].
  destruct (checkResult result k m) as [m1 [body|e]]; simpl; [|naive_solver].
  unfold makeToken. intros H.
  repeat match type of H with
         | context [get ?v ?f] => destruct (get v f); simpl in H; [|naive_solver]
         end.
  injection H as _ <-. cbn [expired refreshTime]. apply Z.ltb_ge.
  unfold ACCESS_TOKEN_EXPIRES. lia.
Qed.

(** Single flight, the successful case: when the one request in flight
    succeeds, the first caller and every queued caller return the same
    lease, and that lease is cached. *)
Lemma single_flight_success c cs k now0 now r s m t c' :
  accessTokenMap s !! k = None →
  accessTokenRequestQueueMap s !! k = None →
  exchange r k now (accessTokenMap s) = (m, Ok t) →
  c' ∈ c :: cs →
  let s' := respond k r now (acquire_all (c :: cs) k now0 s) in
  requests s' = requests s ++ [k]
  ∧ settled s' !! c' = Some (Ok (acquired (TokenEntry t)))
  ∧ accessTokenMap s' !! k = Some (TokenEntry t)
  ∧ accessTokenRequestQueueMap s' !! k = None.
Proof.
  intros Hm Hq Hex Hin. rewrite acquire_all_single_flight by done.
  pose proof (exchange_fresh _ _ _ _ _ _ Hex) as Hfresh.
  unfold respond. cbn [inflight accessTokenMap accessTokenRequestQueueMap requests settled].
  rewrite !lookup_insert_eq, Hex. cbn [default queued_value leader_value].
  rewrite resume_queue by done.
  unfold resume, acquireToken_check. cbn [stage caller]. rewrite Hfresh.
  cbn. split; [done|]. split; [|split].
  - destruct (decide (c' = c)) as [->|Hne].
    + by rewrite lookup_insert_eq.
    + rewrite lookup_insert_ne by done. rewrite lookup_settle_all.
      rewrite decide_True; [done|]. unfold waiters. rewrite <- list_fmap_compose.
      simpl. rewrite list_fmap_id. by apply elem_of_cons in Hin as [?|?].
  - by rewrite lookup_insert_eq.
  - by rewrite lookup_delete_eq.
Qed.

(** The failing case, for any number of callers: the first caller throws
    the error, every queued caller returns a lease made of the error
    object. *)
Lemma single_flight_failure c cs k now0 now r s m e c' :
  accessTokenMap s !! k = None →
  accessTokenRequestQueueMap s !! k = None →
  exchange r k now (accessTokenMap s) = (m, Throw e) →
  c' ∈ cs → c' ≠ c →
  let s' := respond k r now (acquire_all (c :: cs) k now0 s) in
  requests s' = requests s ++ [k]
  ∧ settled s' !! c = Some (Throw e)
  ∧ settled s' !! c' = Some (Ok (acquired (ErrorEntry e)))
  ∧ accessTokenMap s' !! k = Some (ErrorEntry e).
Proof.
  intros Hm Hq Hex Hin Hne. rewrite acquire_all_single_flight by done.
  unfold respond. cbn [inflight accessTokenMap accessTokenRequestQueueMap requests settled].
  rewrite !lookup_insert_eq, Hex. cbn [default queued_value leader_value].
  rewrite resume_queue by done.
  unfold resume. cbn. split; [done|]. split; [|split].
  - by rewrite lookup_insert_eq.
  - rewrite lookup_insert_ne by done. rewrite lookup_settle_all.
    rewrite decide_True; [done|]. unfold waiters. rewrite <- list_fmap_compose.
    simpl. by rewrite list_fmap_id.
  - destruct cs as [|c0 cs]; [by apply elem_of_nil in Hin|].
    cbn. by rewrite lookup_insert_eq.
Qed.

(** C2 (defect in the code).  Two callers ask for the same key while
    nothing is cached and the one request that is sent fails with [e].  One
    request is sent, and the first caller's [acquireToken] throws [e]; but
    the queued caller's promise is resolved with [e] as a value, which
    [acquireToken] stores in [accessTokenMap] and turns into a lease with
    an undefined device id and the token [undefined...undefined]. *)
Theorem C2_queued_caller_takes_error_for_lease (k : string) (e : exn) (now : Z) :
  let s := respond k (Throw e) now (acquire_all [0; 1] k now Lease.empty) in
  requests s = [k]
  ∧ settled s !! 0 = Some (Throw e)
  ∧ settled s !! 1
    = Some (Ok {| acq_deviceId := undefined; token := "undefined...undefined" |})
  ∧ accessTokenMap s !! k = Some (ErrorEntry e).
Proof.
  rewrite acquire_all_single_flight by done.
  unfold respond. cbn [inflight accessTokenMap accessTokenRequestQueueMap requests settled Lease.empty].
  rewrite !lookup_insert_eq. cbn.
  split; [done|]. split; [|split].
  - by rewrite lookup_insert_eq.
  - rewrite lookup_insert_ne by done. by rewrite lookup_insert_eq.
  - by rewrite lookup_insert_eq.
Qed.

End LeaseResponses.

Section Eviction.
Import Lease.

(** Where [checkResult] is the last to touch [accessTokenMap], as in
    [createConversation], [removeConversation] and [uploadFile]: a response
    body whose [code] is ["unauthenticated"] makes it delete the key's
    entry and throw; the next [acquireToken] for the key finds no entry and
    does not return from the cache: with no refresh in flight it sends a
    RegisterDevice request of its own, otherwise it waits in the queue of
    the exchange in flight. *)
Lemma unauthenticated_evicts_lease (result : AxiosResponse) (k : string)
    (m : gmap string Entry) (s : Store) (c : nat) (now : Z) :
  get (data result) "code" = Ok (Some (JStr "unauthenticated")) →
  accessTokenMap s = (checkResult result k m).1 →
  (∃ message, (checkResult result k m).2
              = Throw (APIException API_REQUEST_FAILED message))
  ∧ accessTokenMap s !! k = None
  ∧ settled (acquireToken c k now s) = settled s
  ∧ match accessTokenRequestQueueMap s !! k with
    | None =>
        requests (acquireToken c k now s) = requests s ++ [k]
        ∧ inflight (acquireToken c k now s) !! k
          = Some {| caller := c; stage := AwaitMissing |}
    | Some queue =>
        requests (acquireToken c k now s) = requests s
        ∧ accessTokenRequestQueueMap (acquireToken c k now s) !! k
          = Some (queue ++ [{| caller := c; stage := AwaitMissing |}])
    end.
Proof.
  intros Hcode Hs.
  assert (checkResult result k m
          = (delete k m,
             Throw (APIException API_REQUEST_FAILED
                      ("[请求step失败]: " ++ show (field (data result) "message"))%string)))
    as Hcheck.
  { unfold checkResult. destruct (data result) as [[| | | | |fields]|]; try done.
    simpl in *. by injection Hcode as ->. }
  rewrite Hcheck in *. simpl in Hs.
  assert (accessTokenMap s !! k = None) as Hmiss
    by (rewrite Hs; apply lookup_delete_eq).
  split; [by eexists|]. split; [done|].
  unfold acquireToken, requestToken. rewrite Hmiss.
  destruct (accessTokenRequestQueueMap s !! k) as [queue|]; simpl.
  - by rewrite lookup_insert_eq.
  - by rewrite lookup_insert_eq.
Qed.

(** C3 (defect in the code).  [checkResult] does evict: a body with the
    code ["unauthenticated"] makes it delete the key's entry and throw.
    But when that body is the answer to RegisterDevice itself and a second
    caller is queued behind the first, the eviction is undone at once: the
    [catch] handler of [requestToken] resolves the queued caller with the
    exception as a value, and that caller's [acquireToken] stores it in
    [accessTokenMap].  The next acquisition for the key, at any time,
    performs no exchange: it returns the lease made of the stored
    exception, with an undefined device id and the token
    [undefined...undefined]. *)
Theorem C3_unauthenticated_exchange_leaves_error_cached (k message : string)
    (now0 now now' : Z) (c : nat) :
  let result :=
    body_response (Some (JObj [("code"%string, JStr "unauthenticated");
                               ("message"%string, JStr message)])) in
  let e := APIException API_REQUEST_FAILED ("[请求step失败]: " ++ message)%string in
  (∀ m, checkResult result k m = (delete k m, Throw e))
  ∧ let s := respond k (Ok result) now (acquire_all [0; 1] k now0 Lease.empty) in
    requests s = [k]
    ∧ settled s !! 0 = Some (Throw e)
    ∧ accessTokenMap s !! k = Some (ErrorEntry e)
    ∧ let s' := acquireToken c k now' s in
      requests s' = [k]
      ∧ settled s' !! c
        = Some (Ok {| acq_deviceId := undefined; token := "undefined...undefined" |}).
Proof.
  intros result e. split; [done|].
  destruct (single_flight_failure 0 [1] k now0 now (Ok result) Lease.empty
              (delete k ∅) e 1 eq_refl eq_refl eq_refl)
    as (Hreq & Hleader & _ & Hmap); [apply list_elem_of_here|done|].
  cbn zeta in *. split; [exact Hreq|]. split; [exact Hleader|]. split; [exact Hmap|].
  unfold acquireToken, acquireToken_check. rewrite Hmap. cbn [expired].
  unfold settle. cbn [requests settled]. split; [exact Hreq|].
  by rewrite lookup_insert_eq.
Qed.

End Eviction.

(** ** Strings *)
Section StringFacts.
Local Open Scope string_scope.

Lemma append_nil_r (s : string) : s ++ "" = s.
Proof. induction s as [|c s IH]; [done|]. change (String c (s ++ "") = String c s). by rewrite IH. Qed.

Lemma append_assoc (s1 s2 s3 : string) : (s1 ++ s2) ++ s3 = s1 ++ (s2 ++ s3).
Proof.
  induction s1 as [|c s1 IH]; [done|].
  change (String c ((s1 ++ s2) ++ s3) = String c (s1 ++ (s2 ++ s3))). by rewrite IH.
Qed.

Lemma concat_empty_cons (s : string) (l : list string) :
  String.concat "" (s :: l) = s ++ String.concat "" l.
Proof. destruct l; simpl; by rewrite ?append_nil_r. Qed.

Lemma concat_empty_app (l1 l2 : list string) :
  String.concat "" (l1 ++ l2)%list = String.concat "" l1 ++ String.concat "" l2.
Proof.
  induction l1 as [|s l1 IH]; [done|].
  rewrite <- app_comm_cons, !concat_empty_cons, IH. by rewrite append_assoc.
Qed.

End StringFacts.

(** ** The transcoders *)
Section Transcoding.
Import Event.
Local Open Scope string_scope.

Lemma reduce_results_search (line : value → value → string)
    (results : list (string * string)) :
  reduce_results line
    (Some (JArr (map (λ r, JObj [("title", JStr r.1); ("url", JStr r.2)]) results)))
  = Ok (String.concat ""
          (map (λ r, line (Some (JStr r.1)) (Some (JStr r.2))) results)).
Proof.
  unfold reduce_results.
  enough (∀ acc,
    foldl (λ (acc : Res string) (v : JSON),
             str ← acc; title ← get (Some v) "title"; url ← get (Some v) "url";
             mret (str ++ line title url))
          (Ok acc)
          (map (λ r, JObj [("title", JStr r.1); ("url", JStr r.2)]) results)
    = Ok (acc ++ String.concat ""
                   (map (λ r, line (Some (JStr r.1)) (Some (JStr r.2))) results)))
    as H by apply (H "").
  induction results as [|r results IH]; intros acc.
  - simpl. by rewrite append_nil_r.
  - cbn [map foldl]. rewrite concat_empty_cons, <- append_assoc.
    rewrite <- IH. reflexivity.
Qed.

Lemma buffered_search_event results v :
  Buffered.parser_json (Some (SearchEvent results)) v
  = Ok {| Buffered.data := Buffered.data v;
          Buffered.refContent := result_lines results |}.
Proof.
  unfold Buffered.parser_json, SearchEvent. cbn -[reduce_results].
  rewrite reduce_results_search. reflexivity.
Qed.

Lemma buffered_done_event v :
  Buffered.parser_json (Some DoneEvent) v
  = Ok {| Buffered.data :=
            Buffered.append_content
              (if String.eqb (Buffered.refContent v) "" then ""
               else LF ++ LF ++ "搜索结果来自：" ++ LF
                    ++ trim_final_newline (Buffered.refContent v))
              (Buffered.data v);
          Buffered.refContent := Buffered.refContent v |}.
Proof.
  unfold Buffered.parser_json, DoneEvent. cbn.
  by destruct (String.eqb (Buffered.refContent v) "").
Qed.

Lemma streaming_search_event model convId created results v :
  Streaming.parser_json model convId created (Some (SearchEvent results)) v
  = Ok {| Streaming.out :=
            Streaming.write
              (Streaming.search_chunk model convId created (searching_lines results))
              (Streaming.out v);
          Streaming.endCallbacks := Streaming.endCallbacks v |}.
Proof.
  unfold Streaming.parser_json, SearchEvent.
  cbn -[reduce_results Streaming.search_chunk Streaming.write].
  rewrite reduce_results_search. reflexivity.
Qed.

(** C4, as stated, fails for a second SearchEvent: the side buffer does
    not accumulate over the events, each SearchEvent assigns it anew, so
    the results of the first event are not in the answer. *)
Lemma C4_counterexample :
  ∃ v, Buffered.transcode "step" "conv" 0
         [SearchEvent [("A", "http://a")]; SearchEvent [("B", "http://b")];
          TextEvent "ans"; DoneEvent] = Ok v
       ∧ Buffered.answer v
         = ["ans" ++ LF ++ LF ++ "搜索结果来自：" ++ LF ++ "B(http://b)"]
       ∧ Buffered.answer v
         ≠ ["ans" ++ LF ++ LF ++ "搜索结果来自：" ++ LF
            ++ "A(http://a)" ++ LF ++ "B(http://b)"].
Proof.
  eexists. split; [reflexivity|]. split; [reflexivity|].
  intros H. vm_compute in H. discriminate H.
Qed.

(** C4, amended.  In the buffered transcoder a SearchEvent only fills the
    side buffer [refContent], with one [title(url)] line per result of that
    event, replacing what an earlier SearchEvent left there, and leaves the
    answer alone; a DoneEvent appends the buffer, its final newline
    removed, under the results-from heading.  In the streaming transcoder a
    SearchEvent writes at once one chunk whose delta content is one
    [检索 title(url) ...] line per result of that event and a newline.  For
    the events SearchEvent [A, http://a], TextEvent ans, DoneEvent the
    buffered answer is [ans], a blank line, the heading and [A(http://a)],
    and what the streaming transcoder writes is the opening chunk, the
    chunk with the search line, the chunk with [ans], the closing chunk and
    the sentinel. *)
Theorem C4_search_results_held_until_done :
  (∀ results v,
     Buffered.parser_json (Some (SearchEvent results)) v
     = Ok {| Buffered.data := Buffered.data v;
             Buffered.refContent := result_lines results |})
  ∧ (∀ v,
      Buffered.parser_json (Some DoneEvent) v
      = Ok {| Buffered.data :=
                Buffered.append_content
                  (if String.eqb (Buffered.refContent v) "" then ""
                   else LF ++ LF ++ "搜索结果来自：" ++ LF
                        ++ trim_final_newline (Buffered.refContent v))
                  (Buffered.data v);
              Buffered.refContent := Buffered.refContent v |})
  ∧ (∀ model convId now,
      ∃ v, Buffered.transcode model convId now
             [SearchEvent [("A", "http://a")]; TextEvent "ans"; DoneEvent] = Ok v
           ∧ Buffered.answer v
             = ["ans" ++ LF ++ LF ++ "搜索结果来自：" ++ LF ++ "A(http://a)"])
  ∧ (∀ (model convId : string) (created : Z) results v,
      Streaming.closed (Streaming.out v) = false →
      Streaming.ended (Streaming.out v) = false →
      let chunk :=
        "data: "
        ++ stringify
             (JObj [("id", JStr convId); ("model", JStr model);
                    ("object", JStr "chat.completion.chunk");
                    ("choices",
                     JArr [JObj [("index", JNum 0);
                                 ("delta",
                                  JObj [("content",
                                         JStr (searching_lines results ++ LF))]);
                                 ("finish_reason", JNull)]]);
                    ("created", JNum created)])
        ++ LF ++ LF in
      ∃ v', Streaming.parser_json model convId created (Some (SearchEvent results)) v
            = Ok v'
            ∧ Streaming.written (Streaming.out v')
              = (Streaming.written (Streaming.out v) ++ [chunk])%list)
  ∧ (∀ (model convId : string) (created : Z),
      let chunk (delta finish_reason : JSON) (usage : list (string * JSON)) :=
        "data: "
        ++ stringify
             (JObj ([("id", JStr convId); ("model", JStr model);
                     ("object", JStr "chat.completion.chunk");
                     ("choices",
                      JArr [JObj [("index", JNum 0); ("delta", delta);
                                  ("finish_reason", finish_reason)]])]
                    ++ usage ++ [("created", JNum created)])%list)
        ++ LF ++ LF in
      ∃ v, Streaming.transcode model convId created
             [SearchEvent [("A", "http://a")]; TextEvent "ans"; DoneEvent] = Ok v
           ∧ Streaming.written (Streaming.out v)
             = [chunk (JObj [("role", JStr "assistant"); ("content", JStr "")]) JNull [];
                chunk (JObj [("content", JStr ("检索 A(http://a) ..." ++ LF ++ LF))])
                      JNull [];
                chunk (JObj [("content", JStr "ans")]) JNull [];
                chunk (JObj []) (JStr "stop")
                      [("usage", JObj [("prompt_tokens", JNum 1);
                                       ("completion_tokens", JNum 1);
                                       ("total_tokens", JNum 2)])];
                ("data: [DONE]" ++ LF ++ LF)%string]%list).
Proof.
  split; [exact buffered_search_event|]. split; [exact buffered_done_event|].
  split; [|split].
  - intros model convId now. eexists. split; reflexivity.
  - intros model convId created results v Hclosed Hended chunk. eexists.
    split; [apply streaming_search_event|].
    cbn [Streaming.out]. unfold Streaming.write. rewrite Hclosed, Hended.
    reflexivity.
  - intros model convId created chunk. eexists. split; reflexivity.
Qed.

(** A second SearchEvent replaces the side buffer: only the results of
    the last one reach the answer. *)
Lemma buffered_search_event_replaces results1 results2 v v1 :
  Buffered.parser_json (Some (SearchEvent results1)) v = Ok v1 →
  Buffered.parser_json (Some (SearchEvent results2)) v1
  = Ok {| Buffered.data := Buffered.data v;
          Buffered.refContent := result_lines results2 |}.
Proof.
  rewrite buffered_search_event. intros [= <-]. by rewrite buffered_search_event.
Qed.

End Transcoding.

Section Receiving.
Import Buffered.
Local Open Scope string_scope.

(** The parser changes nothing of [data] but the content of the first
    choice. *)
Lemma parser_json_data (result : value) (v v' : Vars) :
  parser_json result v = Ok v' →
  data v' = data v ∨ ∃ text, data v' = append_content text (data v).
Proof.
  unfold parser_json, mbind, Res_bind, mret, Res_ret. intros H.
  repeat case_match; simplify_eq; eauto.
Qed.

Lemma on_data_parsed {S : Type} (parser : Buffer → S → Res S) d s buffer d' s' thrown :
  Frame.on_data parser d s buffer = (d', s', thrown) →
  s' = s ∨ ∃ payload, parser payload s = Ok s'.
Proof.
  unfold Frame.on_data. intros H. repeat case_match; simplify_eq; eauto.
Qed.

(** What [receiveStream] keeps fixed: everything but the answer text. *)
Lemma receiveStream_data parse model convId now events :
  ∃ text,
    data (vars (receiveStream parse model convId now events))
    = {| id := convId; model := model; object := "chat.completion";
         choices := [ {| index := 0;
                         message := {| role := "assistant"; content := text |};
                         finish_reason := "stop" |} ];
         usage := {| prompt_tokens := 1; completion_tokens := 1; total_tokens := 2 |};
         created := now |}.
Proof.
  unfold receiveStream.
  enough (∀ r,
    (∃ text, data (vars r)
             = {| id := convId; model := model; object := "chat.completion";
                  choices := [ {| index := 0;
                                  message := {| role := "assistant"; content := text |};
                                  finish_reason := "stop" |} ];
                  usage := {| prompt_tokens := 1; completion_tokens := 1;
                              total_tokens := 2 |};
                  created := now |}) →
    ∃ text, data (vars (foldl (step parse) r events))
            = {| id := convId; model := model; object := "chat.completion";
                 choices := [ {| index := 0;
                                 message := {| role := "assistant"; content := text |};
                                 finish_reason := "stop" |} ];
                 usage := {| prompt_tokens := 1; completion_tokens := 1;
                             total_tokens := 2 |};
                 created := now |}) as H
    by (apply H; by exists "").
  induction events as [|ev events IH]; intros r Hr; [done|].
  cbn [foldl]. apply IH. destruct Hr as [text Hr].
  destruct ev as [buffer|e|]; cbn [step]; [|by exists text..].
  destruct (Frame.on_data (parser parse) (decoder r) (vars r) buffer)
    as [[d v] thrown] eqn:E. cbn [vars].
  apply on_data_parsed in E as [->|[payload E]]; [by exists text|].
  unfold parser in E. destruct (parse payload) as [result|]; [|done].
  apply parser_json_data in E as [->|[text' ->]]; [by exists text|].
  rewrite Hr. by eexists.
Qed.

(** C9.  Whatever the stream emitted, the completion object that
    [receiveStream] resolves with has object [chat.completion], exactly one
    choice, of index 0, with an assistant message and finish reason
    [stop], and the usage numbers 1, 1 and 2; only the message content
    depends on the events. *)
Theorem C9_completion_shape_is_fixed (parse : JSONParser) (model convId : string)
    (now : Z) (events : list StreamEvent) (d : Completion) :
  resolved (receiveStream parse model convId now events) = Some d →
  object d = "chat.completion"
  ∧ (∃ text, choices d = [ {| index := 0;
                              message := {| role := "assistant"; content := text |};
                              finish_reason := "stop" |} ])
  ∧ usage d = {| prompt_tokens := 1; completion_tokens := 1; total_tokens := 2 |}
  ∧ id d = convId ∧ Buffered.model d = model ∧ created d = now.
Proof.
  unfold resolved. destruct (promise _); [done| |done]. intros [= <-].
  destruct (receiveStream_data parse model convId now events) as [text ->].
  cbn. eauto 10.
Qed.

Lemma C9_completion_shape_is_fixed_witness :
  let parse : JSONParser := λ _, Some (Event.TextEvent "Hi") in
  let events := [on_data (Frame.frame x00 (Buf.from "x")); on_close] in
  ∃ d, resolved (receiveStream parse "step" "conv" 0 events) = Some d
       ∧ object d = "chat.completion"
       ∧ choices d = [ {| index := 0;
                          message := {| role := "assistant"; content := "Hi" |};
                          finish_reason := "stop" |} ]
       ∧ usage d = {| prompt_tokens := 1; completion_tokens := 1; total_tokens := 2 |}.
Proof.
  intros parse events. eexists. split; [reflexivity|].
  pose proof (C9_completion_shape_is_fixed parse "step" "conv" 0 events _ eq_refl)
    as (Hobject & _ & Husage & _).
  split; [exact Hobject|]. split; [reflexivity|exact Husage].
Defined.

(** The promise resolves at the first [close] that no [error] preceded. *)
Lemma receiveStream_resolves parse model convId now chunks events :
  promise (receiveStream parse model convId now
             (map on_data chunks ++ on_close :: events)) = Resolved.
Proof.
  unfold receiveStream. rewrite foldl_app. cbn [foldl].
  assert (promise (foldl (step parse) (start model convId now) (map on_data chunks))
          = Pending) as Hpending.
  { generalize (start model convId now) (eq_refl : promise (start model convId now) = Pending).
    induction chunks as [|b chunks IH]; intros r Hr; [done|].
    cbn [map foldl]. apply IH. cbn [step].
    by destruct (Frame.on_data _ _ _ _) as [[??]?]. }
  assert (∀ r, promise r = Resolved → promise (foldl (step parse) r events) = Resolved)
    as Hstays.
  { induction events as [|ev events IH]; intros r Hr; [done|].
    cbn [foldl]. apply IH. destruct ev; cbn [step promise]; try by rewrite Hr.
    by destruct (Frame.on_data _ _ _ _) as [[??]?]. }
  apply Hstays. cbn [step promise]. by rewrite Hpending.
Qed.

End Receiving.

Section DecodeErrors.
Local Open Scope string_scope.

Lemma createCompletion_never_retries {A : Type} (attempt : nat → Res A) (retryCount : nat) :
  Orchestrator.createCompletion attempt retryCount = attempt retryCount.
Proof.
  unfold Orchestrator.createCompletion, Orchestrator.MAX_RETRY_COUNT.
  rewrite Nat.sub_0_l. cbn [Orchestrator.retrying].
  destruct (attempt retryCount); [done|]. by destruct (retryCount <? 0)%nat.
Qed.

(** One call of the listener when the bytes it holds and the new bytes
    start with a whole frame. *)
Lemma on_data_frame_ahead {S : Type} (parser : Buffer → S → Res S) (d : Frame.Decoder)
    (s : S) (buffer : Buffer) flag payload rest :
  (N.of_nat (length payload) < 2 ^ 32)%N →
  (Frame.temp d ++ Frame.chunk d ++ buffer = Frame.frame flag payload ++ rest)%list →
  Frame.on_data parser d s buffer
  = match parser payload s with
    | Ok s' => ({| Frame.chunk := []; Frame.temp := rest |}, s', None)
    | Throw e =>
        ({| Frame.chunk := Frame.frame flag payload; Frame.temp := rest |}, s, Some e)
    end.
Proof.
  intros Hn Hbytes. rewrite <- (on_data_whole_frame parser flag payload rest s Hn).
  unfold Frame.on_data, Frame.init. cbn [Frame.chunk Frame.temp].
  rewrite !app_nil_l, Hbytes.
  replace (length (Frame.frame flag payload ++ rest) <? 5)%nat with false
    by (symmetry; apply Nat.ltb_ge; rewrite length_app, length_frame; lia).
  by rewrite read_frame_header.
Qed.

(** A frame the parser throws on, followed by two more frames, each in a
    ['data'] event of its own: the frame stays in [chunk], so the second
    event hands it to the parser again; at the third event the bytes kept
    in [temp] come first, and the second frame is parsed while the third
    waits behind the first. *)
Lemma on_data_after_throw {S : Type} (parser : Buffer → S → Res S) (s s1 : S) (e : exn)
    flag bad p1 p2 :
  (N.of_nat (length bad) < 2 ^ 32)%N →
  (N.of_nat (length p1) < 2 ^ 32)%N →
  parser bad s = Throw e →
  parser p1 s = Ok s1 →
  let held := {| Frame.chunk := Frame.frame flag bad; Frame.temp := [] |} in
  let held' := {| Frame.chunk := Frame.frame flag bad; Frame.temp := Frame.frame flag p1 |} in
  Frame.on_data parser Frame.init s (Frame.frame flag bad) = (held, s, Some e)
  ∧ Frame.on_data parser held s (Frame.frame flag p1) = (held', s, Some e)
  ∧ Frame.on_data parser held' s (Frame.frame flag p2)
    = ({| Frame.chunk := [];
          Frame.temp := (Frame.frame flag bad ++ Frame.frame flag p2)%list |}, s1, None).
Proof.
  intros Hbad Hp1 Hthrow Hok held held'. repeat split.
  - rewrite (on_data_frame_ahead parser _ s _ flag bad []), Hthrow; [done|done|].
    by rewrite app_nil_r.
  - by rewrite (on_data_frame_ahead parser _ s _ flag bad (Frame.frame flag p1)), Hthrow.
  - by rewrite (on_data_frame_ahead parser _ s _ flag p1
                  (Frame.frame flag bad ++ Frame.frame flag p2)), Hok.
Qed.

(** [receiveStream] rejects only from the ['error'] listener of the
    stream: a parser that throws does not reject the promise. *)
Lemma receiveStream_rejects_on_error_only (parse : JSONParser) (model : string)
    (convId : value) (now : Z) (events : list Buffered.StreamEvent) (e : exn) :
  Buffered.promise (Buffered.receiveStream parse model convId now events)
  = Buffered.Rejected e →
  Buffered.on_error e ∈ events.
Proof.
  unfold Buffered.receiveStream.
  assert (∀ r,
    Buffered.promise (foldl (Buffered.step parse) r events) = Buffered.Rejected e →
    Buffered.promise r = Buffered.Rejected e ∨ Buffered.on_error e ∈ events) as H.
  { induction events as [|ev events IH]; intros r Hr; [by left|].
    cbn [foldl] in Hr. apply IH in Hr as [Hr|Hr].
    - destruct ev as [buffer|e'|]; cbn [Buffered.step] in Hr.
      + destruct (Frame.on_data _ _ _ _) as [[??]?]. by left.
      + cbn in Hr. destruct (Buffered.promise r); [|done|by left].
        injection Hr as ->. right. apply elem_of_cons. by left.
      + cbn in Hr. destruct (Buffered.promise r); [done|done|by left].
    - right. apply elem_of_cons. by right. }
  intros Hr. by destruct (H _ Hr).
Qed.

(** The three ['data'] events in [receiveStream]. *)
Lemma receiveStream_after_throw (parse : JSONParser) (flag : byte) (bad p1 p2 : Buffer)
    (text : string) (r : Buffered.Receiver) :
  parse bad = None →
  parse p1 = Some (Event.TextEvent text) →
  text ≠ "" →
  (N.of_nat (length bad) < 2 ^ 32)%N →
  (N.of_nat (length p1) < 2 ^ 32)%N →
  Buffered.decoder r = Frame.init →
  foldl (Buffered.step parse) r
        (map Buffered.on_data
             [Frame.frame flag bad; Frame.frame flag p1; Frame.frame flag p2])
  = {| Buffered.decoder :=
         {| Frame.chunk := [];
            Frame.temp := (Frame.frame flag bad ++ Frame.frame flag p2)%list |};
       Buffered.vars :=
         {| Buffered.data := Buffered.append_content text (Buffered.data (Buffered.vars r));
            Buffered.refContent := Buffered.refContent (Buffered.vars r) |};
       Buffered.promise := Buffered.promise r;
       Buffered.uncaught :=
         (Buffered.uncaught r ++ [InvalidResponse bad; InvalidResponse bad])%list |}.
Proof.
  intros Hbad Hp1 Htext Hnbad Hnp1 Hd.
  assert (String.eqb text "" = false) as Hne by (by apply String.eqb_neq).
  destruct r as [d v p u]. cbn [Buffered.decoder] in Hd. subst d.
  destruct (on_data_after_throw (Buffered.parser parse) v
              {| Buffered.data := Buffered.append_content text (Buffered.data v);
                 Buffered.refContent := Buffered.refContent v |}
              (InvalidResponse bad) flag bad p1 p2 Hnbad Hnp1)
    as (H1 & H2 & H3).
  { unfold Buffered.parser. by rewrite Hbad. }
  { unfold Buffered.parser. rewrite Hp1.
    unfold Buffered.parser_json, Event.TextEvent. cbn. by rewrite Hne. }
  cbn [map foldl Buffered.step Buffered.decoder Buffered.vars Buffered.promise
       Buffered.uncaught].
  rewrite H1. cbn [Buffered.decoder Buffered.vars Buffered.promise Buffered.uncaught].
  rewrite H2. cbn [Buffered.decoder Buffered.vars Buffered.promise Buffered.uncaught].
  rewrite H3. cbn [option_list]. by rewrite app_nil_r, <- app_assoc.
Qed.

(** The three ['data'] events in [createTransStream]. *)
Lemma createTransStream_after_throw (model : string) (convId : value) (created : Z)
    (parse : JSONParser) (flag : byte) (bad p1 p2 : Buffer) (text : string)
    (t : Streaming.Transcoder) :
  parse bad = None →
  parse p1 = Some (Event.TextEvent text) →
  text ≠ "" →
  (N.of_nat (length bad) < 2 ^ 32)%N →
  (N.of_nat (length p1) < 2 ^ 32)%N →
  Streaming.decoder t = Frame.init →
  foldl (Streaming.step model convId created parse) t
        (map Streaming.on_data
             [Frame.frame flag bad; Frame.frame flag p1; Frame.frame flag p2])
  = {| Streaming.decoder :=
         {| Frame.chunk := [];
            Frame.temp := (Frame.frame flag bad ++ Frame.frame flag p2)%list |};
       Streaming.vars :=
         {| Streaming.out :=
              Streaming.write (Streaming.text_chunk model convId created (JStr text))
                              (Streaming.out (Streaming.vars t));
            Streaming.endCallbacks := Streaming.endCallbacks (Streaming.vars t) |};
       Streaming.error_listener := Streaming.error_listener t;
       Streaming.close_listener := Streaming.close_listener t;
       Streaming.uncaught :=
         (Streaming.uncaught t ++ [InvalidResponse bad; InvalidResponse bad])%list |}.
Proof.
  intros Hbad Hp1 Htext Hnbad Hnp1 Hd.
  assert (String.eqb text "" = false) as Hne by (by apply String.eqb_neq).
  destruct t as [d v el cl u]. cbn [Streaming.decoder] in Hd. subst d.
  destruct (on_data_after_throw (Streaming.parser model convId created parse) v
              {| Streaming.out :=
                   Streaming.write (Streaming.text_chunk model convId created (JStr text))
                                   (Streaming.out v);
                 Streaming.endCallbacks := Streaming.endCallbacks v |}
              (InvalidResponse bad) flag bad p1 p2 Hnbad Hnp1)
    as (H1 & H2 & H3).
  { unfold Streaming.parser. by rewrite Hbad. }
  { unfold Streaming.parser. rewrite Hp1.
    unfold Streaming.parser_json, Event.TextEvent.
    cbn -[Streaming.write Streaming.text_chunk]. by rewrite Hne. }
  cbn [map foldl Streaming.step Streaming.decoder Streaming.vars
       Streaming.error_listener Streaming.close_listener Streaming.uncaught].
  rewrite H1. cbn [Streaming.decoder Streaming.vars Streaming.error_listener
                   Streaming.close_listener Streaming.uncaught].
  rewrite H2. cbn [Streaming.decoder Streaming.vars Streaming.error_listener
                   Streaming.close_listener Streaming.uncaught].
  rewrite H3. cbn [option_list]. by rewrite app_nil_r, <- app_assoc.
Qed.

(** C7 (defect in the code).  A frame whose payload does not parse as
    JSON makes the parser throw, but the throw is made inside the ['data']
    listener, where nothing catches it and nothing rejects the promise or
    ends the output: the decode error is not fatal for the stream and
    never reaches the orchestrator.  For a frame that does not parse
    followed by two frames, the first of them a text event, and ['close'],
    each in an event of its own: the malformed frame stays in [chunk] and is
    parsed, and thrown on, a second time at the next event; the frame after
    it is then parsed and its text taken; the last frame waits behind the
    malformed one and is never parsed.  [receiveStream] resolves with the
    text gathered, and the streaming transcoder writes the text's chunk and
    ends with the sentinel.  In general [receiveStream] rejects only with
    the error of an ['error'] event of the stream, so [createCompletion]
    has no decode error to rethrow or to retry. *)
Theorem C7_invalid_payload_is_not_fatal (parse : JSONParser) (flag : byte)
    (bad p1 p2 : Buffer) (text : string) (model convId : string) (now : Z) :
  parse bad = None →
  parse p1 = Some (Event.TextEvent text) →
  text ≠ "" →
  (N.of_nat (length bad) < 2 ^ 32)%N →
  (N.of_nat (length p1) < 2 ^ 32)%N →
  let frames := [Frame.frame flag bad; Frame.frame flag p1; Frame.frame flag p2] in
  let waiting :=
    {| Frame.chunk := [];
       Frame.temp := (Frame.frame flag bad ++ Frame.frame flag p2)%list |} in
  let r := Buffered.receiveStream parse model convId now
             (map Buffered.on_data frames ++ [Buffered.on_close])%list in
  let t := Streaming.createTransStream model convId now parse
             (map Streaming.on_data frames ++ [Streaming.on_close])%list in
  (Buffered.promise r = Buffered.Resolved
   ∧ Buffered.answer (Buffered.vars r) = [text]
   ∧ Buffered.uncaught r = [InvalidResponse bad; InvalidResponse bad]%list
   ∧ Buffered.decoder r = waiting)
  ∧ (Streaming.out (Streaming.vars t)
     = {| Streaming.written :=
            [Streaming.opening_chunk model convId now;
             Streaming.text_chunk model convId now (JStr text);
             Streaming.DONE]%list;
          Streaming.ended := true; Streaming.closed := false;
          Streaming.write_after_end := false |}
     ∧ Streaming.uncaught t = [InvalidResponse bad; InvalidResponse bad]%list
     ∧ Streaming.decoder t = waiting)
  ∧ (∀ events e,
       Buffered.promise (Buffered.receiveStream parse model convId now events)
       = Buffered.Rejected e →
       Buffered.on_error e ∈ events).
Proof.
  intros Hbad Hp1 Htext Hnbad Hnp1 frames waiting r t.
  split; [|split].
  - subst r frames. unfold Buffered.receiveStream. rewrite foldl_app.
    rewrite (receiveStream_after_throw parse flag bad p1 p2 text) by done.
    repeat split.
  - subst t frames. unfold Streaming.createTransStream. rewrite foldl_app.
    rewrite (createTransStream_after_throw model convId now parse flag bad p1 p2 text)
      by done.
    repeat split.
  - intros events e. apply receiveStream_rejects_on_error_only.
Qed.

Lemma C7_invalid_payload_is_not_fatal_witness :
  let parse : JSONParser :=
    λ buffer, if (length buffer =? 1)%nat then Some (Event.TextEvent "Hi") else None in
  let frames := [Frame.frame x00 (Buf.from "<html>"); Frame.frame x00 (Buf.from "1");
                 Frame.frame x00 (Buf.from "2")] in
  let r := Buffered.receiveStream parse "step" "conv" 0
             (map Buffered.on_data frames ++ [Buffered.on_close])%list in
  Buffered.promise r = Buffered.Resolved
  ∧ Buffered.answer (Buffered.vars r) = ["Hi"]
  ∧ Buffered.uncaught r
    = [InvalidResponse (Buf.from "<html>"); InvalidResponse (Buf.from "<html>")]%list.
Proof.
  intros parse frames r.
  destruct (C7_invalid_payload_is_not_fatal parse x00 (Buf.from "<html>") (Buf.from "1")
              (Buf.from "2") "Hi" "step" "conv" 0)
    as ((Hpromise & Hanswer & Huncaught & _) & _); [reflexivity|reflexivity|discriminate|reflexivity|reflexivity|].
  exact (conj Hpromise (conj Hanswer Huncaught)).
Defined.

End DecodeErrors.

Section StreamFailures.
Import Streaming.
Local Open Scope string_scope.




End StreamFailures.

(** ** Message preparation *)
Section Preparing.
Import Chat.
Local Open Scope string_scope.

Lemma get_content_turn (t : Turn) :
  get (Some (turn_json t)) "content" = Ok (Some (content_json (content t))).
Proof. unfold turn_json. by destruct (role t). Qed.

Lemma keep_part_json (p : Part) : Prepare.keep_part (part_json p) = Ok true.
Proof. by destruct p. Qed.

Lemma filterM_keep_parts (parts : list Part) :
  filterM Prepare.keep_part (map part_json parts) = Ok (map part_json parts).
Proof.
  induction parts as [|p parts IH]; [done|].
  cbn [map filterM]. rewrite keep_part_json, IH. reflexivity.
Qed.

(** The stripping pass leaves a message of the documented shape alone:
    none of its parts has a top-level [url]. *)
Lemma strip_turn (t : Turn) : Prepare.strip (turn_json t) = Ok (turn_json t).
Proof.
  unfold Prepare.strip. rewrite get_content_turn.
  destruct t as [r [text|parts]]; cbn [content content_json].
  - by destruct r.
  - destruct r; cbn -[filterM]; rewrite filterM_keep_parts; reflexivity.
Qed.

Lemma mapM_strip_turns (ts : list Turn) :
  mapM Prepare.strip (map turn_json ts) = Ok (map turn_json ts).
Proof.
  induction ts as [|t ts IH]; [done|].
  cbn [map mapM]. rewrite strip_turn, IH. reflexivity.
Qed.

Lemma someM_is_file_part (parts : list Part) :
  someM Prepare.is_file_part (map part_json parts) = Ok (existsb is_attachment parts).
Proof.
  induction parts as [|p parts IH]; [done|].
  cbn [map someM existsb]. destruct p; cbn; by rewrite ?IH.
Qed.

Lemma splice_before_last_snoc (l : list JSON) (x m : JSON) :
  Prepare.splice_before_last (l ++ [x]) m = (l ++ [m; x])%list.
Proof.
  unfold Prepare.splice_before_last. rewrite length_app. cbn [length].
  replace (length l + 1 - 1)%nat with (length l) by lia.
  by rewrite take_app_length, drop_app_length.
Qed.

Lemma foldl_add_part (parts : list Part) (acc : string) :
  foldl Prepare.add_part (Ok acc) (map part_json parts)
  = Ok (acc ++ String.concat ""
                 (map (λ p, match p with
                            | TextPart text => "user:" ++ text ++ LF
                            | _ => ""
                            end) parts)).
Proof.
  revert acc. induction parts as [|p parts IH]; intros acc.
  - cbn. by rewrite append_nil_r.
  - cbn [map foldl]. rewrite concat_empty_cons, <- append_assoc.
    rewrite <- IH. f_equal. destruct p; cbn; by rewrite ?append_nil_r.
Qed.

Lemma add_message_turn (t : Turn) (acc : string) :
  Prepare.add_message (Ok acc) (turn_json t) = Ok (acc ++ turn_text t).
Proof.
  unfold Prepare.add_message. cbn [mbind Res_bind]. rewrite get_content_turn.
  destruct t as [r [text|parts]]; cbn [content content_json turn_text].
  - destruct r as [r|]; cbn; [|done]. unfold role_label.
    by destruct (String.eqb r "").
  - cbn [mbind Res_bind]. apply foldl_add_part.
Qed.

Lemma foldl_add_message (ts : list Turn) (acc : string) :
  foldl Prepare.add_message (Ok acc) (map turn_json ts)
  = Ok (acc ++ String.concat "" (map turn_text ts)).
Proof.
  revert acc. induction ts as [|t ts IH]; intros acc.
  - cbn. by rewrite append_nil_r.
  - cbn [map foldl]. rewrite add_message_turn, IH, concat_empty_cons.
    by rewrite append_assoc.
Qed.

Lemma add_message_injected (acc : string) (file : bool) :
  Prepare.add_message (Ok acc)
    (if file then Prepare.newFileMessage else Prepare.newTextMessage)
  = Ok (acc ++ "system:"
            ++ (if file then FILE_ATTENTION else MESSAGE_ATTENTION) ++ LF).
Proof. by destruct file. Qed.

(** The merged text for messages of the documented shape. *)
Lemma merge_turns (prior : list Turn) (final : Turn) :
  Prepare.merge (map turn_json (prior ++ [final]))
  = Ok (merged_text prior final,
        if carries_attachment final
        then Prepare.newFileMessage else Prepare.newTextMessage).
Proof.
  unfold Prepare.merge. rewrite mapM_strip_turns. cbn [mbind Res_bind].
  rewrite map_app. cbn [map]. rewrite last_snoc, get_content_turn.
  cbn [mbind Res_bind].
  assert (match content_json (content final) with
          | JArr parts => someM Prepare.is_file_part parts
          | _ => Ok false
          end = Ok (carries_attachment final)) as Hsome.
  { unfold carries_attachment. destruct (content final); [done|].
    apply someM_is_file_part. }
  replace (match Some (content_json (content final)) with
           | Some (JArr parts) => someM Prepare.is_file_part parts
           | _ => Ok false
           end) with (Ok (carries_attachment final)).
  cbn [mbind Res_bind]. rewrite splice_before_last_snoc.
  rewrite foldl_app, foldl_add_message. cbn [foldl].
  rewrite add_message_injected, add_message_turn.
  unfold merged_text. cbn [mbind Res_bind]. rewrite !append_assoc. reflexivity.
Qed.

End Preparing.

Section Framing.
Import Chat.
Local Open Scope string_scope.

Lemma wrapData_frame (json : string) : wrapData json = Frame.frame x00 (Buf.from json).
Proof.
  unfold wrapData, Frame.frame, Frame.be32, Buf.alloc, Buf.set, Buf.setUint8, Buf.setUint32.
  replace (length (Buf.from json) + 5)%nat
    with (S (S (S (S (S (length (Buf.from json))))))) by lia.
  cbn [replicate].
  assert (list_inserts 5 (Buf.from json)
            (x00 :: x00 :: x00 :: x00 :: x00 :: replicate (length (Buf.from json)) x00)
          = (x00 :: x00 :: x00 :: x00 :: x00 :: Buf.from json)%list) as ->.
  { change (list_inserts 5 (Buf.from json)
              (x00 :: x00 :: x00 :: x00 :: x00 :: replicate (length (Buf.from json)) x00))
      with (list_inserts (length [x00; x00; x00; x00; x00] + 0) (Buf.from json)
              ([x00; x00; x00; x00; x00] ++ replicate (length (Buf.from json)) x00)).
    rewrite list_inserts_app_r.
    rewrite <- (app_nil_r (replicate _ _)).
    rewrite list_inserts_0_r by (by rewrite length_replicate).
    by rewrite app_nil_r. }
  reflexivity.
Qed.

End Framing.

Section PreparedFrame.
Import Chat.
Local Open Scope string_scope.

(** C5, as stated, fails for a turn whose content is a sequence of parts:
    its text parts are written with the prefix [user:] whatever the turn's
    role, so an assistant turn made of parts is not serialised as
    [assistant:<content>]. *)
Lemma C5_counterexample :
  let turns := [ {| role := Some "assistant"; content := Parts [TextPart "hi"] |};
                 {| role := Some "user"; content := Plain "q" |} ] in
  let actual := "user:hi" ++ LF ++ "system:" ++ MESSAGE_ATTENTION ++ LF
                ++ "user:q" ++ LF ++ "assistant:" in
  let claimed := spec_turn (Some "assistant") "hi"
                 ++ spec_turn (Some "system") MESSAGE_ATTENTION
                 ++ spec_turn (Some "user") "q" ++ "assistant:" in
  Prepare.merge (map turn_json turns) = Ok (actual, Prepare.newTextMessage)
  ∧ actual ≠ claimed
  ∧ String.prefix "assistant:" actual = false.
Proof.
  split; [reflexivity|]. split; [|reflexivity].
  intros H. cbv in H. discriminate H.
Qed.

(** C5, amended.  For messages of the documented shape, [messagesPrepare]
    returns one frame: byte 0 is 0x00, bytes 1 to 4 hold the big-endian
    byte length of the JSON payload (for a payload shorter than 2^32
    bytes), and the payload follows.  The payload is the object with
    [chatId] and [messageInfo], the latter holding [text] and, when there
    are attachments, [attachments].  The text is [merged_text]: every turn
    before the last one in order, a plain-string turn as
    [<role>:<content>] and a newline (role [user] when missing or empty),
    a turn of parts as [user:<text>] and a newline per text part; then
    exactly one system instruction, the file variant when the last turn
    carries a file or image part and the message variant otherwise; then
    the last turn; then [assistant:]. *)
Theorem C5_message_preparation (convId : string) (prior : list Turn) (final : Turn)
    (refs : list JSON) :
  let text := merged_text prior final in
  let json := Prepare.payload convId text refs in
  (N.of_nat (length (Buf.from json)) < 2 ^ 32)%N →
  ∃ data,
    Prepare.messagesPrepare convId (map turn_json (prior ++ [final])) refs = Ok data
    ∧ data !! 0%nat = Some x00
    ∧ Buf.readUint32BE data 1 = Ok (N.of_nat (length (Buf.from json)))
    ∧ drop 5 data = Buf.from json
    ∧ json = stringify
               (JObj [("chatId", JStr convId);
                      ("messageInfo",
                       JObj (("text", JStr text)
                             :: match refs with
                                | [] => []
                                | _ => [("attachments", JArr refs)]
                                end))]).
Proof.
  intros text json Hlen. exists (Frame.frame x00 (Buf.from json)).
  split; [|split; [|split; [|split]]].
  - unfold Prepare.messagesPrepare. rewrite merge_turns. cbn [mbind Res_bind fst].
    by rewrite wrapData_frame.
  - reflexivity.
  - rewrite <- (app_nil_r (Frame.frame _ _)). by apply read_frame_header.
  - reflexivity.
  - unfold json, Prepare.payload. by destruct refs.
Qed.

Lemma C5_message_preparation_witness :
  let prior := [ {| role := Some "user"; content := Plain "hello" |};
                 {| role := Some "assistant"; content := Plain "hi" |} ] in
  let final := {| role := None;
                  content := Parts [TextPart "what is this";
                                    ImagePart "https://example.com/a.png"] |} in
  let json := Prepare.payload "c1" (merged_text prior final) [] in
  (N.of_nat (length (Buf.from json)) < 2 ^ 32)%N
  ∧ merged_text prior final
    = "user:hello" ++ LF ++ "assistant:hi" ++ LF
      ++ "system:" ++ FILE_ATTENTION ++ LF
      ++ "user:what is this" ++ LF ++ "assistant:"
  ∧ ∃ data,
      Prepare.messagesPrepare "c1" (map turn_json (prior ++ [final])) [] = Ok data
      ∧ data !! 0%nat = Some x00
      ∧ drop 5 data = Buf.from json.
Proof.
  intros prior final json.
  assert (N.of_nat (length (Buf.from json)) < 2 ^ 32)%N as Hlen
    by (vm_compute; reflexivity).
  split; [exact Hlen|]. split; [reflexivity|].
  destruct (C5_message_preparation "c1" prior final [] Hlen)
    as (data & Hdata & Hflag & _ & Hpayload & _).
  exists data. split; [exact Hdata|]. split; [exact Hflag|exact Hpayload].
Defined.

(** The stripping pass tests the part's own [url] property, which a part
    of the documented shape does not have: an inline-encoded image is not
    removed from the message, and the file variant of the system
    instruction is chosen for it. *)
Example inline_image_is_not_stripped :
  let image := ImagePart "data:image/png;base64,AAAA" in
  Prepare.strip (turn_json {| role := Some "user"; content := Parts [image] |})
  = Ok (turn_json {| role := Some "user"; content := Parts [image] |}).
Proof. reflexivity. Qed.

End PreparedFrame.

Section Attachments.
Import Chat.
Local Open Scope string_scope.

Lemma omap_ref_url_parts (parts : list Part) :
  omap Prepare.ref_url (map part_json parts)
  = omap (λ p, match p with
               | TextPart _ => None
               | FilePart url | ImagePart url => Some url
               end) parts.
Proof.
  induction parts as [|p parts IH]; [done|].
  destruct p; cbn; first [exact IH | f_equal; exact IH].
Qed.

Lemma extractRefFileUrls_turns (prior : list Turn) (final : Turn) :
  Prepare.extractRefFileUrls (map turn_json (prior ++ [final]))
  = Ok (attachment_urls final).
Proof.
  unfold Prepare.extractRefFileUrls.
  rewrite map_app. cbn [map]. rewrite last_snoc, get_content_turn.
  cbn [mbind Res_bind]. unfold attachment_urls.
  destruct (content final) as [text|parts]; [done|].
  cbn [content_json]. by rewrite omap_ref_url_parts.
Qed.

(** The request body for messages of the documented shape: the
    attachments are the uploads of the last turn's URLs. *)
Lemma request_body_turns (uploadFile : string → Res JSON) (convId : string)
    (prior : list Turn) (final : Turn) :
  Orchestrator.request_body uploadFile convId (map turn_json (prior ++ [final]))
  = refs ← mapM uploadFile (attachment_urls final);
    Ok (wrapData (Prepare.payload convId (merged_text prior final) refs)).
Proof.
  unfold Orchestrator.request_body, Orchestrator.upload_refs.
  rewrite extractRefFileUrls_turns. cbn [snd].
  destruct (mapM uploadFile (attachment_urls final)) as [refs|e]; [|done].
  cbn [mbind Res_bind]. unfold Prepare.messagesPrepare.
  by rewrite merge_turns.
Qed.

(** C10.  The URLs handed to [uploadFile] are computed from the last
    message alone: earlier messages do not change them, each of them is
    the URL of a file or image part of the last message's content, and for
    messages of the documented shape they are exactly the file and image
    URLs of the last turn, in order; the attachments of the request body
    are the uploads of those URLs. *)
Theorem C10_only_last_message_is_uploaded :
  (∀ (prior : list JSON) (lastMessage : JSON),
     Prepare.extractRefFileUrls (prior ++ [lastMessage]) = Prepare.extractRefFileUrls [lastMessage])
  ∧ (∀ (uploadFile : string → Res JSON) (prior : list JSON) (lastMessage : JSON),
       (Orchestrator.upload_refs uploadFile (prior ++ [lastMessage])).1
       = (Orchestrator.upload_refs uploadFile [lastMessage]).1)
  ∧ (∀ (uploadFile : string → Res JSON) (prior : list JSON) (lastMessage : JSON) (url : string),
       url ∈ (Orchestrator.upload_refs uploadFile (prior ++ [lastMessage])).1 →
       ∃ parts part,
         field (Some lastMessage) "content" = Some (JArr parts)
         ∧ part ∈ parts
         ∧ includes_str Prepare.FILE_TYPES (field (Some part) "type") = true
         ∧ Prepare.ref_url part = Some url)
  ∧ (∀ (prior : list Turn) (final : Turn),
       Prepare.extractRefFileUrls (map turn_json (prior ++ [final]))
       = Ok (attachment_urls final))
  ∧ (∀ (uploadFile : string → Res JSON) (convId : string)
       (prior : list Turn) (final : Turn),
       Orchestrator.request_body uploadFile convId (map turn_json (prior ++ [final]))
       = refs ← mapM uploadFile (attachment_urls final);
         Ok (wrapData (Prepare.payload convId (merged_text prior final) refs))).
Proof.
  assert (∀ (prior : list JSON) (lastMessage : JSON),
            Prepare.extractRefFileUrls (prior ++ [lastMessage])
            = Prepare.extractRefFileUrls [lastMessage]) as Hlast.
  { intros prior lastMessage. unfold Prepare.extractRefFileUrls.
    by rewrite last_snoc. }
  split; [exact Hlast|]. split; [|split; [|split]].
  - intros uploadFile prior lastMessage. unfold Orchestrator.upload_refs.
    by rewrite Hlast.
  - intros uploadFile prior lastMessage url. unfold Orchestrator.upload_refs.
    rewrite Hlast. unfold Prepare.extractRefFileUrls. cbn [last mbind Res_bind].
    destruct lastMessage as [| | | | |fields]; cbn; try (by intros ?%elem_of_nil).
    destruct (lookup_field fields "content") as [[| | | |parts|]|];
      cbn; try (by intros ?%elem_of_nil).
    intros (part & Hpart & Hurl)%list_elem_of_omap.
    exists parts, part. repeat split; [done| |done].
    change (includes_str Prepare.FILE_TYPES (field (Some part) "type") = true).
    unfold Prepare.ref_url in Hurl.
    destruct (includes_str Prepare.FILE_TYPES (field (Some part) "type")); [done|].
    rewrite orb_true_r in Hurl. discriminate Hurl.
  - exact extractRefFileUrls_turns.
  - exact request_body_turns.
Qed.

Lemma C10_only_last_message_is_uploaded_witness :
  let prior := [ {| role := Some "user";
                    content := Parts [FilePart "https://example.com/old.pdf"] |};
                 {| role := Some "assistant"; content := Plain "done" |} ] in
  let final := {| role := Some "user";
                  content := Parts [TextPart "and this one";
                                    ImagePart "https://example.com/new.png"] |} in
  "https://example.com/new.png"
    ∈ (Orchestrator.upload_refs (λ _, Ok JNull) (map turn_json (prior ++ [final]))).1
  ∧ Prepare.extractRefFileUrls (map turn_json (prior ++ [final]))
    = Ok ["https://example.com/new.png"]
  ∧ ∃ parts part,
      field (Some (turn_json final)) "content" = Some (JArr parts)
      ∧ part ∈ parts
      ∧ Prepare.ref_url part = Some "https://example.com/new.png".
Proof.
  intros prior final.
  destruct C10_only_last_message_is_uploaded as (_ & _ & Hpart & Hexact & _).
  assert ("https://example.com/new.png"
            ∈ (Orchestrator.upload_refs (λ _, Ok JNull)
                 (map turn_json prior ++ [turn_json final])).1) as Hin
    by (cbn; apply list_elem_of_here).
  split; [exact Hin|]. split; [exact (Hexact prior final)|].
  destruct (Hpart (λ _, Ok JNull) (map turn_json prior) (turn_json final) _ Hin)
    as (parts & part & Hcontent & Hmember & _ & Hurl).
  by exists parts, part.
Defined.

End Attachments.

(** ** The attachment uploader *)
Section Uploading.
Import Upload.
Local Open Scope string_scope.

Lemma checkResult_passes (result : AxiosResponse) (k : string) (s : St) :
  passes result = true →
  Upload.checkResult result k s = (s, Returned (data result)).
Proof.
  unfold passes, Upload.checkResult, Lease.checkResult.
  intros [Htruthy Hcode]%andb_prop. rewrite Htruthy. cbn [negb].
  destruct (data result) as [[| | | | |fields]|]; try done; cbn in *;
    try (by destruct s).
  rewrite Hcode. by destruct s.
Qed.

Lemma get_truthy (v : value) (k : string) :
  truthy v = true → get v k = Ok (field v k).
Proof. by destruct v as [[]|]. Qed.

Lemma destructure_truthy (v : value) (source k : string) :
  truthy v = true → destructure v source k = Ok (field v k).
Proof. by destruct v as [[]|]. Qed.

(** One turn of the polling loop on a response that [checkResult] lets
    through. *)
Lemma poll_step (k : string) (fileId : value) (start : Z) (result : AxiosResponse)
    (now : Z) (rest : list (Res AxiosResponse * Z)) (s : St) :
  passes result = true →
  poll k fileId start ((Ok result, now) :: rest) s
  = if terminal_failure result
    then (logged (STATUS fileId) s, Raised (APIException API_FILE_UPLOAD_FAILED ""))
    else if (60 <? now - start)%Z
    then (logged (STATUS fileId) s, Raised (APIException API_FILE_UPLOAD_TIMEOUT ""))
    else if truthy (field (data result) "needFurtherCall")
    then poll k fileId start rest (logged (STATUS fileId) s)
    else (logged (STATUS fileId) s, Returned tt).
Proof.
  intros Hpass. cbn [poll]. unfold mbind, Eff_bind at 1. cbn [call].
  fold (logged (STATUS fileId) s).
  unfold mbind, Eff_bind at 1. cbn [lift mret Eff_ret].
  unfold mbind, Eff_bind at 1. rewrite checkResult_passes by done.
  assert (truthy (data result) = true) as Htruthy
    by (by apply andb_prop in Hpass as [? _]).
  rewrite !destructure_truthy by done. cbn [lift mret Eff_ret mbind Eff_bind].
  unfold terminal_failure.
  repeat case_match; reflexivity.
Qed.

(** While the exchanges keep the loop going, it only logs requests. *)
Lemma poll_keeps_polling (k : string) (fileId : value) (start : Z)
    (pre rest : list (Res AxiosResponse * Z)) (s : St) :
  forallb (keeps_polling start) pre = true →
  poll k fileId start (pre ++ rest) s
  = poll k fileId start rest
      {| calls := calls s ++ replicate (length pre) (STATUS fileId); cache := cache s |}.
Proof.
  revert s. induction pre as [|[[result|e] now] pre IH]; intros s Hpre.
  - cbn. rewrite app_nil_r. by destruct s.
  - cbn [forallb keeps_polling] in Hpre.
    apply andb_prop in Hpre as [Hp Hpre].
    apply andb_prop in Hp as [Hp Hmore]. apply andb_prop in Hp as [Hp Hnow].
    apply andb_prop in Hp as [Hpass Hfail].
    rewrite <- app_comm_cons, poll_step by done.
    apply negb_true_iff in Hfail. rewrite Hfail, Hmore.
    replace (60 <? now - start)%Z with false by (symmetry; apply Z.ltb_ge; lia).
    rewrite IH by done. cbn [logged calls cache length replicate].
    by rewrite <- app_assoc.
  - done.
Qed.

End Uploading.

Section UploadFailures.
Import Upload.
Local Open Scope string_scope.

Lemma uploadFile_raised lib w url k s s' e :
  transfer lib w url k s = (s', Raised e) →
  uploadFile lib w url k s = (s', Raised e).
Proof. intros H. unfold uploadFile, mbind, Eff_bind at 1. by rewrite H. Qed.

Lemma uploadFile_transferred lib w url k s s1 filename fileData mimeType fileId :
  transfer lib w url k s = (s1, Returned (filename, fileData, mimeType, fileId)) →
  uploadFile lib w url k s
  = (poll k fileId (startTime w) (polls w);;
     call (SLEEP 5000);;
     mret (attachment filename fileData mimeType fileId)) s1.
Proof. intros H. unfold uploadFile, mbind, Eff_bind at 1. by rewrite H. Qed.

Lemma checkFileUrl_inline w url s :
  isBASE64Data (Some (JStr url)) = true →
  checkFileUrl w url s = (s, Returned tt).
Proof. intros H. unfold checkFileUrl. by rewrite H. Qed.

Lemma transfer_invalid lib w url k s result :
  isBASE64Data (Some (JStr url)) = false →
  head w url = Ok result →
  (400 ≤ status result)%Z →
  transfer lib w url k s
  = (logged (HEAD url) s,
     Raised (APIException API_FILE_URL_INVALID
               ("File " ++ url ++ " is not valid: ["
                ++ string_of_Z (status result) ++ "] " ++ statusText result))).
Proof.
  intros Hremote Hhead Hstatus.
  unfold transfer, mbind, Eff_bind at 1. unfold checkFileUrl.
  rewrite Hremote. unfold mbind, Eff_bind at 1. cbn [call].
  unfold mbind, Eff_bind at 1. rewrite Hhead. cbn [lift mret Eff_ret].
  by replace (400 <=? status result)%Z with true by (symmetry; apply Z.leb_le; lia).
Qed.

Lemma transfer_exceeds lib w url k s result declared fileSize :
  isBASE64Data (Some (JStr url)) = false →
  head w url = Ok result →
  (status result < 400)%Z →
  header result "content-length" = Some declared →
  parseInt10 declared = Some fileSize →
  (FILE_MAX_SIZE < fileSize)%Z →
  transfer lib w url k s
  = (logged (HEAD url) s,
     Raised (APIException API_FILE_EXECEEDS_SIZE ("File " ++ url ++ " is not valid"))).
Proof.
  intros Hremote Hhead Hstatus Hheader Hparse Hsize.
  unfold transfer, mbind, Eff_bind at 1. unfold checkFileUrl.
  rewrite Hremote. unfold mbind, Eff_bind at 1. cbn [call].
  unfold mbind, Eff_bind at 1. rewrite Hhead. cbn [lift mret Eff_ret].
  replace (400 <=? status result)%Z with false by (symmetry; apply Z.leb_gt; lia).
  rewrite Hheader. destruct (String.eqb_spec declared "") as [->|_]; [done|].
  rewrite Hparse.
  by replace (FILE_MAX_SIZE <? fileSize)%Z with true by (symmetry; apply Z.ltb_lt; lia).
Qed.

(** The loop's three ways out, after any number of exchanges that keep it
    going. *)
Lemma poll_outcome k fileId start pre result now rest s :
  forallb (keeps_polling start) pre = true →
  passes result = true →
  poll k fileId start (pre ++ (Ok result, now) :: rest) s
  = let s' := {| calls := calls s ++ replicate (S (length pre)) (STATUS fileId);
                 cache := cache s |} in
    if terminal_failure result
    then (s', Raised (APIException API_FILE_UPLOAD_FAILED ""))
    else if (60 <? now - start)%Z
    then (s', Raised (APIException API_FILE_UPLOAD_TIMEOUT ""))
    else if truthy (field (data result) "needFurtherCall")
    then poll k fileId start rest s'
    else (s', Returned tt).
Proof.
  intros Hpre Hpass. rewrite poll_keeps_polling, poll_step by done.
  unfold logged. cbn [calls cache].
  replace (replicate (S (length pre)) (STATUS fileId))
    with (replicate (length pre) (STATUS fileId) ++ [STATUS fileId])%list
    by (by rewrite <- replicate_S_end).
  by rewrite app_assoc.
Qed.

End UploadFailures.

Section UploadTrace.
Import Upload.
Local Open Scope string_scope.

Local Abbreviation quiet s := (Forall (λ c, is_probe c = false) (calls s)).

Lemma quiet_bind {A B : Type} (m : Eff A) (f : A → Eff B) s :
  (∀ s, quiet s → quiet (m s).1) →
  (∀ a s, quiet s → quiet (f a s).1) →
  quiet s → quiet ((m ≫= f) s).1.
Proof.
  intros Hm Hf Hs. unfold mbind, Eff_bind. specialize (Hm s Hs).
  destruct (m s) as [s' [a|e|]]; [by apply Hf|done..].
Qed.

Lemma quiet_call c s : is_probe c = false → quiet s → quiet (call c s).1.
Proof. intros Hc Hs. cbn. apply Forall_app. by repeat constructor. Qed.

Lemma quiet_lift {A : Type} (r : Res A) s : quiet s → quiet (lift r s).1.
Proof. by destruct r. Qed.

Lemma quiet_checkResult result k s : quiet s → quiet (Upload.checkResult result k s).1.
Proof.
  unfold Upload.checkResult. destruct (Lease.checkResult _ _ _) as [m r].
  intros Hs. by apply (quiet_lift r {| calls := calls s; cache := m |}).
Qed.

Lemma quiet_poll k fileId start remaining s :
  quiet s → quiet (poll k fileId start remaining s).1.
Proof.
  revert s. induction remaining as [|[r now] remaining IH]; intros s Hs.
  { cbn [poll]. apply quiet_bind; [by intros; apply quiet_call| |done]. by intros. }
  cbn [poll].
  apply quiet_bind; [by intros; apply quiet_call| |done]. intros _ s1 Hs1.
  apply quiet_bind; [by intros; apply quiet_lift| |done]. intros result s2 Hs2.
  apply quiet_bind; [by intros; apply quiet_checkResult| |done]. intros body s3 Hs3.
  apply quiet_bind; [by intros; apply quiet_lift| |done]. intros fileStatus s4 Hs4.
  apply quiet_bind; [by intros; apply quiet_lift| |done]. intros more s5 Hs5.
  repeat case_match; first [by apply IH | exact Hs5].
Qed.

(** An upload from an inline-encoded source sends no probe. *)
Lemma uploadFile_inline_quiet lib w url k s :
  isBASE64Data (Some (JStr url)) = true →
  quiet s → quiet (uploadFile lib w url k s).1.
Proof.
  intros Hinline Hs. unfold uploadFile.
  apply quiet_bind; [| |done].
  - clear s Hs. intros s Hs. unfold transfer.
    apply quiet_bind; [by intros; rewrite checkFileUrl_inline| |done].
    intros _ s1 Hs1. rewrite Hinline.
    apply quiet_bind; [done| |done]. intros [[filename fileData] mimeType] s2 Hs2.
    apply quiet_bind; [by intros; apply quiet_call| |done]. intros _ s3 Hs3.
    apply quiet_bind; [by intros; apply quiet_lift| |done]. intros _ s4 Hs4.
    apply quiet_bind; [by intros; apply quiet_call| |done]. intros _ s5 Hs5.
    apply quiet_bind; [by intros; apply quiet_lift| |done]. intros result s6 Hs6.
    apply quiet_bind; [by intros; apply quiet_checkResult| |done]. intros body s7 Hs7.
    apply quiet_bind; [by intros; apply quiet_lift| |done]. by intros.
  - intros [[[filename fileData] mimeType] fileId] s1 Hs1.
    apply quiet_bind; [by intros; apply quiet_poll| |done]. intros _ s2 Hs2.
    apply quiet_bind; [by intros; apply quiet_call| |done]. by intros.
Qed.

End UploadTrace.

Section UploadClaims.
Import Upload.
Local Open Scope string_scope.

(** C8, as stated, fails for a probe that returns a status which is not a
    success but below 400: [checkFileUrl] only rejects 400 and above, so a
    304 passes the probe. *)
Lemma C8_counterexample :
  let w := {| head := λ _, Ok {| status := 304; statusText := "Not Modified";
                                 headers := []; data := undefined |};
              download := λ _, Ok [];
              acquire := λ _, Throw (AxiosError "offline");
              put := λ _ _, Throw (AxiosError "offline");
              startTime := 0;
              polls := [] |} in
  isBASE64Data (Some (JStr "https://example.com/a.pdf")) = false
  ∧ success_status 304 = false
  ∧ run (checkFileUrl w "https://example.com/a.pdf") ∅
    = ({| calls := [HEAD "https://example.com/a.pdf"]; cache := ∅ |}, Returned tt).
Proof. repeat split; reflexivity. Qed.

(** C8, amended.  [uploadFile] fails with FileURLInvalid when the probe of
    a source that is not inline-encoded returns a status of 400 or above,
    and with FileExceedsSize when a probe that passed declares a content
    length above 100 MiB; in both cases the probe is the only request
    made.  Once the transfer is done, after any number of status polls
    that keep the loop going, it fails with FileUploadFailed when a poll
    returns one of the statuses 12, 22, 59, 404, and with FileUploadTimeout
    when a poll that is not such a failure is answered more than 60
    seconds after the loop started; when instead that poll comes in time
    and asks for no further call, the fixed delay of 5000 ms follows and
    the attachment is returned.  An inline-encoded source is not probed at
    all. *)
Theorem C8_upload_failures (lib : Lib) (w : World) (k : string) :
  (∀ url s result,
     isBASE64Data (Some (JStr url)) = false →
     head w url = Ok result →
     (400 ≤ status result)%Z →
     ∃ message,
       uploadFile lib w url k s
       = (logged (HEAD url) s, Raised (APIException API_FILE_URL_INVALID message)))
  ∧ (∀ url s result declared fileSize,
       isBASE64Data (Some (JStr url)) = false →
       head w url = Ok result →
       (status result < 400)%Z →
       header result "content-length" = Some declared →
       parseInt10 declared = Some fileSize →
       (100 * 1024 * 1024 < fileSize)%Z →
       ∃ message,
         uploadFile lib w url k s
         = (logged (HEAD url) s, Raised (APIException API_FILE_EXECEEDS_SIZE message)))
  ∧ (∀ url s s1 filename fileData mimeType fileId pre result now rest,
       transfer lib w url k s = (s1, Returned (filename, fileData, mimeType, fileId)) →
       polls w = (pre ++ (Ok result, now) :: rest)%list →
       forallb (keeps_polling (startTime w)) pre = true →
       passes result = true →
       let s' := {| calls := calls s1 ++ replicate (S (length pre)) (STATUS fileId);
                    cache := cache s1 |} in
       (terminal_failure result = true →
        uploadFile lib w url k s
        = (s', Raised (APIException API_FILE_UPLOAD_FAILED "")))
       ∧ (terminal_failure result = false →
          (60 < now - startTime w)%Z →
          uploadFile lib w url k s
          = (s', Raised (APIException API_FILE_UPLOAD_TIMEOUT "")))
       ∧ (terminal_failure result = false →
          (now - startTime w ≤ 60)%Z →
          truthy (field (data result) "needFurtherCall") = false →
          uploadFile lib w url k s
          = (logged (SLEEP 5000) s',
             Returned (attachment filename fileData mimeType fileId))))
  ∧ (∀ url s,
       isBASE64Data (Some (JStr url)) = true →
       checkFileUrl w url s = (s, Returned tt)
       ∧ (Forall (λ c, is_probe c = false) (calls s) →
          Forall (λ c, is_probe c = false) (calls (uploadFile lib w url k s).1))).
Proof.
  split; [|split; [|split]].
  - intros url s result Hremote Hhead Hstatus. eexists.
    apply uploadFile_raised. by apply transfer_invalid.
  - intros url s result declared fileSize Hremote Hhead Hstatus Hheader Hparse Hsize.
    eexists. apply uploadFile_raised. by eapply transfer_exceeds.
  - intros url s s1 filename fileData mimeType fileId pre result now rest
      Htransfer Hpolls Hpre Hpass s'.
    rewrite (uploadFile_transferred _ _ _ _ _ _ _ _ _ _ Htransfer), Hpolls.
    unfold mbind, Eff_bind.
    rewrite poll_outcome by done. cbn zeta. fold s'.
    split; [|split].
    + by intros ->.
    + intros -> Hlate.
      by replace (60 <? now - startTime w)%Z with true
        by (symmetry; apply Z.ltb_lt; lia).
    + intros -> Hintime ->.
      by replace (60 <? now - startTime w)%Z with false
        by (symmetry; apply Z.ltb_ge; lia).
  - intros url s Hinline. split; [by apply checkFileUrl_inline|].
    by apply uploadFile_inline_quiet.
Qed.

Lemma C8_upload_failures_witness :
  let lib := {| uuid := "u1";
                extractBASE64DataFormat := λ _, Some (JStr "text/plain");
                removeBASE64DataHeader := λ s, s;
                base64 := Buf.from;
                mime_getExtension := λ _, Some (JStr "txt");
                mime_getType := λ _, None;
                basename := λ s, s |} in
  let waiting := body_response (Some (JObj [("fileStatus", JNum 1);
                                            ("needFurtherCall", JBool true)])) in
  let w := {| head := λ _, Ok {| status := 404; statusText := "Not Found";
                                 headers := []; data := undefined |};
              download := λ _, Ok [];
              acquire := λ _, Ok {| Lease.acq_deviceId := Some (JStr "d");
                                    Lease.token := "a...r" |};
              put := λ _ _, Ok (body_response (Some (JObj [("id", JStr "f1")])));
              startTime := 100;
              polls := [(Ok waiting, 130); (Ok waiting, 161)]%Z |} in
  let s0 := {| calls := []; cache := ∅ |} in
  (∃ message,
     uploadFile lib w "https://example.com/a.pdf" "k" s0
     = (logged (HEAD "https://example.com/a.pdf") s0,
        Raised (APIException API_FILE_URL_INVALID message)))
  ∧ uploadFile lib w "data:text/plain;base64,aGk=" "k" s0
    = ({| calls := [ACQUIRE "k"; PUT "u1.txt" 27;
                    STATUS (Some (JStr "f1")); STATUS (Some (JStr "f1"))];
          cache := ∅ |},
       Raised (APIException API_FILE_UPLOAD_TIMEOUT "")).
Proof.
  intros lib waiting w s0.
  destruct (C8_upload_failures lib w "k") as (Hinvalid & _ & Hpoll & _).
  split.
  - apply (Hinvalid "https://example.com/a.pdf" s0
             {| status := 404; statusText := "Not Found"; headers := [];
                data := undefined |});
      [reflexivity|reflexivity|vm_compute; discriminate].
  - destruct (Hpoll "data:text/plain;base64,aGk=" s0
                {| calls := [ACQUIRE "k"; PUT "u1.txt" 27]; cache := ∅ |}
                "u1.txt" (Buf.from "data:text/plain;base64,aGk=")
                (Some (JStr "text/plain")) (Some (JStr "f1"))
                [(Ok waiting, 130%Z)] waiting 161%Z []
                eq_refl eq_refl eq_refl eq_refl) as (_ & Htimeout & _).
    apply Htimeout; [reflexivity|vm_compute; reflexivity].
Defined.

End UploadClaims.


(** * Further properties *)

(** ** Reassembly of frames *)
Section Reassembly.

Lemma read_header_of_prefix flag (n : N) (body : Buffer) :
  (n < 2 ^ 32)%N →
  Buf.readUint32BE (flag :: Frame.be32 n ++ body) 1 = Ok n.
Proof.
  intros Hn. unfold Buf.readUint32BE, Frame.be32. simpl.
  rewrite !to_N_byte_of_N. f_equal. by apply base256_digits.
Qed.

(** With [temp] empty, the listener only accumulates while the bytes it
    holds are a proper prefix of a frame. *)
Lemma on_data_accumulates {S : Type} (parser : Buffer → S → Res S)
    flag payload (held buffer tail : Buffer) (s : S) :
  (N.of_nat (length payload) < 2 ^ 32)%N →
  (held ++ buffer) ++ tail = Frame.frame flag payload →
  tail ≠ [] →
  Frame.on_data parser {| Frame.chunk := held; Frame.temp := [] |} s buffer
  = ({| Frame.chunk := held ++ buffer; Frame.temp := [] |}, s, None).
Proof.
  intros Hn Hframe Htail. unfold Frame.on_data.
  cbn [Frame.temp Frame.chunk]. rewrite app_nil_l.
  set (x := held ++ buffer) in *.
  assert (length x < 5 + length payload) as Hshort.
  { apply (f_equal length) in Hframe. rewrite length_app, length_frame in Hframe.
    destruct tail; [done|]. simpl in Hframe. lia. }
  destruct (Nat.ltb_spec (length x) 5) as [Hlt|Hge]; [done|].
  assert (x = flag :: Frame.be32 (N.of_nat (length payload))
                ++ take (length x - 5) payload) as Hx.
  { assert (x = take (length x) (Frame.frame flag payload)) as Htake
      by (by rewrite <- Hframe, take_app_length).
    rewrite Htake at 1.
    change (Frame.frame flag payload)
      with ((flag :: Frame.be32 (N.of_nat (length payload))) ++ payload).
    rewrite take_app. rewrite take_ge by (simpl; lia). reflexivity. }
  rewrite Hx at 1. rewrite read_header_of_prefix by done.
  replace (N.of_nat (length payload) + 5)%N with (N.of_nat (length payload + 5)) by lia.
  rewrite subarray_from, subarray_upto.
  rewrite drop_ge, take_ge by lia.
  by replace (N.of_nat (length x) <? N.of_nat (length payload + 5))%N with true
    by (symmetry; apply N.ltb_lt; lia).
Qed.

(** The same listener on the buffer that completes the frame. *)
Lemma on_data_completes {S : Type} (parser : Buffer → S → Res S)
    flag payload (held buffer : Buffer) (s s' : S) :
  (N.of_nat (length payload) < 2 ^ 32)%N →
  held ++ buffer = Frame.frame flag payload →
  parser payload s = Ok s' →
  Frame.on_data parser {| Frame.chunk := held; Frame.temp := [] |} s buffer
  = (Frame.init, s', None).
Proof.
  intros Hn Hframe Hparse. unfold Frame.on_data.
  cbn [Frame.temp Frame.chunk]. rewrite app_nil_l, Hframe.
  pose proof (on_data_whole_frame parser flag payload [] s Hn) as H.
  unfold Frame.on_data, Frame.init in H. cbn [Frame.temp Frame.chunk] in H.
  rewrite !app_nil_l, app_nil_r, Hparse in H. exact H.
Qed.

Lemma on_data_idle {S : Type} (parser : Buffer → S → Res S) (s : S) :
  Frame.on_data parser Frame.init s [] = (Frame.init, s, None).
Proof. reflexivity. Qed.

(** Feeding the pieces of one frame, none of which reaches into another
    frame, hands its payload to the parser once and leaves the listener
    empty. *)
Lemma feed_one_frame flag payload (pieces : list Buffer) (held : Buffer)
    (seen : list Buffer) :
  (N.of_nat (length payload) < 2 ^ 32)%N →
  held ++ concat pieces = Frame.frame flag payload →
  length held < length (Frame.frame flag payload) →
  Frame.feed {| Frame.chunk := held; Frame.temp := [] |} seen pieces
  = (Frame.init, seen ++ [payload]).
Proof.
  intros Hn. revert held.
  induction pieces as [|piece pieces IH]; intros held Hframe Hshort.
  - simpl in Hframe. rewrite app_nil_r in Hframe. rewrite Hframe in Hshort. lia.
  - cbn [concat] in Hframe. cbn [Frame.feed].
    destruct (decide (concat pieces = [])) as [Hdone|Hmore].
    + rewrite Hdone, app_nil_r in Hframe.
      rewrite (on_data_completes Frame.record_payload flag payload held piece seen
                 (seen ++ [payload])) by done.
      clear IH Hframe. revert Hdone. generalize (seen ++ [payload]).
      induction pieces as [|p pieces IH]; intros seen' Hdone; [done|].
      cbn [concat] in Hdone. apply app_eq_nil in Hdone as [-> Hdone].
      cbn [Frame.feed]. rewrite on_data_idle. by apply IH.
    + rewrite app_assoc in Hframe.
      rewrite (on_data_accumulates Frame.record_payload flag payload held piece
                 (concat pieces) seen) by done.
      apply IH; [done|].
      apply (f_equal length) in Hframe. rewrite length_app in Hframe.
      destruct (concat pieces) as [|b l]; [done|]. rewrite length_cons in Hframe. lia.
Qed.

Lemma feed_app d seen chunks1 chunks2 :
  Frame.feed d seen (chunks1 ++ chunks2)
  = Frame.feed (Frame.feed d seen chunks1).1 (Frame.feed d seen chunks1).2 chunks2.
Proof.
  revert d seen. induction chunks1 as [|b chunks1 IH]; intros d seen; [done|].
  cbn [app Frame.feed].
  destruct (Frame.on_data Frame.record_payload d seen b) as [[d' seen'] thrown].
  apply IH.
Qed.

Lemma feed_frames_in_pieces (flag : byte) (framed : list (Buffer * list Buffer))
    (seen : list Buffer) :
  Forall (λ fp, (N.of_nat (length fp.1) < 2 ^ 32)%N
                ∧ concat fp.2 = Frame.frame flag fp.1) framed →
  Frame.feed Frame.init seen (concat (map snd framed))
  = (Frame.init, seen ++ map fst framed).
Proof.
  intros Hall. revert seen.
  induction Hall as [|[payload pieces] framed [Hn Hpieces] _ IH]; intros seen.
  - by rewrite app_nil_r.
  - cbn [map concat fst snd] in *. rewrite feed_app.
    assert (Frame.feed Frame.init seen pieces = (Frame.init, seen ++ [payload])) as ->.
    { apply (feed_one_frame flag payload pieces [] seen); [done|done|].
      rewrite length_frame. simpl. lia. }
    cbn [fst snd]. rewrite IH. by rewrite <- app_assoc.
Qed.

(** X1.  Frames are reassembled from any chunking in which no chunk holds
    bytes of two frames: when each frame of a sequence arrives cut into
    pieces at arbitrary offsets, inside the header included, the listener
    hands the payloads to the parser in order, each once. *)
Theorem X1_frames_reassembled_from_pieces (flag : byte)
    (framed : list (Buffer * list Buffer)) :
  Forall (λ fp, (N.of_nat (length fp.1) < 2 ^ 32)%N
                ∧ concat fp.2 = Frame.frame flag fp.1) framed →
  Frame.decode (concat (map snd framed)) = map fst framed.
Proof.
  intros Hall. unfold Frame.decode. by rewrite (feed_frames_in_pieces flag).
Qed.

Lemma X1_frames_reassembled_from_pieces_witness :
  let a := Frame.frame x00 (Buf.from "ab") in
  let b := Frame.frame x00 (Buf.from "c") in
  Frame.decode [take 3 a; drop 3 a; take 6 b; []; drop 6 b]
  = [Buf.from "ab"; Buf.from "c"].
Proof.
  intros a b.
  apply (X1_frames_reassembled_from_pieces x00
           [(Buf.from "ab", [take 3 a; drop 3 a]);
            (Buf.from "c", [take 6 b; []; drop 6 b])]).
  repeat constructor.
Defined.

(** X2.  What [wrapData] writes, the listener reads back: the frame of a
    JSON text, delivered whole or cut in two at any offset, is decoded to
    the bytes of that text. *)
Theorem X2_wrapData_decodes_back (json : string) (n : nat) :
  (N.of_nat (length (Buf.from json)) < 2 ^ 32)%N →
  Frame.decode [wrapData json] = [Buf.from json]
  ∧ Frame.decode [take n (wrapData json); drop n (wrapData json)] = [Buf.from json].
Proof.
  intros Hn. rewrite wrapData_frame. unfold Frame.decode. split.
  - refine (f_equal snd (feed_frames_in_pieces x00
               [(Buf.from json, [Frame.frame x00 (Buf.from json)])] [] _)).
    repeat constructor; [done|]. cbn. by rewrite app_nil_r.
  - refine (f_equal snd (feed_frames_in_pieces x00
               [(Buf.from json, [take n (Frame.frame x00 (Buf.from json));
                                 drop n (Frame.frame x00 (Buf.from json))])] [] _)).
    repeat constructor; [done|]. cbn [snd concat].
    by rewrite app_nil_r, take_drop.
Qed.

Lemma X2_wrapData_decodes_back_witness :
  let json := JS.stringify (JObj [("chatId", JStr "c1")]) in
  (N.of_nat (length (Buf.from json)) < 2 ^ 32)%N
  ∧ Frame.decode [take 2 (wrapData json); drop 2 (wrapData json)] = [Buf.from json].
Proof.
  intros json.
  assert (N.of_nat (length (Buf.from json)) < 2 ^ 32)%N as Hn
    by (vm_compute; reflexivity).
  split; [exact Hn|]. exact (proj2 (X2_wrapData_decodes_back json 2 Hn)).
Defined.

End Reassembly.

(** ** The lease store over time *)
Section LeaseLifetime.
Import Lease.

Lemma acquireToken_cached c k now s entry :
  accessTokenMap s !! k = Some entry →
  expired now entry = false →
  acquireToken c k now s = settle c (Ok (acquired entry)) s.
Proof.
  intros Hm Hfresh. unfold acquireToken, acquireToken_check. by rewrite Hm, Hfresh.
Qed.

Lemma lookup_insert_all {A : Type} (v : A) (cs : list nat) (m : gmap nat A) c :
  foldl (λ acc c', <[c' := v]> acc) m cs !! c
  = if decide (c ∈ cs) then Some v else m !! c.
Proof.
  revert m. induction cs as [|c0 cs IH]; intros m; cbn [foldl].
  - by rewrite decide_False by apply not_elem_of_nil.
  - rewrite IH. destruct (decide (c ∈ cs)) as [Hin|Hout].
    + by rewrite decide_True by (by apply list_elem_of_further).
    + destruct (decide (c = c0)) as [->|Hne].
      * rewrite lookup_insert_eq. by rewrite decide_True by apply list_elem_of_here.
      * rewrite lookup_insert_ne by done.
        rewrite decide_False; [done|]. by intros [?|?]%elem_of_cons.
Qed.

(** Calls that find an entry which has not expired only settle their
    callers. *)
Lemma acquire_cached_run k entry (calls : list (nat * Z)) s :
  accessTokenMap s !! k = Some entry →
  Forall (λ call, expired call.2 entry = false) calls →
  foldl LeaseRun.step s (map (λ call, LeaseRun.Acquire call.1 k call.2) calls)
  = {| accessTokenMap := accessTokenMap s;
       accessTokenRequestQueueMap := accessTokenRequestQueueMap s;
       inflight := inflight s;
       requests := requests s;
       settled := foldl (λ acc c, <[c := Ok (acquired entry)]> acc) (settled s)
                        (map fst calls) |}.
Proof.
  intros Hm Hall. revert s Hm.
  induction Hall as [|[c now] calls Hfresh _ IH]; intros s Hm.
  - by destruct s.
  - cbn [map foldl LeaseRun.step fst snd] in *.
    rewrite (acquireToken_cached c k now s entry) by done.
    by rewrite IH.
Qed.

(** X3.  A cached lease is served as it is until it expires: calls of
    [acquireToken] made at times not after the lease's [refreshTime], by
    any callers, send no RegisterDevice request, leave the store's lease,
    queue and request in flight alone, and all return the same lease.  The
    lifetime runs from the exchange that produced the lease; use does not
    extend it. *)
Theorem X3_cached_lease_served_until_expiry (k : string) (t : Token)
    (calls : list (nat * Z)) (s : Store) (c : nat) :
  accessTokenMap s !! k = Some (TokenEntry t) →
  Forall (λ call, (call.2 ≤ refreshTime t)%Z) calls →
  c ∈ map fst calls →
  let s' := foldl LeaseRun.step s
              (map (λ call, LeaseRun.Acquire call.1 k call.2) calls) in
  requests s' = requests s
  ∧ accessTokenMap s' = accessTokenMap s
  ∧ accessTokenRequestQueueMap s' = accessTokenRequestQueueMap s
  ∧ inflight s' = inflight s
  ∧ settled s' !! c
    = Some (Ok {| acq_deviceId := deviceId t;
                  token := (show (accessToken t) ++ "..." ++ show (refreshToken t))%string |}).
Proof.
  intros Hm Hall Hc s'. subst s'.
  rewrite (acquire_cached_run k (TokenEntry t)); [|done|].
  - cbn [requests accessTokenMap accessTokenRequestQueueMap inflight settled].
    repeat (split; [done|]). rewrite lookup_insert_all. by rewrite decide_True.
  - eapply Forall_impl; [exact Hall|]. intros [c' now] Hnow. cbn in *.
    apply Z.ltb_ge. lia.
Qed.

Lemma X3_cached_lease_served_until_expiry_witness :
  let t := {| deviceId := Some (JStr "d"); accessToken := Some (JStr "a");
              refreshToken := Some (JStr "r"); refreshTime := 1900 |} in
  let s := {| accessTokenMap := {[ "k"%string := TokenEntry t ]};
              accessTokenRequestQueueMap := ∅; inflight := ∅;
              requests := ["k"%string]; settled := ∅ |} in
  let s' := foldl LeaseRun.step s
              [LeaseRun.Acquire 1 "k" 1000; LeaseRun.Acquire 2 "k" 1900] in
  requests s' = ["k"%string]
  ∧ settled s' !! 2
    = Some (Ok {| acq_deviceId := Some (JStr "d"); token := "a...r" |}).
Proof.
  intros t s s'.
  destruct (X3_cached_lease_served_until_expiry "k" t [(1, 1000%Z); (2, 1900%Z)] s 2)
    as (Hreq & _ & _ & _ & Hlease).
  - reflexivity.
  - repeat constructor; cbn; lia.
  - cbn. apply list_elem_of_further, list_elem_of_here.
  - split; [exact Hreq|exact Hlease].
Defined.

(** X4.  An error object that a failed exchange left in [accessTokenMap]
    never expires: every later call of [acquireToken] for the key, at any
    time, returns the lease made of it, with an undefined device id and
    the token [undefined...undefined], and no RegisterDevice request is
    sent again. *)
Theorem X4_cached_error_is_served_forever (k : string) (e : exn)
    (calls : list (nat * Z)) (s : Store) (c : nat) :
  accessTokenMap s !! k = Some (ErrorEntry e) →
  c ∈ map fst calls →
  let s' := foldl LeaseRun.step s
              (map (λ call, LeaseRun.Acquire call.1 k call.2) calls) in
  requests s' = requests s
  ∧ accessTokenMap s' !! k = Some (ErrorEntry e)
  ∧ settled s' !! c
    = Some (Ok {| acq_deviceId := undefined; token := "undefined...undefined" |}).
Proof.
  intros Hm Hc s'. subst s'.
  rewrite (acquire_cached_run k (ErrorEntry e)); [|done|].
  - cbn [requests accessTokenMap settled].
    repeat (split; [done|]). rewrite lookup_insert_all. by rewrite decide_True.
  - by apply Forall_forall.
Qed.

Lemma X4_cached_error_is_served_forever_witness :
  let s := respond "k" (Throw (AxiosError "timeout")) 10
             (acquire_all [0; 1] "k" 0 Lease.empty) in
  let s' := foldl LeaseRun.step s
              [LeaseRun.Acquire 2 "k" 20; LeaseRun.Acquire 3 "k" 100000] in
  accessTokenMap s !! "k"%string = Some (ErrorEntry (AxiosError "timeout"))
  ∧ requests s' = ["k"%string]
  ∧ settled s' !! 3
    = Some (Ok {| acq_deviceId := undefined; token := "undefined...undefined" |}).
Proof.
  intros s s'.
  assert (accessTokenMap s !! "k"%string = Some (ErrorEntry (AxiosError "timeout")))
    as Hm by (vm_compute; reflexivity).
  destruct (X4_cached_error_is_served_forever "k" (AxiosError "timeout")
              [(2, 20%Z); (3, 100000%Z)] s 3 Hm) as (Hreq & _ & Hlease).
  - cbn. apply list_elem_of_further, list_elem_of_here.
  - split; [exact Hm|]. split; [exact Hreq|exact Hlease].
Defined.

End LeaseLifetime.

(** ** Refreshes *)
Section LeaseRefresh.
Import Lease.

(** X5.  A lease that has expired is refreshed by the next call: with no
    exchange in flight that call sends one RegisterDevice request and
    waits.  When the exchange succeeds the caller returns the new lease,
    which replaces the old one; when it fails the caller throws the error
    and [accessTokenMap] is what the failed exchange left, with nothing in
    flight, so the old lease is not served. *)
Theorem X5_expired_lease_is_refreshed (k : string) (t : Token) (c : nat) (now : Z)
    (s : Store) :
  accessTokenMap s !! k = Some (TokenEntry t) →
  (refreshTime t < now)%Z →
  accessTokenRequestQueueMap s !! k = None →
  let s1 := acquireToken c k now s in
  requests s1 = requests s ++ [k]
  ∧ settled s1 = settled s
  ∧ (∀ r now' m' t',
       exchange r k now' (accessTokenMap s) = (m', Ok t') →
       let s2 := respond k r now' s1 in
       requests s2 = requests s1
       ∧ settled s2 !! c = Some (Ok (acquired (TokenEntry t')))
       ∧ accessTokenMap s2 !! k = Some (TokenEntry t'))
  ∧ (∀ r now' m' e,
       exchange r k now' (accessTokenMap s) = (m', Throw e) →
       let s2 := respond k r now' s1 in
       requests s2 = requests s1
       ∧ settled s2 !! c = Some (Throw e)
       ∧ accessTokenMap s2 = m'
       ∧ inflight s2 !! k = None).
Proof.
  intros Hm Hlate Hq s1.
  assert (s1 = {| accessTokenMap := accessTokenMap s;
                  accessTokenRequestQueueMap := <[k := []]> (accessTokenRequestQueueMap s);
                  inflight := <[k := {| caller := c; stage := AwaitExpired |}]> (inflight s);
                  requests := requests s ++ [k];
                  settled := settled s |}) as ->.
  { subst s1. unfold acquireToken, acquireToken_check, requestToken.
    rewrite Hm. cbn [expired].
    replace (refreshTime t <? now)%Z with true by (symmetry; apply Z.ltb_lt; lia).
    by rewrite Hq. }
  cbn [requests settled]. split; [done|]. split; [done|]. split.
  - intros r now' m' t' Hex. cbn zeta. unfold respond.
    cbn [inflight accessTokenMap accessTokenRequestQueueMap requests settled].
    rewrite !lookup_insert_eq, Hex. cbn.
    split; [done|]. by rewrite !lookup_insert_eq.
  - intros r now' m' e Hex. cbn zeta. unfold respond.
    cbn [inflight accessTokenMap accessTokenRequestQueueMap requests settled].
    rewrite !lookup_insert_eq, Hex. cbn.
    split; [done|]. by rewrite lookup_insert_eq, lookup_delete_eq.
Qed.

Lemma X5_expired_lease_is_refreshed_witness :
  let old := {| deviceId := Some (JStr "d"); accessToken := Some (JStr "a");
                refreshToken := Some (JStr "r"); refreshTime := 900 |} in
  let s := {| accessTokenMap := {[ "k"%string := TokenEntry old ]};
              accessTokenRequestQueueMap := ∅; inflight := ∅;
              requests := ["k"%string]; settled := ∅ |} in
  let s1 := acquireToken 5 "k" 901 s in
  requests s1 = ["k"%string; "k"%string]
  ∧ settled (respond "k" (Throw (AxiosError "timeout")) 902 s1) !! 5
    = Some (Throw (AxiosError "timeout")).
Proof.
  intros old s s1.
  destruct (X5_expired_lease_is_refreshed "k" old 5 901 s)
    as (Hreq & _ & _ & Hfail).
  - reflexivity.
  - cbn. lia.
  - reflexivity.
  - split; [exact Hreq|].
    exact (proj1 (proj2 (Hfail (Throw (AxiosError "timeout")) 902%Z _ _ eq_refl))).
Defined.

Lemma resume_frame w k now r s :
  (∀ entry, r = Ok entry → expired now entry = false) →
  requests (resume w k now r s) = requests s
  ∧ inflight (resume w k now r s) = inflight s
  ∧ accessTokenRequestQueueMap (resume w k now r s) = accessTokenRequestQueueMap s.
Proof.
  intros Hfresh. destruct r as [entry|e]; [|done].
  unfold resume, acquireToken_check. rewrite (Hfresh entry) by done.
  by destruct (stage w).
Qed.

Lemma resume_all_frame ws k now r s :
  (∀ entry, r = Ok entry → expired now entry = false) →
  let s' := foldl (λ acc w, resume w k now r acc) s ws in
  requests s' = requests s
  ∧ inflight s' = inflight s
  ∧ accessTokenRequestQueueMap s' = accessTokenRequestQueueMap s.
Proof.
  intros Hfresh. revert s. induction ws as [|w ws IH]; intros s; [done|].
  cbn [foldl]. destruct (IH (resume w k now r s)) as (-> & -> & ->).
  by apply resume_frame.
Qed.

(** The answer to an exchange sends nothing: it closes the queue and the
    request in flight, and wakes the callers. *)
Lemma respond_frame k r now s leader :
  inflight s !! k = Some leader →
  requests (respond k r now s) = requests s
  ∧ inflight (respond k r now s) = delete k (inflight s)
  ∧ accessTokenRequestQueueMap (respond k r now s)
    = delete k (accessTokenRequestQueueMap s).
Proof.
  intros Hin. unfold respond. rewrite Hin.
  destruct (exchange r k now (accessTokenMap s)) as [m result] eqn:Hex.
  assert (∀ entry, queued_value result = Ok entry → expired now entry = false) as Hq.
  { destruct result as [t|e]; cbn; intros entry [= <-]; [|done].
    by eapply exchange_fresh. }
  assert (∀ entry, leader_value result = Ok entry → expired now entry = false) as Hl.
  { destruct result as [t|e]; cbn; intros entry; [|done]. intros [= <-].
    by eapply exchange_fresh. }
  destruct (resume_frame leader k now (leader_value result)
              (foldl (λ acc w, resume w k now (queued_value result) acc)
                 {| accessTokenMap := m;
                    accessTokenRequestQueueMap := delete k (accessTokenRequestQueueMap s);
                    inflight := delete k (inflight s);
                    requests := requests s;
                    settled := settled s |}
                 (default [] (accessTokenRequestQueueMap s !! k))) Hl)
    as (-> & -> & ->).
  by destruct (resume_all_frame (default [] (accessTokenRequestQueueMap s !! k)) k now
                 (queued_value result)
                 {| accessTokenMap := m;
                    accessTokenRequestQueueMap := delete k (accessTokenRequestQueueMap s);
                    inflight := delete k (inflight s);
                    requests := requests s;
                    settled := settled s |} Hq) as (-> & -> & ->).
Qed.

Lemma sent_snoc k k' s s' :
  requests s' = requests s ++ [k'] →
  LeaseRun.sent k s' = (LeaseRun.sent k s + if decide (k' = k) then 1 else 0)%nat.
Proof.
  intros H. unfold LeaseRun.sent. rewrite H, filter_app, length_app. f_equal.
  destruct (decide (k' = k)) as [->|Hne].
  - by rewrite filter_cons_True.
  - by rewrite filter_cons_False.
Qed.

Lemma answers_snoc k events ev :
  LeaseRun.answers k (events ++ [ev])
  = (LeaseRun.answers k events + if LeaseRun.is_answer k ev then 1 else 0)%nat.
Proof.
  unfold LeaseRun.answers. rewrite filter_app, length_app. f_equal.
  destruct (LeaseRun.is_answer k ev) eqn:E.
  - by rewrite filter_cons_True.
  - rewrite filter_cons_False; [done|]. by rewrite E.
Qed.

(** What every run of the store keeps: a key has a queue exactly when it
    has a request in flight, and the requests sent for a key exceed the
    answers received for it by one when a request is in flight and not at
    all otherwise. *)
Lemma run_single_flight (events : list LeaseRun.Event) (k : string) :
  let s := LeaseRun.run events in
  (inflight s !! k = None ↔ accessTokenRequestQueueMap s !! k = None)
  ∧ (LeaseRun.sent k s + match inflight s !! k with Some _ => 0 | None => 1 end
     ≤ LeaseRun.answers k events + 1)%nat.
Proof.
  induction events as [|ev events IH] using rev_ind; [by cbn|].
  cbn zeta in *. unfold LeaseRun.run in *. rewrite foldl_app. cbn [foldl].
  set (s := foldl LeaseRun.step Lease.empty events) in *. clearbody s.
  destruct IH as [Hdom Hcount]. rewrite answers_snoc.
  destruct ev as [c k' now|k' r now]; cbn [LeaseRun.step LeaseRun.is_answer].
  - assert (∀ e, settle c e s = settle c e s) as _ by done.
    unfold acquireToken.
    assert (∀ w,
      let s' := requestToken k' w s in
      (inflight s' !! k = None ↔ accessTokenRequestQueueMap s' !! k = None)
      ∧ (LeaseRun.sent k s' + match inflight s' !! k with Some _ => 0 | None => 1 end
         ≤ LeaseRun.answers k events + 0 + 1)%nat) as Hreq.
    { intros w. unfold requestToken.
      destruct (accessTokenRequestQueueMap s !! k') as [queue|] eqn:Hq; cbn zeta.
      - cbn [inflight accessTokenRequestQueueMap].
        unfold LeaseRun.sent in *. cbn [requests]. split; [|lia].
        destruct (decide (k' = k)) as [->|Hne].
        + rewrite lookup_insert_eq. split; [|done]. intros Hnone.
          apply Hdom in Hnone. by rewrite Hnone in Hq.
        + by rewrite lookup_insert_ne.
      - cbn [inflight accessTokenRequestQueueMap].
        rewrite (sent_snoc k k' s) by done.
        destruct (decide (k' = k)) as [->|Hne].
        + rewrite !lookup_insert_eq. apply Hdom in Hq. rewrite Hq in Hcount.
          split; [done|]. lia.
        + rewrite !lookup_insert_ne by done. split; [done|lia]. }
    destruct (accessTokenMap s !! k') as [entry|]; [|apply Hreq].
    unfold acquireToken_check. destruct (expired now entry); [apply Hreq|].
    unfold LeaseRun.sent in *.
    cbn [settle inflight accessTokenRequestQueueMap requests]. split; [done|].
    destruct (inflight s !! k); lia.
  - destruct (inflight s !! k') as [leader|] eqn:Hin.
    + destruct (respond_frame k' r now s leader Hin) as (Hr & -> & ->).
      unfold LeaseRun.sent in *. rewrite Hr.
      destruct (String.eqb_spec k' k) as [->|Hne].
      * rewrite !lookup_delete_eq. rewrite Hin in Hcount. split; [done|lia].
      * rewrite !lookup_delete_ne by done. split; [done|lia].
    + unfold respond. rewrite Hin. split; [done|].
      destruct (LeaseRun.is_answer k (LeaseRun.Respond k' r now)); lia.
Qed.

(** X6.  Single flight, for every run of the store: whatever calls of
    [acquireToken] and answers to exchanges have happened, for which keys
    and in which order, the RegisterDevice requests sent for a key never
    exceed the answers received for it by more than one, and a call for a
    key whose exchange is in flight sends none. *)
Theorem X6_one_exchange_in_flight_per_key (events : list LeaseRun.Event)
    (k : string) (c : nat) (now : Z) :
  let s := LeaseRun.run events in
  (LeaseRun.sent k s ≤ LeaseRun.answers k events + 1)%nat
  ∧ (inflight s !! k = None → (LeaseRun.sent k s ≤ LeaseRun.answers k events)%nat)
  ∧ (inflight s !! k ≠ None →
     requests (LeaseRun.step s (LeaseRun.Acquire c k now)) = requests s).
Proof.
  intros s. destruct (run_single_flight events k) as [Hdom Hcount]. fold s in Hdom, Hcount.
  split; [|split].
  - destruct (inflight s !! k); lia.
  - intros Hnone. rewrite Hnone in Hcount. lia.
  - intros Hin. cbn [LeaseRun.step]. unfold acquireToken, acquireToken_check, requestToken.
    destruct (accessTokenRequestQueueMap s !! k) as [queue|] eqn:Hq;
      [|exfalso; apply Hin; by apply Hdom].
    by repeat case_match.
Qed.

End LeaseRefresh.

(** ** checkResult *)
Section CheckResult.
Import Lease.
Local Open Scope string_scope.

(** X7.  [checkResult] removes at most the lease of the key it is called
    for, and only when the body's [code] is the string [unauthenticated];
    when it returns instead of throwing, [accessTokenMap] is untouched and
    the value is the body, or [null] for a falsy body. *)
Theorem X7_checkResult_evicts_only_its_key (result : AxiosResponse) (k : string)
    (m : gmap string Entry) :
  let m' := (checkResult result k m).1 in
  (m' = m
   ∨ (m' = delete k m
      ∧ get (data result) "code" = Ok (Some (JStr "unauthenticated"))))
  ∧ (∀ k', k' ≠ k → m' !! k' = m !! k')
  ∧ (∀ v, (checkResult result k m).2 = Ok v →
          m' = m ∧ (v = Some JNull ∨ v = data result)).
Proof.
  cbn zeta.
  assert ((checkResult result k m).1 = m
          ∨ ((checkResult result k m).1 = delete k m
             ∧ get (data result) "code" = Ok (Some (JStr "unauthenticated")))) as Hm.
  { unfold checkResult. destruct (truthy (data result)); [|by left]. cbn [negb].
    destruct (get (data result) "code") as [code|e] eqn:Hcode; [|by left].
    destruct (get (data result) "message") as [message|e]; [|by left].
    destruct code as [[| | |code| |]|]; cbn; try by left.
    destruct (String.eqb_spec code "unauthenticated") as [->|_]; [by right|by left]. }
  split; [exact Hm|]. split.
  - intros k' Hne. destruct Hm as [->|[-> _]]; [done|]. by rewrite lookup_delete_ne.
  - intros v. unfold checkResult. destruct (truthy (data result)); cbn [negb].
    + destruct (get (data result) "code") as [code|e]; [|done].
      destruct (get (data result) "message") as [message|e]; [|done].
      destruct (isString code); cbn; [done|]. intros [= <-]. by eauto.
    + cbn. intros [= <-]. by eauto.
Qed.

End CheckResult.

(** ** The buffered answer *)
Section BufferedAnswer.
Import Event.
Local Open Scope string_scope.

Lemma trim_final_newline_snoc (s : string) : trim_final_newline (s ++ LF) = s.
Proof.
  induction s as [|c s IH]; [done|].
  change (String c s ++ LF) with (String c (s ++ LF)). cbn [trim_final_newline].
  replace (String.eqb (s ++ LF) "") with false by (by destruct s).
  cbn [andb]. by rewrite IH.
Qed.

Lemma result_lines_joined (r : string * string) (results : list (string * string)) :
  result_lines (r :: results)
  = String.concat LF (map (λ r, r.1 ++ "(" ++ r.2 ++ ")") (r :: results)) ++ LF.
Proof.
  revert r. induction results as [|r' results IH]; intros r.
  - unfold result_lines. cbn [map String.concat fst snd].
    by rewrite !append_assoc.
  - unfold result_lines in *. rewrite map_cons, concat_empty_cons, IH.
    cbn [map String.concat fst snd]. by rewrite !append_assoc.
Qed.

Lemma answer_append (v : Buffered.Vars) (text a rc : string) :
  Buffered.answer v = [a]%list →
  Buffered.answer {| Buffered.data := Buffered.append_content text (Buffered.data v);
                     Buffered.refContent := rc |}
  = [a ++ text].
Proof.
  unfold Buffered.answer, Buffered.append_content. cbn.
  destruct (Buffered.choices (Buffered.data v)) as [|c [|c' rest]]; cbn; [done| |done].
  by intros [= <-].
Qed.

Lemma buffered_text_event (text : string) (v : Buffered.Vars) :
  Buffered.parser_json (Some (TextEvent text)) v
  = Ok (if String.eqb text "" then v
        else {| Buffered.data := Buffered.append_content text (Buffered.data v);
                Buffered.refContent := Buffered.refContent v |}).
Proof.
  unfold Buffered.parser_json, TextEvent. cbn.
  by destruct (String.eqb text "").
Qed.

Lemma buffered_text_events (texts : list string) (v : Buffered.Vars) (a : string) :
  Buffered.answer v = [a]%list →
  ∃ v', foldl (λ acc ev, v ← acc; Buffered.parser_json (Some ev) v) (Ok v)
              (map TextEvent texts) = Ok v'
        ∧ Buffered.answer v' = [a ++ String.concat "" texts]
        ∧ Buffered.refContent v' = Buffered.refContent v.
Proof.
  revert v a. induction texts as [|text texts IH]; intros v a Ha.
  - exists v. cbn. by rewrite append_nil_r.
  - cbn [map foldl]. cbn [mbind Res_bind]. rewrite buffered_text_event.
    rewrite concat_empty_cons, <- append_assoc.
    destruct (String.eqb_spec text "") as [->|_].
    + rewrite append_nil_r. by apply IH.
    + edestruct (IH {| Buffered.data := Buffered.append_content text (Buffered.data v);
                       Buffered.refContent := Buffered.refContent v |} (a ++ text))
        as (v' & Hrun & Hanswer & Href); [by apply answer_append|].
      exists v'. by rewrite Hrun, Hanswer, Href.
Qed.

(** X8.  The buffered answer is the text events' texts, in order, and
    nothing else until the done event: for text events, a search event
    among them, and the done event, the answer is the concatenation of the
    texts, followed, when the search had results, by a blank line, the
    results-from heading and one [title(url)] line per result, the lines
    separated by newlines with none after the last. *)
Theorem X8_buffered_answer_is_texts_then_sources (model convId : string) (now : Z)
    (before after : list string) (results : list (string * string)) :
  ∃ v, Buffered.transcode model convId now
         (map TextEvent before ++ SearchEvent results :: map TextEvent after
          ++ [DoneEvent])%list = Ok v
       ∧ Buffered.answer v
         = [String.concat "" (before ++ after)%list
            ++ match results with
               | [] => ""
               | _ => LF ++ LF ++ "搜索结果来自：" ++ LF
                      ++ String.concat LF (map (λ r, r.1 ++ "(" ++ r.2 ++ ")") results)
               end].
Proof.
  unfold Buffered.transcode. rewrite foldl_app.
  destruct (buffered_text_events before
              {| Buffered.data := Buffered.initial model convId now;
                 Buffered.refContent := "" |} "" eq_refl)
    as (v1 & -> & Ha1 & Hr1).
  cbn [foldl]. cbn [mbind Res_bind]. rewrite buffered_search_event.
  rewrite foldl_app.
  destruct (buffered_text_events after
              {| Buffered.data := Buffered.data v1;
                 Buffered.refContent := result_lines results |}
              (String.concat "" before) Ha1)
    as (v2 & -> & Ha2 & Hr2).
  cbn [foldl]. cbn [mbind Res_bind]. rewrite buffered_done_event.
  eexists. split; [reflexivity|].
  rewrite (answer_append v2 _ _ _ Ha2). rewrite Hr2. cbn [Buffered.refContent].
  rewrite concat_empty_app. do 2 f_equal.
  destruct results as [|r results]; [done|].
  rewrite result_lines_joined.
  replace (String.eqb _ "") with false.
  - by rewrite trim_final_newline_snoc.
  - symmetry. apply String.eqb_neq.
    destruct (String.concat LF _); discriminate.
Qed.

End BufferedAnswer.

(** ** The shape of the transcoded stream *)
Section StreamShape.
Import Streaming.

Variables (model convId : string) (created : Z).

Lemma sse_not_DONE (fields : list (string * JSON)) : sse (JObj fields) ≠ DONE.
Proof. unfold sse, DONE. cbn [stringify]. intros H. discriminate H. Qed.

(** What one parsed event does to the output: nothing, one chunk, or one
    chunk and the end. *)
Lemma parser_json_out (result : value) (v v' : Vars) :
  parser_json model convId created result v = Ok v' →
  out v' = out v
  ∨ ∃ fields, out v' = write (sse (JObj fields)) (out v)
              ∨ out v' = end_with DONE (write (sse (JObj fields)) (out v)).
Proof.
  unfold parser_json, mbind, Res_bind, mret, Res_ret. intros H.
  repeat case_match; simplify_eq; cbn [out];
    first [ by left
          | right; eexists; left; reflexivity
          | right; eexists; right; reflexivity ].
Qed.

(** The opening chunk, then chunks none of which is the sentinel, then the
    sentinel exactly when the stream was ended. *)
Local Abbreviation shaped o :=
  (∃ body, (DONE ∉ body)
           ∧ written o
             = opening_chunk model convId created
               :: body ++ (if ended o then [DONE] else [])).

Lemma shaped_write fields o : shaped o → shaped (write (sse (JObj fields)) o).
Proof.
  intros (body & Hbody & Hw). unfold write.
  destruct (closed o); [by exists body|].
  destruct (ended o) eqn:He; cbn [written ended].
  - exists body. by rewrite Hw.
  - exists (body ++ [sse (JObj fields)]). split.
    + intros [?|Hin]%elem_of_app; [done|].
      apply list_elem_of_singleton in Hin. by apply (sse_not_DONE fields).
    + rewrite Hw, !app_nil_r. by rewrite app_comm_cons.
Qed.

Lemma shaped_end o : shaped o → shaped (end_with DONE o).
Proof.
  intros (body & Hbody & Hw). unfold end_with.
  destruct (closed o); [by exists body|].
  destruct (ended o) eqn:He; cbn [written ended].
  - exists body. by rewrite Hw.
  - exists body. split; [done|]. by rewrite Hw, app_nil_r, app_comm_cons.
Qed.

Lemma shaped_on_data parse d v buffer d' v' thrown :
  Frame.on_data (parser model convId created parse) d v buffer = (d', v', thrown) →
  shaped (out v) → shaped (out v').
Proof.
  intros [->|[payload E]]%on_data_parsed Hv; [done|].
  unfold parser in E. destruct (parse payload) as [result|]; [|done].
  apply parser_json_out in E as [->|[fields [->| ->]]]; [done| |].
  - by apply shaped_write.
  - by apply shaped_end, shaped_write.
Qed.

Lemma shaped_step parse t ev :
  shaped (out (vars t)) → shaped (out (vars (step model convId created parse t ev))).
Proof.
  intros Ht. destruct ev as [buffer|e| |]; cbn [step].
  - destruct (Frame.on_data _ _ _ _) as [[d v] thrown] eqn:E. cbn [vars].
    by eapply shaped_on_data.
  - destruct (error_listener t); [|done]. cbn [vars with_out out]. by apply shaped_end.
  - destruct (close_listener t); [|done]. cbn [vars with_out out]. by apply shaped_end.
  - done.
Qed.

(** X9.  Whatever the provider's stream emits and whatever the frames
    hold, what the client is sent is well formed: first the opening chunk,
    then chunks none of which is the sentinel, and the sentinel
    [data: [DONE]] exactly when the stream was ended, once, as the last
    thing written. *)
Theorem X9_client_stream_is_well_formed (parse : JSONParser)
    (events : list StreamEvent) :
  let o := out (vars (createTransStream model convId created parse events)) in
  ∃ body, (DONE ∉ body)
          ∧ written o
            = opening_chunk model convId created
              :: body ++ (if ended o then [DONE] else []).
Proof.
  cbn zeta. unfold createTransStream.
  assert (shaped (out (vars (start model convId created)))) as Hstart.
  { exists []. split; [apply not_elem_of_nil|done]. }
  revert Hstart. generalize (start model convId created).
  induction events as [|ev events IH]; intros t Ht; [done|].
  cbn [foldl]. by apply IH, shaped_step.
Qed.

Lemma closed_write chunk o : closed o = true → write chunk o = o.
Proof. intros H. unfold write. by rewrite H. Qed.

Lemma closed_end_with chunk o : closed o = true → end_with chunk o = o.
Proof. intros H. unfold end_with. by rewrite H. Qed.

Lemma closed_step parse t ev :
  closed (out (vars t)) = true →
  out (vars (step model convId created parse t ev)) = out (vars t).
Proof.
  intros Ht. destruct ev as [buffer|e| |]; cbn [step].
  - destruct (Frame.on_data _ _ _ _) as [[d v] thrown] eqn:E. cbn [vars].
    apply on_data_parsed in E as [->|[payload E]]; [done|].
    unfold parser in E. destruct (parse payload) as [result|]; [|done].
    apply parser_json_out in E as [->|[fields [->| ->]]]; [done| |].
    + by apply closed_write.
    + by rewrite (closed_write _ _ Ht), closed_end_with.
  - destruct (error_listener t); [|done]. cbn [vars with_out out].
    by apply closed_end_with.
  - destruct (close_listener t); [|done]. cbn [vars with_out out].
    by apply closed_end_with.
  - cbn [vars with_out out]. destruct (out (vars t)); cbn in *. by rewrite Ht.
Qed.

(** X10.  Once the consumer has closed the output stream nothing more
    reaches it, whatever arrives from the provider afterwards: no chunk, no
    sentinel, no write after the end. *)
Theorem X10_nothing_written_after_consumer_closed (parse : JSONParser)
    (t : Transcoder) (events : list StreamEvent) :
  closed (out (vars t)) = true →
  out (vars (foldl (step model convId created parse) t events)) = out (vars t).
Proof.
  revert t. induction events as [|ev events IH]; intros t Ht; [done|].
  cbn [foldl]. rewrite IH; rewrite closed_step; done.
Qed.

End StreamShape.

Section StreamShapeExamples.
Import Streaming.
Local Open Scope string_scope.

Lemma X10_nothing_written_after_consumer_closed_witness :
  let parse : JSONParser := λ _, Some (Event.TextEvent "late") in
  let t := createTransStream "step" "conv" 0 parse [consumer_closed] in
  closed (out (vars t)) = true
  ∧ written (out (vars (foldl (step "step" "conv" 0 parse) t
                          [on_data (Frame.frame x00 (Buf.from "x")); on_close])))
    = [opening_chunk "step" "conv" 0]%list.
Proof.
  intros parse t. split; [reflexivity|].
  rewrite (X10_nothing_written_after_consumer_closed "step" "conv" 0 parse t
             [on_data (Frame.frame x00 (Buf.from "x")); on_close] eq_refl).
  reflexivity.
Defined.

End StreamShapeExamples.

(** ** Streams of whole frames *)
Section StreamTexts.
Import Event Streaming.
Local Open Scope string_scope.

Variables (model : string) (convId : value) (created : Z).

Lemma streaming_text_event (text : string) (v : Vars) :
  parser_json model convId created (Some (TextEvent text)) v
  = Ok (if String.eqb text "" then v
        else {| out := write (text_chunk model convId created (JStr text)) (out v);
                endCallbacks := endCallbacks v |}).
Proof.
  unfold parser_json, TextEvent. cbn -[write text_chunk].
  by destruct (String.eqb text "").
Qed.

Lemma streaming_done_event (v : Vars) :
  parser_json model convId created (Some DoneEvent) v
  = Ok {| out := end_with DONE (write (done_chunk model convId created) (out v));
          endCallbacks := S (endCallbacks v) |}.
Proof. reflexivity. Qed.

Lemma streaming_error_event (code message : JSON) (v : Vars) :
  truthy (Some code) = true →
  parser_json model convId created (Some (ErrorEvent code message)) v
  = Ok {| out := end_with DONE
                   (write (error_chunk model convId created (Some code) (Some message))
                          (out v));
          endCallbacks := S (endCallbacks v) |}.
Proof.
  intros Hcode. unfold parser_json, ErrorEvent.
  destruct code; cbn in Hcode; try discriminate Hcode;
    cbn -[error_chunk DONE end_with write]; by rewrite ?Hcode.
Qed.

Lemma streaming_text_events (texts : list string) (v : Vars) :
  closed (out v) = false → ended (out v) = false →
  foldl (λ acc ev, v ← acc; parser_json model convId created (Some ev) v) (Ok v)
        (map TextEvent texts)
  = Ok {| out :=
            {| written :=
                 (written (out v)
                  ++ map (λ text, text_chunk model convId created (JStr text))
                         (filter (λ text, text ≠ "") texts))%list;
               ended := false; closed := false;
               write_after_end := write_after_end (out v) |};
          endCallbacks := endCallbacks v |}.
Proof.
  revert v. induction texts as [|text texts IH]; intros v Hclosed Hended.
  - cbn. rewrite app_nil_r. destruct v as [[] ?]. cbn in *. by subst.
  - cbn [map foldl]. cbn [mbind Res_bind]. rewrite streaming_text_event.
    destruct (String.eqb_spec text "") as [->|Hne].
    + rewrite filter_cons_False by (by intros []). by apply IH.
    + rewrite filter_cons_True by done. rewrite IH.
      * unfold write. rewrite Hclosed, Hended. cbn [out written write_after_end endCallbacks map].
        by rewrite <- app_assoc.
      * cbn [out]. unfold write. by rewrite Hclosed, Hended.
      * cbn [out]. unfold write. by rewrite Hclosed, Hended.
Qed.

(** X11.  For text events followed by the done event the client is sent
    the opening chunk, one chunk per text event with a non-empty text, in
    order, each carrying that text, then the closing chunk and the
    sentinel; the stream is ended and the end callback has been called
    once. *)
Theorem X11_streaming_chunk_per_text (texts : list string) :
  Streaming.transcode model convId created (map TextEvent texts ++ [DoneEvent])%list
  = Ok {| out :=
            {| written :=
                 (opening_chunk model convId created
                  :: map (λ text, text_chunk model convId created (JStr text))
                         (filter (λ text, text ≠ "") texts)
                  ++ [done_chunk model convId created; DONE])%list;
               ended := true; closed := false; write_after_end := false |};
          endCallbacks := 1 |}.
Proof.
  unfold Streaming.transcode. rewrite foldl_app.
  rewrite streaming_text_events by done.
  cbn [foldl]. cbn [mbind Res_bind]. rewrite streaming_done_event.
  cbn -[opening_chunk done_chunk text_chunk DONE filter].
  by rewrite <- app_assoc.
Qed.

End StreamTexts.

(** ** From frames to events *)
Section FramesToEvents.
Local Open Scope string_scope.

Lemma foldl_throw {A B : Type} (f : B → A → Res A) (e : exn) (l : list B) :
  foldl (λ acc x, v ← acc; f x v) (Throw e) l = Throw e.
Proof. by induction l. Qed.

Lemma streaming_frames model convId created (parse : JSONParser) (flag : byte)
    (payloads : list Buffer) (events : list JSON) (t : Streaming.Transcoder)
    (v : Streaming.Vars) :
  Forall2 (λ p ev, (N.of_nat (length p) < 2 ^ 32)%N ∧ parse p = Some ev)
          payloads events →
  Streaming.decoder t = Frame.init →
  foldl (λ acc ev, v ← acc; Streaming.parser_json model convId created (Some ev) v)
        (Ok (Streaming.vars t)) events = Ok v →
  foldl (Streaming.step model convId created parse) t
        (map (λ p, Streaming.on_data (Frame.frame flag p)) payloads)
  = {| Streaming.decoder := Frame.init;
       Streaming.vars := v;
       Streaming.error_listener := Streaming.error_listener t;
       Streaming.close_listener := Streaming.close_listener t;
       Streaming.uncaught := Streaming.uncaught t |}.
Proof.
  intros Hall. revert t.
  induction Hall as [|p ev payloads events [Hp Hev] _ IH]; intros t Ht Hv.
  - cbn in *. injection Hv as <-. destruct t; cbn in *. by subst.
  - cbn [map foldl] in *. cbn [mbind Res_bind] in Hv.
    cbn [Streaming.step]. rewrite Ht.
    rewrite <- (app_nil_r (Frame.frame flag p)).
    rewrite on_data_whole_frame by done.
    unfold Streaming.parser at 1. rewrite Hev.
    destruct (Streaming.parser_json model convId created (Some ev) (Streaming.vars t))
      as [v1|e]; [|by rewrite foldl_throw in Hv].
    rewrite IH; [|done|done]. cbn. by rewrite app_nil_r.
Qed.

Lemma buffered_frames (parse : JSONParser) (flag : byte)
    (payloads : list Buffer) (events : list JSON) (r : Buffered.Receiver)
    (v : Buffered.Vars) :
  Forall2 (λ p ev, (N.of_nat (length p) < 2 ^ 32)%N ∧ parse p = Some ev)
          payloads events →
  Buffered.decoder r = Frame.init →
  foldl (λ acc ev, v ← acc; Buffered.parser_json (Some ev) v)
        (Ok (Buffered.vars r)) events = Ok v →
  foldl (Buffered.step parse) r
        (map (λ p, Buffered.on_data (Frame.frame flag p)) payloads)
  = {| Buffered.decoder := Frame.init;
       Buffered.vars := v;
       Buffered.promise := Buffered.promise r;
       Buffered.uncaught := Buffered.uncaught r |}.
Proof.
  intros Hall. revert r.
  induction Hall as [|p ev payloads events [Hp Hev] _ IH]; intros r Hr Hv.
  - cbn in *. injection Hv as <-. destruct r; cbn in *. by subst.
  - cbn [map foldl] in *. cbn [mbind Res_bind] in Hv.
    cbn [Buffered.step]. rewrite Hr.
    rewrite <- (app_nil_r (Frame.frame flag p)).
    rewrite on_data_whole_frame by done.
    unfold Buffered.parser at 1. rewrite Hev.
    destruct (Buffered.parser_json (Some ev) (Buffered.vars r))
      as [v1|e]; [|by rewrite foldl_throw in Hv].
    rewrite IH; [|done|done]. cbn. by rewrite app_nil_r.
Qed.

(** X12.  When every ['data'] event carries exactly one frame and every
    payload parses, both transcoders do to their variables what their
    parsers do to the parsed events one after the other; no byte is left
    in the decoder and nothing is thrown.  [receiveStream] resolves with
    the result when the stream then closes. *)
Theorem X12_frame_per_event_is_event_by_event (parse : JSONParser) (flag : byte)
    (payloads : list Buffer) (events : list JSON) (model convId : string) (now : Z) :
  Forall2 (λ p ev, (N.of_nat (length p) < 2 ^ 32)%N ∧ parse p = Some ev)
          payloads events →
  (∀ v, Streaming.transcode model convId now events = Ok v →
        Streaming.createTransStream model convId now parse
          (map (λ p, Streaming.on_data (Frame.frame flag p)) payloads)
        = {| Streaming.decoder := Frame.init;
             Streaming.vars := v;
             Streaming.error_listener := true;
             Streaming.close_listener := true;
             Streaming.uncaught := [] |})
  ∧ (∀ v, Buffered.transcode model convId now events = Ok v →
          Buffered.receiveStream parse model convId now
            (map (λ p, Buffered.on_data (Frame.frame flag p)) payloads
             ++ [Buffered.on_close])%list
          = {| Buffered.decoder := Frame.init;
               Buffered.vars := v;
               Buffered.promise := Buffered.Resolved;
               Buffered.uncaught := [] |}).
Proof.
  intros Hall. split; intros v Hv.
  - unfold Streaming.createTransStream.
    by rewrite (streaming_frames _ _ _ _ _ _ _ _ v Hall).
  - unfold Buffered.receiveStream. rewrite foldl_app.
    by rewrite (buffered_frames _ _ _ _ _ v Hall).
Qed.

Lemma X12_frame_per_event_is_event_by_event_witness :
  let parse : JSONParser :=
    λ p, if (length p =? 1)%nat then Some (Event.TextEvent "Hi")
         else Some Event.DoneEvent in
  let payloads := [Buf.from "t"; Buf.from "{}"] in
  Forall2 (λ p ev, (N.of_nat (length p) < 2 ^ 32)%N ∧ parse p = Some ev)
          payloads [Event.TextEvent "Hi"; Event.DoneEvent]
  ∧ Buffered.resolved
      (Buffered.receiveStream parse "step" "conv" 0
         (map (λ p, Buffered.on_data (Frame.frame x00 p)) payloads
          ++ [Buffered.on_close])%list)
    = Some {| Buffered.id := "conv"; Buffered.model := "step";
              Buffered.object := "chat.completion";
              Buffered.choices :=
                [ {| Buffered.index := 0;
                     Buffered.message := {| Buffered.role := "assistant";
                                            Buffered.content := "Hi" |};
                     Buffered.finish_reason := "stop" |} ];
              Buffered.usage := {| Buffered.prompt_tokens := 1;
                                   Buffered.completion_tokens := 1;
                                   Buffered.total_tokens := 2 |};
              Buffered.created := 0 |}.
Proof.
  intros parse payloads.
  assert (Forall2 (λ p ev, (N.of_nat (length p) < 2 ^ 32)%N ∧ parse p = Some ev)
            payloads [Event.TextEvent "Hi"; Event.DoneEvent]) as Hall
    by (repeat constructor).
  split; [exact Hall|].
  rewrite (proj2 (X12_frame_per_event_is_event_by_event parse x00 payloads _
                    "step" "conv" 0 Hall) _ eq_refl).
  reflexivity.
Defined.

End FramesToEvents.

(** ** A request and its conversation *)
Section Sessions.
Import Session.
Local Open Scope string_scope.

Lemma bind_returned {A B : Type} (m : M A) (f : A → M B) s s' a :
  m s = (s', Upload.Returned a) → (m ≫= f) s = f a s'.
Proof. intros H. unfold mbind, M_bind. by rewrite H. Qed.

Lemma bind_raised {A B : Type} (m : M A) (f : A → M B) s s' e :
  m s = (s', Upload.Raised e) → (m ≫= f) s = (s', Upload.Raised e).
Proof. intros H. unfold mbind, M_bind. by rewrite H. Qed.

Lemma bind_awaiting {A B : Type} (m : M A) (f : A → M B) s s' :
  m s = (s', Upload.Awaiting) → (m ≫= f) s = (s', Upload.Awaiting).
Proof. intros H. unfold mbind, M_bind. by rewrite H. Qed.

Lemma acquireToken_run w k s :
  acquireToken w k s
  = ({| log := log s ++ [ACQUIRE k]; cache := (acquire w (log s) k (cache s)).1 |},
     match (acquire w (log s) k (cache s)).2 with
     | Ok a => Upload.Returned a
     | Throw e => Upload.Raised e
     end).
Proof. unfold acquireToken. by destruct (acquire w (log s) k (cache s)) as [m [a|e]]. Qed.

(** The calls that do not remove a conversation leave the removals in the
    log as they are. *)
Local Abbreviation keeps s s' :=
  (filter (λ r, is_removal r = true) (log s')
   = filter (λ r, is_removal r = true) (log s)).

Lemma keeps_bind {A B : Type} (m : M A) (f : A → M B) s :
  (∀ s, keeps s (m s).1) → (∀ a s, keeps s (f a s).1) → keeps s ((m ≫= f) s).1.
Proof.
  intros Hm Hf. unfold mbind, M_bind. specialize (Hm s).
  destruct (m s) as [s1 [a| |]]; [|done..].
  cbn in Hm. by rewrite Hf.
Qed.

Lemma keeps_request r s : is_removal r = false → keeps s (request r s).1.
Proof.
  intros Hr. cbn. rewrite filter_app, filter_cons_False, filter_nil, app_nil_r; [done|].
  by rewrite Hr.
Qed.

Lemma keeps_lift {A : Type} (r : Res A) s : keeps s (lift r s).1.
Proof. by destruct r. Qed.

Lemma keeps_acquireToken w k s : keeps s (acquireToken w k s).1.
Proof.
  rewrite acquireToken_run. cbn.
  by rewrite filter_app, filter_cons_False, filter_nil, app_nil_r.
Qed.

Lemma keeps_checkResult result k s : keeps s (Session.checkResult result k s).1.
Proof.
  unfold Session.checkResult. destruct (Lease.checkResult _ _ _) as [m r].
  by destruct r.
Qed.

Lemma keeps_createConversation w name k s : keeps s (createConversation w name k s).1.
Proof.
  unfold createConversation.
  apply keeps_bind; [intros; apply keeps_acquireToken|]. intros a s1.
  apply keeps_bind; [by intros; apply keeps_request|]. intros _ s2.
  apply keeps_bind; [intros; apply keeps_lift|]. intros result s3.
  apply keeps_bind; [intros; apply keeps_checkResult|]. intros body s4.
  apply keeps_lift.
Qed.

Lemma keeps_uploads w urls k s : keeps s (uploads w urls k s).1.
Proof.
  unfold uploads. destruct urls as [|u urls]; [done|].
  assert (∀ l, filter (λ r, is_removal r = true) (map (λ u, UPLOAD u k) l) = []) as H.
  { induction l as [|u' l IH]; [done|]. cbn [map]. by rewrite filter_cons_False. }
  destruct (uploading w _ _ _) as [m settled]. cbn [fst log].
  by rewrite filter_app, H, app_nil_r.
Qed.

Lemma keeps_open_stream w messages k s : keeps s (open_stream w messages k s).1.
Proof.
  unfold open_stream.
  apply keeps_bind; [intros; apply keeps_lift|]. intros urls s1.
  apply keeps_bind; [intros; apply keeps_uploads|]. intros refs s2.
  apply keeps_bind; [intros; apply keeps_createConversation|]. intros convId s3.
  apply keeps_bind; [intros; apply keeps_acquireToken|]. intros a s4.
  apply keeps_bind; [intros; apply keeps_lift|]. intros body s5.
  apply keeps_bind; [by intros; apply keeps_request|]. intros _ s6.
  apply keeps_bind; [intros; apply keeps_lift|]. intros events s7.
  done.
Qed.

Lemma removeConversation_log w convId k s :
  log (removeConversation w convId k s).1
  = (log s ++ ACQUIRE k
       :: match (acquire w (log s) k (cache s)).2 with
          | Ok a => [DelChat (generateCookie (Lease.acq_deviceId a) (Lease.token a))
                             (webid w) convId]
          | Throw _ => []
          end)%list.
Proof.
  unfold removeConversation. unfold mbind at 1. unfold M_bind.
  rewrite acquireToken_run. destruct (acquire w (log s) k (cache s)) as [m [a|e]]; [|done].
  unfold mbind, M_bind. cbn [request log cache fst snd].
  destruct (post w _) as [result|e]; cbn [lift mret M_ret raise].
  - unfold Session.checkResult. cbn [log cache].
    destruct (Lease.checkResult _ _ _) as [m' [body|e]]; cbn; by rewrite <- app_assoc.
  - cbn. by rewrite <- app_assoc.
Qed.

(** X13.  [createCompletion] removes the conversation only after the
    answer is complete.  When it returns, the answer is the completion
    [receiveStream] resolved with for the conversation id as
    [createConversation] returned it, and after the stream exactly one
    removal was started, for that conversation: a token is acquired and,
    if that succeeds, one DelChat request is sent, with the Oasis-Webid of
    [FAKE_HEADERS]; whether that request succeeds has no effect on the
    answer.  When it throws, or never settles, no DelChat request was sent
    at all. *)
Theorem X13_conversation_removed_after_answer_only (w : World) (model : string)
    (messages : list JSON) (k : string) (s : St) :
  let '(s', outcome) := createCompletion w model messages k s in
  match outcome with
  | Upload.Returned answer =>
      ∃ s1 convId events,
        open_stream w messages k s = (s1, Upload.Returned (convId, events))
        ∧ Buffered.resolved
            (Buffered.receiveStream (parse w) model convId (now w)
               (map buffered_event events)) = Some answer
        ∧ log s'
          = (log s1 ++ ACQUIRE k
               :: match (acquire w (log s1) k (cache s1)).2 with
                  | Ok a =>
                      [DelChat (generateCookie (Lease.acq_deviceId a) (Lease.token a))
                               (webid w) convId]
                  | Throw _ => []
                  end)%list
  | _ =>
      filter (λ r, is_removal r = true) (log s')
      = filter (λ r, is_removal r = true) (log s)
  end.
Proof.
  unfold createCompletion. unfold mbind at 1. unfold M_bind.
  pose proof (keeps_open_stream w messages k s) as Hopen.
  destruct (open_stream w messages k s) as [s1 [[convId events]| |]]; [|done..].
  cbn [fst] in Hopen. unfold mbind at 1. unfold M_bind. unfold receive.
  unfold Buffered.resolved.
  destruct (Buffered.promise _) eqn:Hp; cbn [raise mret M_ret];
    [exact Hopen| |exact Hopen].
  unfold mbind, M_bind. cbn [detached].
  exists s1, convId, events. split; [done|]. split; [by rewrite Hp|].
  apply removeConversation_log.
Qed.

Lemma createConversation_run w name k s m a result :
  acquire w (log s) k (cache s) = (m, Ok a) →
  post w (CreateChat (generateCookie (Lease.acq_deviceId a) (Lease.token a))
                     (webid w) name) = Ok result →
  createConversation w name k s
  = (body ← Session.checkResult result k;
     lift (destructure body "checkResult(...)" "chatId"))
      {| log := log s
                ++ [ACQUIRE k;
                    CreateChat (generateCookie (Lease.acq_deviceId a) (Lease.token a))
                               (webid w) name];
         cache := m |}.
Proof.
  intros Ha Hpost. unfold createConversation. unfold mbind at 1. unfold M_bind at 1.
  rewrite acquireToken_run, Ha. cbn [fst snd].
  unfold mbind at 1. unfold M_bind at 1. cbn [request log cache].
  unfold mbind at 1. unfold M_bind at 1. rewrite Hpost. cbn [lift mret M_ret].
  by rewrite <- app_assoc.
Qed.

(** X14.  The outcomes of [createConversation] once the token is acquired
    and CreateChat is answered; the request carries the Oasis-Webid of
    [FAKE_HEADERS].  An empty (falsy) body makes it throw a TypeError,
    since [checkResult] returns [null] and [chatId] is destructured from
    it.  A body with a string [code] makes it throw the request-failed
    exception carrying the body's [message], and the lease is dropped
    exactly when the code is [unauthenticated].  Any other object is
    accepted and its [chatId] returned, also when it has none: the
    conversation id is then [undefined]. *)
Theorem X14_createConversation_outcomes (w : World) (name k : string) (s : St)
    (m : gmap string Lease.Entry) (a : Lease.Acquired) (result : AxiosResponse) :
  acquire w (log s) k (cache s) = (m, Ok a) →
  post w (CreateChat (generateCookie (Lease.acq_deviceId a) (Lease.token a))
                     (webid w) name) = Ok result →
  let sent := (log s
               ++ [ACQUIRE k;
                   CreateChat (generateCookie (Lease.acq_deviceId a) (Lease.token a))
                              (webid w) name])%list in
  (truthy (data result) = false →
   ∃ what, createConversation w name k s
           = ({| log := sent; cache := m |}, Upload.Raised (TypeError what)))
  ∧ (∀ fields code,
       data result = Some (JObj fields) →
       lookup_field fields "code" = Some (JStr code) →
       createConversation w name k s
       = ({| log := sent;
             cache := if String.eqb code "unauthenticated" then delete k m else m |},
          Upload.Raised
            (APIException API_REQUEST_FAILED
               ("[请求step失败]: " ++ show (lookup_field fields "message")))))
  ∧ (∀ fields,
       data result = Some (JObj fields) →
       isString (lookup_field fields "code") = false →
       createConversation w name k s
       = ({| log := sent; cache := m |},
          Upload.Returned (lookup_field fields "chatId"))).
Proof.
  intros Ha Hpost sent. rewrite (createConversation_run w name k s m a result) by done.
  fold sent. unfold mbind, M_bind, Session.checkResult, Lease.checkResult.
  cbn [log cache]. split; [|split].
  - intros ->. by eexists.
  - intros fields code -> Hcode. cbn. rewrite Hcode. cbn.
    by destruct (String.eqb code "unauthenticated").
  - intros fields -> Hcode. cbn. by rewrite Hcode.
Qed.

Lemma X14_createConversation_outcomes_witness :
  let a := {| Lease.acq_deviceId := Some (JStr "d"); Lease.token := "a...r" |} in
  let w := {| acquire := λ _ _ m, (m, Ok a);
              uploading := λ _ _ m, (m, Upload.Awaiting);
              post := λ _, Ok (body_response (Some (JObj [("status", JStr "ok")])));
              stream := λ _, Ok [];
              parse := λ _, None;
              now := 0;
              webid := "f1e2" |} in
  createConversation w "新会话" "k" {| log := []; cache := ∅ |}
  = ({| log := [ACQUIRE "k";
                CreateChat "Oasis-Token=a...r; Oasis-Webid=d" "f1e2" "新会话"];
        cache := ∅ |},
     Upload.Returned undefined).
Proof.
  intros a w.
  destruct (X14_createConversation_outcomes w "新会话" "k" {| log := []; cache := ∅ |} ∅ a
              (body_response (Some (JObj [("status", JStr "ok")]))) eq_refl eq_refl)
    as (_ & _ & Haccepted).
  exact (Haccepted [("status", JStr "ok")] eq_refl eq_refl).
Defined.

(** X15.  Attachments are uploaded before anything else.  When the last
    message names files and [Promise.all] over their uploads rejects,
    [createCompletion] and [createCompletionStream] throw that rejection
    having called [uploadFile] for every one of the files and nothing
    else: no conversation is created, no token is acquired by the two
    functions themselves, no message is sent.  [accessTokenMap] is then as
    the uploads left it.  When [Promise.all] never settles, neither do
    they. *)
Theorem X15_failed_upload_creates_no_conversation (w : World) (model : string)
    (messages : list JSON) (k : string) (s : St) (urls : list string)
    (m : gmap string Lease.Entry) (settled : Upload.Out (list JSON)) :
  Prepare.extractRefFileUrls messages = Ok urls →
  urls ≠ [] →
  uploading w urls k (cache s) = (m, settled) →
  let s' := {| log := log s ++ map (λ u, UPLOAD u k) urls; cache := m |} in
  (∀ e, settled = Upload.Raised e →
        createCompletion w model messages k s = (s', Upload.Raised e)
        ∧ createCompletionStream w model messages k s = (s', Upload.Raised e))
  ∧ (settled = Upload.Awaiting →
     createCompletion w model messages k s = (s', Upload.Awaiting)
     ∧ createCompletionStream w model messages k s = (s', Upload.Awaiting)).
Proof.
  intros Hurls Hsome Hup s'.
  assert (open_stream w messages k s
          = (s', match settled with
                 | Upload.Returned refs =>
                     Upload.Returned (undefined, [])
                 | Upload.Raised e => Upload.Raised e
                 | Upload.Awaiting => Upload.Awaiting
                 end)
          ∨ ∃ refs, settled = Upload.Returned refs) as [Hopen|[refs ->]].
  { destruct settled as [refs|e|]; [right; by eexists|left..].
    - unfold open_stream. unfold mbind at 1. unfold M_bind at 1. rewrite Hurls.
      cbn [lift mret M_ret]. unfold mbind at 1. unfold M_bind at 1.
      unfold uploads. destruct urls; [done|]. by rewrite Hup.
    - unfold open_stream. unfold mbind at 1. unfold M_bind at 1. rewrite Hurls.
      cbn [lift mret M_ret]. unfold mbind at 1. unfold M_bind at 1.
      unfold uploads. destruct urls; [done|]. by rewrite Hup. }
  - split.
    + intros e ->. split.
      * unfold createCompletion. by rewrite (bind_raised _ _ _ _ _ Hopen).
      * unfold createCompletionStream. by rewrite (bind_raised _ _ _ _ _ Hopen).
    + intros ->. split.
      * unfold createCompletion. by rewrite (bind_awaiting _ _ _ _ Hopen).
      * unfold createCompletionStream. by rewrite (bind_awaiting _ _ _ _ Hopen).
  - split; [intros e He|intros He]; discriminate He.
Qed.

Lemma X15_failed_upload_creates_no_conversation_witness :
  let rejected := APIException API_FILE_URL_INVALID "gone" in
  let w := {| acquire := λ _ _ m, (m, Throw (Error "unused"));
              uploading := λ _ k m, (delete k m, Upload.Raised rejected);
              post := λ _, Throw (Error "unused");
              stream := λ _, Throw (Error "unused");
              parse := λ _, None;
              now := 0;
              webid := "f1e2" |} in
  let messages :=
    [Chat.turn_json {| Chat.role := Some "user";
                       Chat.content := Chat.Parts [Chat.TextPart "see";
                                                   Chat.FilePart "https://e.com/a.pdf"] |}] in
  createCompletion w "step" messages "k" {| log := []; cache := ∅ |}
  = ({| log := [UPLOAD "https://e.com/a.pdf" "k"]; cache := delete "k" ∅ |},
     Upload.Raised rejected).
Proof.
  intros rejected w messages.
  refine (proj1 (proj1 (X15_failed_upload_creates_no_conversation w "step" messages "k"
                          {| log := []; cache := ∅ |} ["https://e.com/a.pdf"] _ _
                          eq_refl _ eq_refl) rejected eq_refl)).
  discriminate.
Defined.

Lemma createConversation_returned w name k s s1 convId :
  createConversation w name k s = (s1, Upload.Returned convId) →
  ∃ a, log s1
       = (log s
          ++ [ACQUIRE k;
              CreateChat (generateCookie (Lease.acq_deviceId a) (Lease.token a))
                         (webid w) name])%list.
Proof.
  unfold createConversation. unfold mbind at 1. unfold M_bind at 1.
  rewrite acquireToken_run. destruct (acquire w (log s) k (cache s)) as [m [a|e]]; [|done].
  cbn [fst snd].
  unfold mbind at 1. unfold M_bind at 1. cbn [request log cache].
  unfold mbind at 1. unfold M_bind at 1.
  destruct (post w _) as [result|e]; cbn [lift mret M_ret raise]; [|done].
  unfold mbind, M_bind, Session.checkResult. cbn [log cache].
  destruct (Lease.checkResult _ _ _) as [m' [body|e]]; cbn [lift mret M_ret raise]; [|done].
  destruct (destructure body _ _); cbn; [|done].
  intros [= <- _]. exists a. cbn. by rewrite <- app_assoc.
Qed.

(** X16.  An empty message list is rejected only after a conversation has
    been created: [createCompletion] and [createCompletionStream] create
    the conversation, acquire a token, and then throw the TypeError of
    [messagesPrepare] reading the last message; no SendMessageStream
    request is sent, and none that removes the conversation. *)
Theorem X16_empty_messages_leave_a_conversation (w : World) (model k : string)
    (s s1 : St) (convId : value) (m : gmap string Lease.Entry) (a : Lease.Acquired) :
  createConversation w "新会话" k s = (s1, Upload.Returned convId) →
  acquire w (log s1) k (cache s1) = (m, Ok a) →
  let s' := {| log := log s1 ++ [ACQUIRE k]; cache := m |} in
  let thrown :=
    TypeError "Cannot read properties of undefined (reading 'content')" in
  (∃ a0, log s'
         = (log s
            ++ [ACQUIRE k;
                CreateChat (generateCookie (Lease.acq_deviceId a0) (Lease.token a0))
                           (webid w) "新会话";
                ACQUIRE k])%list)
  ∧ createCompletion w model [] k s = (s', Upload.Raised thrown)
  ∧ createCompletionStream w model [] k s = (s', Upload.Raised thrown).
Proof.
  intros Hconv Ha s' thrown.
  assert (open_stream w [] k s = (s', Upload.Raised thrown)) as Hopen.
  { unfold open_stream. unfold mbind at 1. unfold M_bind at 1.
    cbn [Prepare.extractRefFileUrls last lift mret M_ret].
    unfold mbind at 1. unfold M_bind at 1. unfold uploads.
    cbn [mret M_ret].
    unfold mbind at 1. unfold M_bind at 1. rewrite Hconv.
    unfold mbind at 1. unfold M_bind at 1. rewrite acquireToken_run, Ha.
    reflexivity. }
  split; [|split].
  - apply createConversation_returned in Hconv as (a0 & Hlog).
    exists a0. subst s'. cbn [log]. rewrite Hlog. by rewrite <- app_assoc.
  - unfold createCompletion. by rewrite (bind_raised _ _ _ _ _ Hopen).
  - unfold createCompletionStream. by rewrite (bind_raised _ _ _ _ _ Hopen).
Qed.

Lemma X16_empty_messages_leave_a_conversation_witness :
  let a := {| Lease.acq_deviceId := Some (JStr "d"); Lease.token := "a...r" |} in
  let w := {| acquire := λ _ _ m, (m, Ok a);
              uploading := λ _ _ m, (m, Upload.Awaiting);
              post := λ _, Ok (body_response (Some (JObj [("chatId", JStr "c1")])));
              stream := λ _, Ok [];
              parse := λ _, None;
              now := 0;
              webid := "f1e2" |} in
  createCompletion w "step" [] "k" {| log := []; cache := ∅ |}
  = ({| log := [ACQUIRE "k";
                CreateChat "Oasis-Token=a...r; Oasis-Webid=d" "f1e2" "新会话";
                ACQUIRE "k"];
        cache := ∅ |},
     Upload.Raised (TypeError "Cannot read properties of undefined (reading 'content')")).
Proof.
  intros a w.
  exact (proj1 (proj2 (X16_empty_messages_leave_a_conversation w "step" "k"
                         {| log := []; cache := ∅ |} _ (Some (JStr "c1")) ∅ a
                         eq_refl eq_refl))).
Defined.

End Sessions.

(** ** A streamed request and its conversation *)
Section StreamedSessions.
Import Session Event.

Lemma text_frames (parse : JSONParser) (payloads : list Buffer) (texts : list string) :
  Forall2 (λ p text, (N.of_nat (length p) < 2 ^ 32)%N
                     ∧ parse p = Some (TextEvent text)) payloads texts →
  Forall2 (λ p ev, (N.of_nat (length p) < 2 ^ 32)%N ∧ parse p = Some ev)
          payloads (map TextEvent texts).
Proof. intros H. by apply Forall2_fmap_r. Qed.

(** Text frames followed by the frame of an event at which the parser
    writes a last chunk, ends the output and calls [endCallback]. *)
Lemma createCompletionStream_terminal (w : World) (model : string)
    (messages : list JSON) (k : string) (s s1 : St) (convId : value) (flag : byte)
    (payloads : list Buffer) (texts : list string) (d : Buffer) (ev : JSON)
    (last_chunk : string) :
  Forall2 (λ p text, (N.of_nat (length p) < 2 ^ 32)%N
                     ∧ parse w p = Some (TextEvent text)) payloads texts →
  (N.of_nat (length d) < 2 ^ 32)%N →
  parse w d = Some ev →
  (∀ v, Streaming.parser_json model convId (now w) (Some ev) v
        = Ok {| Streaming.out :=
                  Streaming.end_with Streaming.DONE
                    (Streaming.write last_chunk (Streaming.out v));
                Streaming.endCallbacks := S (Streaming.endCallbacks v) |}) →
  open_stream w messages k s
  = (s1, Upload.Returned
           (convId, map (λ p, data_chunk (Frame.frame flag p)) payloads
                    ++ [data_chunk (Frame.frame flag d)])) →
  ∃ t s', createCompletionStream w model messages k s = (s', Upload.Returned t)
          ∧ Streaming.written (Streaming.out (Streaming.vars t))
            = Streaming.opening_chunk model convId (now w)
              :: map (λ text, Streaming.text_chunk model convId (now w) (JStr text))
                     (filter (λ text, text ≠ ""%string) texts)
              ++ [last_chunk; Streaming.DONE]
          ∧ Streaming.ended (Streaming.out (Streaming.vars t)) = true
          ∧ log s'
            = log s1 ++ ACQUIRE k
                :: match (acquire w (log s1) k (cache s1)).2 with
                   | Ok a =>
                       [DelChat (generateCookie (Lease.acq_deviceId a) (Lease.token a))
                                (webid w) convId]
                   | Throw _ => []
                   end.
Proof.
  intros Hall Hd Hev Hlast Hopen.
  pose proof (streaming_text_events model convId (now w) texts
                (Streaming.vars (Streaming.start model convId (now w)))
                eq_refl eq_refl) as Htexts.
  unfold createCompletionStream.
  rewrite (bind_returned _ _ _ _ _ Hopen); cbn beta iota.
  unfold Streaming.createTransStream. rewrite map_app, map_map.
  change (map streaming_event [data_chunk (Frame.frame flag d)])
    with (map (λ p, Streaming.on_data (Frame.frame flag p)) [d]).
  change (map (λ x, streaming_event (data_chunk (Frame.frame flag x))) payloads)
    with (map (λ p, Streaming.on_data (Frame.frame flag p)) payloads).
  rewrite <- map_app.
  eassert (foldl (λ acc ev, v ← acc;
                    Streaming.parser_json model convId (now w) (Some ev) v)
                 (Ok (Streaming.vars (Streaming.start model convId (now w))))
                 (map TextEvent texts ++ [ev]) = Ok _) as Hfold.
  { rewrite foldl_app, Htexts. cbn [foldl]. cbn [mbind Res_bind]. apply Hlast. }
  assert (Forall2 (λ p ev, (N.of_nat (length p) < 2 ^ 32)%N ∧ parse w p = Some ev)
            (payloads ++ [d]) (map TextEvent texts ++ [ev])) as Hboth.
  { apply Forall2_app; [by apply text_frames|]. by repeat constructor. }
  rewrite (streaming_frames _ _ _ _ flag (payloads ++ [d])
             (map TextEvent texts ++ [ev])
             (Streaming.start model convId (now w)) _
             Hboth eq_refl Hfold).
  cbn [Streaming.vars Streaming.endCallbacks removals].
  unfold mbind, M_bind. cbn [detached mret M_ret].
  eexists _, _. split; [reflexivity|]. split; [|split; [reflexivity|]].
  - cbn -[Streaming.opening_chunk Streaming.text_chunk Streaming.DONE filter].
    by rewrite <- ?app_assoc.
  - apply removeConversation_log.
Qed.

(** X17.  In a streamed completion the conversation is removed when the
    provider's done event or an error event arrives, and not when the
    stream merely closes.  When the provider sends text frames and then
    closes the stream, the client is sent the text chunks and the sentinel,
    and no removal is started: the conversation stays.  When the text
    frames are followed by a done frame, the client is sent the closing
    chunk and the sentinel, and one removal is started: a token is acquired
    and, if that succeeds, one DelChat request is sent.  When they are
    followed by the frame of an error event with a truthy code, the client
    is sent the chunk with the notice and the sentinel, and one removal is
    started in the same way. *)
Theorem X17_conversation_removed_on_done_or_error_event (w : World) (model : string)
    (messages : list JSON) (k : string) (s s1 : St) (convId : value) (flag : byte)
    (payloads : list Buffer) (texts : list string) (d : Buffer) :
  Forall2 (λ p text, (N.of_nat (length p) < 2 ^ 32)%N
                     ∧ parse w p = Some (TextEvent text)) payloads texts →
  (N.of_nat (length d) < 2 ^ 32)%N →
  let chunks := map (λ p, data_chunk (Frame.frame flag p)) payloads in
  let sent :=
    map (λ text, Streaming.text_chunk model convId (now w) (JStr text))
        (filter (λ text, text ≠ ""%string) texts) in
  let removal :=
    ACQUIRE k
    :: match (acquire w (log s1) k (cache s1)).2 with
       | Ok a =>
           [DelChat (generateCookie (Lease.acq_deviceId a) (Lease.token a))
                    (webid w) convId]
       | Throw _ => []
       end in
  (open_stream w messages k s
   = (s1, Upload.Returned (convId, chunks ++ [stream_close])) →
   ∃ t, createCompletionStream w model messages k s = (s1, Upload.Returned t)
        ∧ Streaming.written (Streaming.out (Streaming.vars t))
          = Streaming.opening_chunk model convId (now w) :: sent ++ [Streaming.DONE]
        ∧ Streaming.ended (Streaming.out (Streaming.vars t)) = true)
  ∧ (parse w d = Some DoneEvent →
     open_stream w messages k s
     = (s1, Upload.Returned (convId, chunks ++ [data_chunk (Frame.frame flag d)])) →
     ∃ t s', createCompletionStream w model messages k s = (s', Upload.Returned t)
             ∧ Streaming.written (Streaming.out (Streaming.vars t))
               = Streaming.opening_chunk model convId (now w)
                 :: sent ++ [Streaming.done_chunk model convId (now w); Streaming.DONE]
             ∧ Streaming.ended (Streaming.out (Streaming.vars t)) = true
             ∧ log s' = log s1 ++ removal)
  ∧ (∀ code message,
       parse w d = Some (ErrorEvent code message) →
       truthy (Some code) = true →
       open_stream w messages k s
       = (s1, Upload.Returned (convId, chunks ++ [data_chunk (Frame.frame flag d)])) →
       ∃ t s', createCompletionStream w model messages k s = (s', Upload.Returned t)
               ∧ Streaming.written (Streaming.out (Streaming.vars t))
                 = Streaming.opening_chunk model convId (now w)
                   :: sent ++ [Streaming.error_chunk model convId (now w)
                                 (Some code) (Some message);
                               Streaming.DONE]
               ∧ Streaming.ended (Streaming.out (Streaming.vars t)) = true
               ∧ log s' = log s1 ++ removal).
Proof.
  intros Hall Hd chunks sent removal. split; [|split].
  - intros Hopen.
    pose proof (streaming_text_events model convId (now w) texts
                  (Streaming.vars (Streaming.start model convId (now w)))
                  eq_refl eq_refl) as Htexts.
    unfold createCompletionStream.
    rewrite (bind_returned _ _ _ _ _ Hopen); cbn beta iota.
    unfold Streaming.createTransStream. rewrite map_app. unfold chunks.
    rewrite map_map.
    change (map (λ x, streaming_event (data_chunk (Frame.frame flag x))) payloads)
      with (map (λ p, Streaming.on_data (Frame.frame flag p)) payloads).
    rewrite foldl_app.
    rewrite (streaming_frames _ _ _ _ flag payloads (map TextEvent texts)
               (Streaming.start model convId (now w)) _
               (text_frames _ _ _ Hall) eq_refl Htexts).
    eexists. split; [reflexivity|]. split; reflexivity.
  - intros Hdone Hopen.
    apply (createCompletionStream_terminal w model messages k s s1 convId flag
             payloads texts d DoneEvent _ Hall Hd Hdone); [|exact Hopen].
    intros v. apply streaming_done_event.
  - intros code message Herror Hcode Hopen.
    apply (createCompletionStream_terminal w model messages k s s1 convId flag
             payloads texts d (ErrorEvent code message) _ Hall Hd Herror); [|exact Hopen].
    intros v. by apply streaming_error_event.
Qed.

Lemma X17_conversation_removed_on_done_or_error_event_witness :
  let a := {| Lease.acq_deviceId := Some (JStr "d"); Lease.token := "a...r"%string |} in
  let w := {| acquire := λ _ _ m, (m, Ok a);
              uploading := λ _ _ m, (m, Upload.Awaiting);
              post := λ _, Ok (body_response (Some (JObj [("chatId"%string, JStr "c1")])));
              stream := λ _, Ok [data_chunk (Frame.frame x00 (Buf.from "t"));
                                 data_chunk (Frame.frame x00 (Buf.from "{}"))];
              parse := λ p, if (length p =? 1)%nat then Some (TextEvent "Hi")
                            else Some (ErrorEvent (JStr "internal") (JStr "overloaded"));
              now := 0;
              webid := "f1e2"%string |} in
  let messages := [Chat.turn_json {| Chat.role := Some "user"%string;
                                     Chat.content := Chat.Plain "hello" |}] in
  let s := {| log := []; cache := ∅ |} in
  Forall2 (λ p text, (N.of_nat (length p) < 2 ^ 32)%N
                     ∧ parse w p = Some (TextEvent text)) [Buf.from "t"] ["Hi"%string]
  ∧ ∃ t s', createCompletionStream w "step" messages "k" s = (s', Upload.Returned t)
            ∧ Streaming.written (Streaming.out (Streaming.vars t))
              = [Streaming.opening_chunk "step" "c1" 0;
                 Streaming.text_chunk "step" "c1" 0 (JStr "Hi");
                 Streaming.error_chunk "step" "c1" 0
                   (Some (JStr "internal")) (Some (JStr "overloaded"));
                 Streaming.DONE]
            ∧ filter (λ r, is_removal r = true) (log s')
              = [DelChat "Oasis-Token=a...r; Oasis-Webid=d" "f1e2" (Some (JStr "c1"))].
Proof.
  intros a w messages s.
  assert (Forall2 (λ p text, (N.of_nat (length p) < 2 ^ 32)%N
                             ∧ parse w p = Some (TextEvent text))
            [Buf.from "t"] ["Hi"%string]) as Hall by (repeat constructor).
  split; [exact Hall|].
  destruct (X17_conversation_removed_on_done_or_error_event w "step" messages "k" s
              (open_stream w messages "k" s).1 (Some (JStr "c1")) x00
              [Buf.from "t"] ["Hi"%string] (Buf.from "{}") Hall eq_refl)
    as (_ & _ & Herror).
  destruct (Herror (JStr "internal") (JStr "overloaded") eq_refl eq_refl eq_refl)
    as (t & s' & Hrun & Hwritten & _ & Hlog).
  exists t, s'. split; [exact Hrun|]. split; [exact Hwritten|].
  rewrite Hlog. reflexivity.
Defined.

End StreamedSessions.

(** ** tokenSplit *)
Section Tokens.
Import Token.
Local Open Scope string_scope.

Lemma split_nonempty (sep : ascii) (s : string) : split sep s ≠ []%list.
Proof.
  induction s as [|c s IH]; [done|]. cbn [split].
  destruct (Ascii.eqb c sep); [done|]. by destruct (split sep s).
Qed.

Lemma concat_cons_cons (sep s1 s2 : string) (l : list string) :
  String.concat sep (s1 :: s2 :: l) = s1 ++ sep ++ String.concat sep (s2 :: l).
Proof. reflexivity. Qed.

(** Joining the pieces with the separator gives the string back. *)
Lemma concat_split (sep : ascii) (s : string) :
  String.concat (String sep "") (split sep s) = s.
Proof.
  induction s as [|c s IH]; [done|]. cbn [split].
  pose proof (split_nonempty sep s) as Hne.
  destruct (Ascii.eqb_spec c sep) as [->|_].
  - destruct (split sep s) as [|piece pieces]; [done|].
    rewrite concat_cons_cons, IH. reflexivity.
  - destruct (split sep s) as [|piece [|piece' pieces]]; [done| |].
    + cbn in *. by rewrite IH.
    + rewrite concat_cons_cons in *.
      change (String c piece ++ String sep "" ++ String.concat (String sep "") (piece' :: pieces))
        with (String c (piece ++ String sep "" ++ String.concat (String sep "") (piece' :: pieces))).
      by rewrite IH.
Qed.

Lemma split_piece (sep : ascii) (piece : string) :
  occurs sep piece = false → split sep piece = [piece]%list.
Proof.
  induction piece as [|c piece IH]; [done|]. cbn [occurs split].
  intros [Hc Hrest]%orb_false_elim. rewrite Hc, IH by done. reflexivity.
Qed.

Lemma split_piece_sep (sep : ascii) (piece rest : string) :
  occurs sep piece = false →
  split sep (piece ++ String sep rest) = (piece :: split sep rest)%list.
Proof.
  induction piece as [|c piece IH]; cbn [occurs].
  - intros _. change ("" ++ String sep rest) with (String sep rest).
    cbn [split]. by rewrite Ascii.eqb_refl.
  - intros [Hc Hrest]%orb_false_elim.
    change (String c piece ++ String sep rest) with (String c (piece ++ String sep rest)).
    cbn [split]. rewrite Hc, IH by done. reflexivity.
Qed.

Lemma split_concat (sep : ascii) (token : string) (tokens : list string) :
  Forall (λ t, occurs sep t = false) (token :: tokens) →
  split sep (String.concat (String sep "") (token :: tokens)) = (token :: tokens)%list.
Proof.
  revert token. induction tokens as [|token' tokens IH]; intros token Hall.
  - apply split_piece. by inversion Hall.
  - rewrite concat_cons_cons.
    change (token ++ String sep "" ++ String.concat (String sep "") (token' :: tokens))
      with (token ++ String sep (String.concat (String sep "") (token' :: tokens))).
    inversion Hall as [|t l Htoken Hrest]; subst.
    rewrite split_piece_sep by done. by rewrite IH.
Qed.

Lemma remove_first_prefix (rest : string) : remove_first "Bearer " ("Bearer " ++ rest) = rest.
Proof. by destruct rest. Qed.

(** X18.  [tokenSplit] takes an Authorization header apart into the
    tokens it was built from: for one or more tokens, none containing a
    comma, the header [Bearer t1,t2,...] gives back exactly the tokens, in
    order. *)
Theorem X18_tokenSplit_gives_back_the_tokens (token : string) (tokens : list string) :
  Forall (λ t, occurs "," t = false) (token :: tokens) →
  tokenSplit ("Bearer " ++ String.concat "," (token :: tokens)) = (token :: tokens)%list.
Proof.
  intros Hall. unfold tokenSplit. rewrite remove_first_prefix.
  by apply (split_concat "," token tokens).
Qed.

Lemma X18_tokenSplit_gives_back_the_tokens_witness :
  Forall (λ t, occurs "," t = false) ["eyJa.b.c"; "eyJd.e.f"]
  ∧ tokenSplit "Bearer eyJa.b.c,eyJd.e.f" = ["eyJa.b.c"; "eyJd.e.f"]%list.
Proof.
  assert (Forall (λ t, occurs "," t = false) ["eyJa.b.c"; "eyJd.e.f"]) as Hall
    by (repeat constructor).
  split; [exact Hall|].
  exact (X18_tokenSplit_gives_back_the_tokens "eyJa.b.c" ["eyJd.e.f"] Hall).
Defined.

(** X19.  [tokenSplit] loses nothing but the first [Bearer ] of the
    header: it always returns at least one token, and the tokens joined by
    commas are the header with that first occurrence taken out, wherever
    it was; for a header that starts with it they are the rest of the
    header. *)
Theorem X19_tokenSplit_only_drops_the_scheme (authorization : string) :
  tokenSplit authorization ≠ []%list
  ∧ String.concat "," (tokenSplit authorization) = remove_first "Bearer " authorization
  ∧ (∀ rest, authorization = "Bearer " ++ rest →
             String.concat "," (tokenSplit authorization) = rest).
Proof.
  unfold tokenSplit. split; [apply split_nonempty|]. split.
  - apply (concat_split ","%char).
  - intros rest ->. by rewrite (concat_split ","%char), remove_first_prefix.
Qed.

End Tokens.

(** ** Uploads that return *)
Section UploadReturns.
Import Upload.
Local Open Scope string_scope.

(** A GetFileStatus response that [checkResult] does not let through ends
    the loop with an exception. *)
Lemma poll_rejected k fileId start result now rest s :
  passes result = false →
  ∃ s' e, poll k fileId start ((Ok result, now) :: rest) s = (s', Raised e).
Proof.
  intros Hpass. cbn [poll]. unfold mbind, Eff_bind. cbn [call lift mret Eff_ret].
  unfold Upload.checkResult, Lease.checkResult. cbn [cache calls].
  unfold passes in Hpass.
  destruct (truthy (data result)) eqn:Htruthy; cbn [negb andb] in *.
  - rewrite !get_truthy by done. apply negb_false_iff in Hpass. rewrite Hpass.
    cbn. eauto.
  - cbn. eauto.
Qed.

(** The loop returns only from a poll that came in time, reported no
    failure and asked for no further call, after polls that all kept it
    going. *)
Lemma poll_returned k fileId start remaining s s' :
  poll k fileId start remaining s = (s', Returned tt) →
  ∃ pre result now rest,
    remaining = (pre ++ (Ok result, now) :: rest)%list
    ∧ forallb (keeps_polling start) pre = true
    ∧ passes result = true
    ∧ terminal_failure result = false
    ∧ (now - start ≤ 60)%Z
    ∧ truthy (field (data result) "needFurtherCall") = false
    ∧ calls s' = (calls s ++ replicate (S (length pre)) (STATUS fileId))%list.
Proof.
  revert s. induction remaining as [|[[result|e] now] remaining IH]; intros s; [done| |done].
  destruct (passes result) eqn:Hpass;
    [|by destruct (poll_rejected k fileId start result now remaining s Hpass)
           as (? & ? & ->)].
  rewrite poll_step by done.
  destruct (terminal_failure result) eqn:Hfail; [done|].
  destruct (60 <? now - start)%Z eqn:Hlate; [done|].
  apply Z.ltb_ge in Hlate.
  destruct (truthy (field (data result) "needFurtherCall")) eqn:Hmore.
  - intros (pre & result' & now' & rest & -> & Hpre & Hp & Hf & Hn & Hm & Hcalls)%IH.
    exists ((Ok result, now) :: pre)%list, result', now', rest.
    split; [done|]. split.
    { cbn [forallb keeps_polling]. rewrite Hpass, Hfail, Hmore, Hpre.
      by replace (now - start <=? 60)%Z with true by (symmetry; apply Z.leb_le; lia). }
    repeat (split; [done|]).
    rewrite Hcalls. cbn [logged calls length replicate].
    by rewrite <- app_assoc.
  - intros [= <-]. exists []%list, result, now, remaining.
    repeat (split; [done|]). reflexivity.
Qed.

(** X20.  [uploadFile] returns an attachment only after a status poll
    that was answered within 60 seconds of the loop's start, reported none
    of the failed statuses and asked for no further call, every poll
    before it having kept the loop going; it has then waited the fixed
    5000 ms, and the attachment carries the file name, size, type and id of
    the transfer.  It does not return while the provider keeps asking for
    further calls. *)
Theorem X20_upload_returns_after_final_poll_only (lib : Lib) (w : World)
    (url k : string) (s s' : St) (uploaded : JSON) :
  uploadFile lib w url k s = (s', Returned uploaded) →
  ∃ s1 filename fileData mimeType fileId pre result now rest,
    transfer lib w url k s = (s1, Returned (filename, fileData, mimeType, fileId))
    ∧ polls w = (pre ++ (Ok result, now) :: rest)%list
    ∧ forallb (keeps_polling (startTime w)) pre = true
    ∧ passes result = true
    ∧ terminal_failure result = false
    ∧ (now - startTime w ≤ 60)%Z
    ∧ truthy (field (data result) "needFurtherCall") = false
    ∧ calls s'
      = (calls s1 ++ replicate (S (length pre)) (STATUS fileId) ++ [SLEEP 5000])%list
    ∧ uploaded = attachment filename fileData mimeType fileId.
Proof.
  unfold uploadFile. unfold mbind at 1. unfold Eff_bind at 1.
  destruct (transfer lib w url k s)
    as [s1 [[[[filename fileData] mimeType] fileId]|e|]] eqn:Htransfer; [|done..].
  unfold mbind at 1. unfold Eff_bind at 1.
  destruct (poll k fileId (startTime w) (polls w) s1) as [s2 [[]|e|]] eqn:Hpoll; [|done..].
  apply poll_returned in Hpoll
    as (pre & result & now & rest & Hpolls & Hpre & Hp & Hf & Hn & Hm & Hcalls).
  unfold mbind, Eff_bind. cbn [call mret Eff_ret]. intros [= <- <-].
  exists s1, filename, fileData, mimeType, fileId, pre, result, now, rest.
  repeat (split; [done|]). split; [|done].
  cbn [calls]. by rewrite Hcalls, <- app_assoc.
Qed.

Lemma X20_upload_returns_after_final_poll_only_witness :
  let lib := {| uuid := "u1";
                extractBASE64DataFormat := λ _, Some (JStr "text/plain");
                removeBASE64DataHeader := λ s, s;
                base64 := Buf.from;
                mime_getExtension := λ _, Some (JStr "txt");
                mime_getType := λ _, None;
                basename := λ s, s |} in
  let waiting := body_response (Some (JObj [("fileStatus", JNum 1);
                                            ("needFurtherCall", JBool true)])) in
  let ready := body_response (Some (JObj [("fileStatus", JNum 2);
                                          ("needFurtherCall", JBool false)])) in
  let w := {| head := λ _, Throw (AxiosError "unused");
              download := λ _, Ok [];
              acquire := λ _, Ok {| Lease.acq_deviceId := Some (JStr "d");
                                    Lease.token := "a...r" |};
              put := λ _ _, Ok (body_response (Some (JObj [("id", JStr "f1")])));
              startTime := 100;
              polls := [(Ok waiting, 130); (Ok ready, 150); (Ok ready, 999)]%Z |} in
  let s0 := {| calls := []; cache := ∅ |} in
  ∃ uploaded s' s1 fileId n,
    uploadFile lib w "data:text/plain;base64,aGk=" "k" s0 = (s', Returned uploaded)
    ∧ calls s' = (calls s1 ++ replicate (S n) (STATUS fileId) ++ [SLEEP 5000])%list.
Proof.
  intros lib waiting ready w s0.
  destruct (uploadFile lib w "data:text/plain;base64,aGk=" "k" s0)
    as [s' [uploaded| |]] eqn:Hrun; [|discriminate Hrun..].
  destruct (X20_upload_returns_after_final_poll_only lib w "data:text/plain;base64,aGk="
              "k" s0 s' uploaded Hrun)
    as (s1 & filename & fileData & mimeType & fileId & pre & result & now & rest
        & _ & _ & _ & _ & _ & _ & _ & Hcalls & _).
  exists uploaded, s', s1, fileId, (length pre). split; [reflexivity|exact Hcalls].
Defined.

(** X21.  What the probe accepts.  For a source that is not
    inline-encoded and a HEAD request that is answered, [checkFileUrl]
    returns exactly when the status is below 400 and the declared content
    length, if there is one that [parseInt] reads as a number, is at most
    100 MiB: a file of exactly 100 MiB passes, and so does a response with
    no content length or an unreadable one. *)
Theorem X21_probe_accepts_up_to_the_limit (w : World) (url : string) (s : St)
    (result : AxiosResponse) :
  isBASE64Data (Some (JStr url)) = false →
  head w url = Ok result →
  checkFileUrl w url s = (logged (HEAD url) s, Returned tt)
  ↔ (status result < 400)%Z
    ∧ ∀ declared fileSize,
        header result "content-length" = Some declared →
        parseInt10 declared = Some fileSize →
        (fileSize ≤ 100 * 1024 * 1024)%Z.
Proof.
  intros Hremote Hhead. unfold checkFileUrl. rewrite Hremote.
  unfold mbind, Eff_bind. cbn [call]. rewrite Hhead. cbn [lift mret Eff_ret].
  fold (logged (HEAD url) s).
  destruct (400 <=? status result)%Z eqn:Hstatus.
  { apply Z.leb_le in Hstatus. split; [done|]. intros [? _]. lia. }
  apply Z.leb_gt in Hstatus.
  destruct (header result "content-length") as [declared|]; [|by split].
  destruct (String.eqb_spec declared "") as [->|_].
  { split; [|done]. intros _. split; [done|].
    intros declared fileSize [= <-] H. vm_compute in H. discriminate H. }
  destruct (parseInt10 declared) as [fileSize|] eqn:Hparse.
  2:{ split; [|done]. intros _. split; [done|].
      intros declared' fileSize [= <-] H. rewrite Hparse in H. discriminate H. }
  destruct (FILE_MAX_SIZE <? fileSize)%Z eqn:Hsize.
  - apply Z.ltb_lt in Hsize. unfold FILE_MAX_SIZE in Hsize. split; [done|].
    intros [_ H]. specialize (H declared fileSize eq_refl Hparse). lia.
  - apply Z.ltb_ge in Hsize. unfold FILE_MAX_SIZE in Hsize.
    split; [|done]. intros _. split; [done|].
    intros declared' fileSize' [= <-] H. rewrite Hparse in H.
    injection H as <-. lia.
Qed.

Lemma X21_probe_accepts_up_to_the_limit_witness :
  let w := {| head := λ _, Ok {| status := 200; statusText := "OK";
                                 headers := [("content-length", "104857600")];
                                 data := undefined |};
              download := λ _, Ok [];
              acquire := λ _, Throw (AxiosError "unused");
              put := λ _ _, Throw (AxiosError "unused");
              startTime := 0;
              polls := [] |} in
  isBASE64Data (Some (JStr "https://e.com/a.bin")) = false
  ∧ parseInt10 "104857600" = Some (100 * 1024 * 1024)%Z
  ∧ checkFileUrl w "https://e.com/a.bin" {| calls := []; cache := ∅ |}
    = ({| calls := [HEAD "https://e.com/a.bin"]; cache := ∅ |}, Returned tt).
Proof.
  intros w. split; [reflexivity|]. split; [reflexivity|].
  apply (X21_probe_accepts_up_to_the_limit w "https://e.com/a.bin"
           {| calls := []; cache := ∅ |}
           {| status := 200; statusText := "OK";
              headers := [("content-length", "104857600")]; data := undefined |}
           eq_refl eq_refl).
  split; [cbn; lia|]. intros declared fileSize [= <-] [= <-]. lia.
Defined.

End UploadReturns.

(** ** File names *)
Section FileNames.
Import Upload.
Local Open Scope string_scope.

Lemma cut_query_clean (filename : string) : Token.occurs "?" (cut_query filename) = false.
Proof.
  induction filename as [|c filename IH]; [done|]. cbn [cut_query].
  destruct (Ascii.eqb c "?") eqn:Hc; [done|]. cbn [Token.occurs]. by rewrite Hc, IH.
Qed.

Lemma cut_query_prefix (filename : string) :
  String.prefix (cut_query filename) filename = true.
Proof.
  induction filename as [|c filename IH]; [done|]. cbn [cut_query].
  destruct (Ascii.eqb c "?"); [done|]. cbn [String.prefix].
  by destruct (ascii_dec c c).
Qed.

Lemma cut_query_id (filename : string) :
  Token.occurs "?" filename = false → cut_query filename = filename.
Proof.
  induction filename as [|c filename IH]; [done|]. cbn [cut_query Token.occurs].
  intros [Hc Hrest]%orb_false_elim. by rewrite Hc, IH.
Qed.

(** X22.  For a source that is not inline-encoded, the transfer sends the
    downloaded bytes under the base name of the URL cut at its first
    question mark: the file name handed to the provider is a prefix of the
    base name, holds no question mark, and is the base name itself when
    that has none; the size sent is the number of bytes downloaded. *)
Theorem X22_remote_file_name_has_no_query (lib : Lib) (w : World) (url k : string)
    (s s1 : St) (filename : string) (fileData : Buffer) (mimeType fileId : value) :
  isBASE64Data (Some (JStr url)) = false →
  transfer lib w url k s = (s1, Returned (filename, fileData, mimeType, fileId)) →
  download w url = Ok fileData
  ∧ filename = cut_query (basename lib url)
  ∧ Token.occurs "?" filename = false
  ∧ String.prefix filename (basename lib url) = true
  ∧ (Token.occurs "?" (basename lib url) = false → filename = basename lib url)
  ∧ PUT filename (length fileData) ∈ calls s1.
Proof.
  intros Hremote. unfold transfer. unfold mbind at 1. unfold Eff_bind at 1.
  destruct (checkFileUrl w url s) as [s0 [[]|e|]]; [|done..].
  rewrite Hremote. unfold mbind, Eff_bind. cbn [call].
  destruct (download w url) as [bytes|e]; cbn [lift mret Eff_ret raise]; [|done].
  destruct (acquire w k) as [a|e]; cbn [lift mret Eff_ret raise]; [|done].
  destruct (put w (cut_query (basename lib url)) bytes) as [result|e];
    cbn [lift mret Eff_ret raise]; [|done].
  unfold Upload.checkResult. cbn [calls cache].
  destruct (Lease.checkResult _ _ _) as [m [body|e]]; cbn [lift mret Eff_ret raise]; [|done].
  destruct (destructure body _ "id") as [id|e]; cbn [lift mret Eff_ret raise]; [|done].
  intros [= <- <- <- _ _]. split; [done|]. split; [done|].
  split; [apply cut_query_clean|]. split; [apply cut_query_prefix|].
  split; [by intros H; apply cut_query_id|].
  cbn [calls]. apply elem_of_app. right. apply list_elem_of_here.
Qed.

Lemma X22_remote_file_name_has_no_query_witness :
  let lib := {| uuid := "u1";
                extractBASE64DataFormat := λ _, None;
                removeBASE64DataHeader := λ s, s;
                base64 := Buf.from;
                mime_getExtension := λ _, None;
                mime_getType := λ _, Some (JStr "application/pdf");
                basename := λ _, "a.pdf?sig=1" |} in
  let w := {| head := λ _, Ok {| status := 200; statusText := "OK"; headers := [];
                                 data := undefined |};
              download := λ _, Ok (Buf.from "%PDF");
              acquire := λ _, Ok {| Lease.acq_deviceId := Some (JStr "d");
                                    Lease.token := "a...r" |};
              put := λ _ _, Ok (body_response (Some (JObj [("id", JStr "f1")])));
              startTime := 0;
              polls := [] |} in
  let run := transfer lib w "https://e.com/a.pdf?sig=1" "k" {| calls := []; cache := ∅ |} in
  isBASE64Data (Some (JStr "https://e.com/a.pdf?sig=1")) = false
  ∧ PUT "a.pdf" 4 ∈ calls run.1.
Proof.
  intros lib w run. split; [reflexivity|].
  destruct (X22_remote_file_name_has_no_query lib w "https://e.com/a.pdf?sig=1" "k"
              {| calls := []; cache := ∅ |} run.1 "a.pdf" (Buf.from "%PDF")
              (Some (JStr "application/pdf")) (Some (JStr "f1")) eq_refl eq_refl)
    as (_ & _ & _ & _ & _ & Hput).
  exact Hput.
Defined.

End FileNames.

(** ** Chunks are single lines *)
Section SingleLine.
Local Open Scope string_scope.

Lemma every_app (test : ascii → bool) (s1 s2 : string) :
  every test (s1 ++ s2) = every test s1 && every test s2.
Proof.
  induction s1 as [|c s1 IH]; [done|].
  change (String c s1 ++ s2) with (String c (s1 ++ s2)). cbn [every].
  by rewrite IH, andb_assoc.
Qed.

Lemma every_concat (test : ascii → bool) (sep : string) (l : list string) :
  every test sep = true →
  Forall (λ s, every test s = true) l →
  every test (String.concat sep l) = true.
Proof.
  intros Hsep Hall. induction Hall as [|s l Hs Hl IH]; [done|].
  destruct l as [|s' l]; [done|].
  change (String.concat sep (s :: s' :: l)) with (s ++ sep ++ String.concat sep (s' :: l)).
  by rewrite !every_app, Hs, Hsep, IH.
Qed.

Lemma printable_uint (d : Decimal.uint) : every printable (NilEmpty.string_of_uint d) = true.
Proof. induction d; cbn [NilEmpty.string_of_uint every]; by rewrite ?IHd. Qed.

Lemma printable_Z (n : Z) : every printable (string_of_Z n) = true.
Proof.
  unfold string_of_Z, NilZero.string_of_int, NilZero.string_of_uint.
  destruct (Z.to_int n) as [d|d]; cbn [every].
  - destruct d; try apply printable_uint; done.
  - change (printable "-") with true. cbn [andb].
    destruct d; try apply printable_uint; done.
Qed.

Lemma printable_hex (n : N) : printable (hex_digit n) = true.
Proof.
  unfold hex_digit. destruct n as [|p]; [done|].
  do 5 (try destruct p as [p|p|]); reflexivity.
Qed.

Lemma printable_escape_char (c : ascii) : every printable (escape_char c) = true.
Proof.
  unfold escape_char. cbn zeta.
  destruct (N.eqb_spec (N_of_ascii c) 34) as [H|_].
  { rewrite every_app. cbn [every]. unfold printable at 2. by rewrite H. }
  repeat match goal with
         | |- context [N.eqb ?a ?b] => destruct (N.eqb a b); [done|]
         end.
  destruct (N.ltb_spec (N_of_ascii c) 32) as [_|H].
  - rewrite every_app. cbn [every]. by rewrite !printable_hex.
  - cbn [every]. unfold printable. rewrite andb_true_r. by apply N.leb_le.
Qed.

Lemma printable_escape (s : string) : every printable (escape s) = true.
Proof.
  induction s as [|c s IH]; [done|]. cbn [escape].
  by rewrite every_app, printable_escape_char, IH.
Qed.

Lemma printable_quote (s : string) : every printable (quote s) = true.
Proof.
  unfold quote. cbn [every]. by rewrite every_app, printable_escape.
Qed.

(** What [JSON.stringify] prints holds no control character: inside
    strings they are escaped, and nothing else produces one. *)
Lemma printable_stringify (j : JSON) : every printable (stringify j) = true.
Proof.
  revert j. fix IH 1. intros [| [|] |n|s|items|fields]; cbn [stringify]; try done.
  - apply printable_Z.
  - apply printable_quote.
  - assert (every printable (String.concat "," (map stringify items)) = true) as H.
    { apply every_concat; [done|]. apply Forall_fmap.
      induction items as [|item items IHitems]; constructor; [apply IH|apply IHitems]. }
    rewrite !every_app, H. reflexivity.
  - assert (every printable
              (String.concat ","
                 (map (λ kv, quote kv.1 ++ ":" ++ stringify kv.2) fields)) = true) as H.
    { apply every_concat; [done|]. apply Forall_fmap.
      induction fields as [|[key v] fields IHfields]; constructor; [|apply IHfields].
      cbv [compose]. cbn [fst snd].
      rewrite !every_app, printable_quote, IH. reflexivity. }
    rewrite !every_app, H. reflexivity.
Qed.

Lemma every_occurs (c : ascii) (s : string) :
  printable c = false → every printable s = true → Token.occurs c s = false.
Proof.
  intros Hc. induction s as [|c' s IH]; [done|]. cbn [every Token.occurs].
  intros [Hc' Hs]%andb_prop. rewrite IH by done.
  destruct (Ascii.eqb_spec c' c) as [->|_]; [by rewrite Hc in Hc'|done].
Qed.

(** X23.  Every chunk the streaming transcoder builds is one line:
    [data: ], the JSON text, and two newlines, where the JSON text holds no
    newline and no other control character, whatever strings the object
    carries, since [JSON.stringify] escapes them.  A text with line breaks
    therefore cannot break a chunk in two. *)
Theorem X23_chunk_is_one_line (obj : JSON) :
  Streaming.sse obj = "data: " ++ stringify obj ++ LF ++ LF
  ∧ every printable (stringify obj) = true
  ∧ Token.occurs (ascii_of_N 10) (stringify obj) = false
  ∧ Token.occurs (ascii_of_N 13) (stringify obj) = false.
Proof.
  split; [reflexivity|]. split; [apply printable_stringify|].
  split; apply every_occurs; first [reflexivity | apply printable_stringify].
Qed.

End SingleLine.

(** ** Packed frames *)
Section PackedFrames.

Lemma serialize_app (frames1 frames2 : list (byte * Buffer)) :
  Frame.serialize (frames1 ++ frames2)
  = Frame.serialize frames1 ++ Frame.serialize frames2.
Proof. unfold Frame.serialize. by rewrite map_app, concat_app. Qed.

(** With bytes left over from the event before, the listener does what it
    would do had they arrived in front of the new bytes, when a whole frame
    is there. *)
Lemma on_data_leftover {S : Type} (parser : Buffer → S → Res S) (left buffer : Buffer)
    flag payload rest (s : S) :
  (N.of_nat (length payload) < 2 ^ 32)%N →
  left ++ buffer = Frame.frame flag payload ++ rest →
  Frame.on_data parser {| Frame.chunk := []; Frame.temp := left |} s buffer
  = Frame.on_data parser Frame.init s (Frame.frame flag payload ++ rest).
Proof.
  intros Hn Hbytes. unfold Frame.on_data, Frame.init.
  cbn [Frame.chunk Frame.temp]. rewrite !app_nil_l, Hbytes.
  replace (length (Frame.frame flag payload ++ rest) <? 5) with false
    by (symmetry; apply Nat.ltb_ge; rewrite length_app, length_frame; lia).
  by rewrite read_frame_header.
Qed.

Lemma feed_groups (groups : list (list (byte * Buffer))) (pending : list (byte * Buffer))
    (seen : list Buffer) :
  Forall (λ g, g ≠ []) groups →
  Forall (λ f, (N.of_nat (length f.2) < 2 ^ 32)%N) (pending ++ concat groups) →
  (Frame.feed {| Frame.chunk := []; Frame.temp := Frame.serialize pending |} seen
              (map Frame.serialize groups)).2
  = seen ++ take (length groups) (map snd (pending ++ concat groups)).
Proof.
  intros Hgroups. revert pending seen.
  induction Hgroups as [|g groups Hg _ IH]; intros pending seen Hbound.
  - cbn. by rewrite app_nil_r.
  - cbn [map Frame.feed concat length] in *.
    destruct (pending ++ g) as [|[flag p] rest] eqn:Hfirst.
    { apply app_eq_nil in Hfirst as [_ ->]. done. }
    assert (Frame.serialize pending ++ Frame.serialize g
            = Frame.frame flag p ++ Frame.serialize rest) as Hbytes.
    { by rewrite <- serialize_app, Hfirst. }
    rewrite app_assoc, Hfirst in Hbound.
    assert ((N.of_nat (length p) < 2 ^ 32)%N) as Hp.
    { by inversion Hbound. }
    rewrite (on_data_leftover _ _ _ flag p (Frame.serialize rest)) by done.
    rewrite on_data_whole_frame by done.
    cbn [Frame.record_payload]. rewrite IH.
    + rewrite app_assoc, Hfirst. cbn [app map take snd]. by rewrite <- app_assoc.
    + by inversion Hbound.
Qed.

(** X24.  One payload per chunk.  When every chunk of the stream holds
    one or more whole frames, the listener hands the parser exactly one
    payload for each chunk, in the order of the frames: the first [n]
    payloads for [n] chunks.  Frames packed behind another are handed over
    one chunk late each, and those still waiting when the stream ends are
    not handed over. *)
Theorem X24_packed_frames_lag_one_per_chunk (groups : list (list (byte * Buffer))) :
  Forall (λ g, g ≠ []) groups →
  Forall (λ f, (N.of_nat (length f.2) < 2 ^ 32)%N) (concat groups) →
  Frame.decode (map Frame.serialize groups)
  = take (length groups) (map snd (concat groups)).
Proof.
  intros Hgroups Hbound. unfold Frame.decode.
  apply (feed_groups groups [] [] Hgroups Hbound).
Qed.

Lemma X24_packed_frames_lag_one_per_chunk_witness :
  let a := (x00, Buf.from "a") in
  let b := (x00, Buf.from "b") in
  let c := (x00, Buf.from "c") in
  Frame.decode [Frame.serialize [a; b]; Frame.serialize [c]]
  = [Buf.from "a"; Buf.from "b"].
Proof.
  intros a b c.
  apply (X24_packed_frames_lag_one_per_chunk [[a; b]; [c]]).
  - by repeat constructor.
  - repeat constructor; cbn; lia.
Defined.

End PackedFrames.

(** ** Provider errors in the buffered answer *)
Section BufferedErrors.
Import Event.
Local Open Scope string_scope.




End BufferedErrors.

(** ** The lifetime of a lease *)
Section LeaseTTL.
Import Lease.

Lemma exchange_refreshTime r k now m m' t :
  exchange r k now m = (m', Ok t) → refreshTime t = (now + 900)%Z.
Proof.
  unfold exchange. destruct r as [result|e]; [|naive_solver].
  destruct (checkResult result k m) as [m1 [body|e]]; simpl; [|naive_solver].
  unfold makeToken. intros H.
  repeat match type of H with
         | context [get ?v ?f] => destruct (get v f); simpl in H; [|naive_solver]
         end.
  by injection H as _ <-.
Qed.

(** X26.  A lease lives 900 seconds from the exchange that produced it.
    After a first caller's exchange for a key has succeeded at time [now],
    a call for the key sends no request while the clock does not exceed
    [now + 900], and sends exactly one as soon as it does. *)
Theorem X26_lease_lives_900_seconds (k : string) (r : Res AxiosResponse)
    (c c' : nat) (now0 now now' : Z) (s : Store) (m : gmap string Entry) (t : Token) :
  accessTokenMap s !! k = None →
  accessTokenRequestQueueMap s !! k = None →
  exchange r k now (accessTokenMap s) = (m, Ok t) →
  let s1 := respond k r now (acquireToken c k now0 s) in
  requests (acquireToken c' k now' s1)
  = if (now + 900 <? now')%Z then requests s1 ++ [k] else requests s1.
Proof.
  intros Hm Hq Hex s1.
  destruct (single_flight_success c [] k now0 now r s m t c Hm Hq Hex)
    as (_ & _ & Hcached & Hqueue); [apply list_elem_of_here|].
  change (respond k r now (acquire_all [c] k now0 s)) with s1 in Hcached, Hqueue.
  unfold acquireToken, acquireToken_check. rewrite Hcached. cbn [expired].
  rewrite (exchange_refreshTime _ _ _ _ _ _ Hex).
  destruct (now + 900 <? now')%Z; [|done].
  unfold requestToken. by rewrite Hqueue.
Qed.

Lemma X26_lease_lives_900_seconds_witness :
  let body := Some (JObj [("accessToken"%string, JObj [("raw"%string, JStr "a")]);
                          ("refreshToken"%string, JObj [("raw"%string, JStr "r")]);
                          ("device"%string, JObj [("deviceID"%string, JStr "d")])]) in
  let s1 := respond "k" (Ok (body_response body)) 1000
              (acquireToken 0 "k" 1000 Lease.empty) in
  requests (acquireToken 1 "k" 1900 s1) = ["k"%string]
  ∧ requests (acquireToken 1 "k" 1901 s1) = ["k"%string; "k"%string].
Proof.
  intros body s1. split.
  - exact (X26_lease_lives_900_seconds "k" (Ok (body_response body)) 0 1 1000 1000 1900
             Lease.empty _ _ eq_refl eq_refl eq_refl).
  - exact (X26_lease_lives_900_seconds "k" (Ok (body_response body)) 0 1 1000 1000 1901
             Lease.empty _ _ eq_refl eq_refl eq_refl).
Defined.

End LeaseTTL.

(** ** Keys do not interfere *)
Section KeyIsolation.
Import Lease.

Lemma checkResult_at_key result k (m1 m2 : gmap string Entry) k' :
  m1 !! k' = m2 !! k' →
  (checkResult result k m1).2 = (checkResult result k m2).2
  ∧ (checkResult result k m1).1 !! k' = (checkResult result k m2).1 !! k'.
Proof.
  intros Hm. unfold checkResult.
  destruct (negb (truthy (data result))); [done|].
  destruct (get (data result) "code") as [code|e]; [|done].
  destruct (get (data result) "message") as [message|e]; [|done].
  destruct (negb (isString code)); [done|]. cbn [fst snd]. split; [done|].
  destruct (loose_eq_str code "unauthenticated"); [|done].
  destruct (decide (k' = k)) as [->|Hne].
  - by rewrite !lookup_delete_eq.
  - by rewrite !lookup_delete_ne.
Qed.

Lemma checkResult_other result k (m : gmap string Entry) k' :
  k' ≠ k → (checkResult result k m).1 !! k' = m !! k'.
Proof.
  intros Hne. unfold checkResult.
  destruct (negb (truthy (data result))); [done|].
  destruct (get (data result) "code") as [code|e]; [|done].
  destruct (get (data result) "message") as [message|e]; [|done].
  destruct (negb (isString code)); [done|]. cbn [fst].
  destruct (loose_eq_str code "unauthenticated"); [|done].
  by rewrite lookup_delete_ne.
Qed.

Lemma exchange_at_key r k now (m1 m2 : gmap string Entry) k' :
  m1 !! k' = m2 !! k' →
  (exchange r k now m1).2 = (exchange r k now m2).2
  ∧ (exchange r k now m1).1 !! k' = (exchange r k now m2).1 !! k'.
Proof.
  intros Hm. unfold exchange. destruct r as [result|e]; [|done].
  destruct (checkResult_at_key result k m1 m2 k' Hm) as [H2 H1].
  destruct (checkResult result k m1) as [m1' body1].
  destruct (checkResult result k m2) as [m2' body2].
  cbn [fst snd] in *. by subst.
Qed.

Lemma exchange_other r k now (m : gmap string Entry) k' :
  k' ≠ k → (exchange r k now m).1 !! k' = m !! k'.
Proof.
  intros Hne. unfold exchange. destruct r as [result|e]; [|done].
  pose proof (checkResult_other result k m k' Hne) as H.
  by destruct (checkResult result k m) as [m' body].
Qed.

(** The lease of the key once the callers of an exchange have been
    woken. *)
Lemma resume_map w k now r s :
  (∀ entry, r = Ok entry → expired now entry = false) →
  accessTokenMap (resume w k now r s)
  = match r with
    | Ok entry => <[k := entry]> (accessTokenMap s)
    | Throw _ => accessTokenMap s
    end.
Proof.
  intros Hfresh. destruct r as [entry|e]; [|done].
  unfold resume, acquireToken_check. rewrite (Hfresh entry) by done.
  by destruct (stage w).
Qed.

Lemma respond_map k r now s leader :
  inflight s !! k = Some leader →
  let '(m, result) := exchange r k now (accessTokenMap s) in
  accessTokenMap (respond k r now s)
  = match result with
    | Ok t => <[k := TokenEntry t]> m
    | Throw e =>
        match default [] (accessTokenRequestQueueMap s !! k) with
        | [] => m
        | _ => <[k := ErrorEntry e]> m
        end
    end.
Proof.
  intros Hin. unfold respond. rewrite Hin.
  destruct (exchange r k now (accessTokenMap s)) as [m result] eqn:Hex.
  destruct result as [t|e]; cbn [queued_value leader_value].
  - pose proof (exchange_fresh _ _ _ _ _ _ Hex) as Hfresh.
    rewrite resume_map by (by intros ? [= <-]).
    rewrite resume_queue by done. cbn [accessTokenMap].
    destruct (default [] _); [done|]. by rewrite insert_insert_eq.
  - rewrite resume_map by done. by rewrite resume_queue.
Qed.

Lemma step_other (k : string) (s : Store) (ev : LeaseRun.Event) :
  LeaseRun.key ev ≠ k → LeaseRun.view k (LeaseRun.step s ev) = LeaseRun.view k s.
Proof.
  intros Hne. destruct ev as [c k' now|k' r now]; cbn [LeaseRun.key LeaseRun.step] in *.
  - assert (∀ w, LeaseRun.view k (requestToken k' w s) = LeaseRun.view k s) as Hreq.
    { intros w. unfold requestToken, LeaseRun.view.
      destruct (accessTokenRequestQueueMap s !! k') as [queue|];
        cbn [accessTokenMap accessTokenRequestQueueMap inflight].
      - by rewrite lookup_insert_ne.
      - rewrite !lookup_insert_ne by done.
        rewrite (sent_snoc k k' s) by done. rewrite decide_False by done.
        by rewrite Nat.add_0_r. }
    unfold acquireToken. destruct (accessTokenMap s !! k') as [entry|]; [|apply Hreq].
    unfold acquireToken_check. destruct (expired now entry); [apply Hreq|done].
  - destruct (inflight s !! k') as [leader|] eqn:Hin;
      [|by unfold respond; rewrite Hin].
    destruct (respond_frame k' r now s leader Hin) as (Hr & Hi & Hq).
    pose proof (respond_map k' r now s leader Hin) as Hmap.
    pose proof (exchange_other r k' now (accessTokenMap s) k (not_eq_sym Hne)) as Hother.
    destruct (exchange r k' now (accessTokenMap s)) as [m result].
    unfold LeaseRun.view, LeaseRun.sent. rewrite Hr, Hi, Hq, Hmap.
    rewrite !lookup_delete_ne by done. cbn [fst] in Hother.
    do 3 f_equal. rewrite <- Hother.
    destruct result as [t|e]; [by rewrite lookup_insert_ne|].
    destruct (default [] _); [done|]. by rewrite lookup_insert_ne.
Qed.

Lemma step_same (k : string) (s1 s2 : Store) (ev : LeaseRun.Event) :
  LeaseRun.key ev = k →
  LeaseRun.view k s1 = LeaseRun.view k s2 →
  LeaseRun.view k (LeaseRun.step s1 ev) = LeaseRun.view k (LeaseRun.step s2 ev).
Proof.
  intros <- Hview. unfold LeaseRun.view in Hview.
  injection Hview as Hm Hq Hi Hs.
  destruct ev as [c k now|k r now]; cbn [LeaseRun.key LeaseRun.step] in *.
  - assert (∀ w, LeaseRun.view k (requestToken k w s1)
                 = LeaseRun.view k (requestToken k w s2)) as Hreq.
    { intros w. unfold requestToken, LeaseRun.view. rewrite Hq.
      destruct (accessTokenRequestQueueMap s2 !! k) as [queue|];
        cbn [accessTokenMap accessTokenRequestQueueMap inflight].
      - rewrite !lookup_insert_eq, Hm, Hi. unfold LeaseRun.sent in *.
        cbn [requests]. by rewrite Hs.
      - rewrite !lookup_insert_eq, Hm. unfold LeaseRun.sent in *.
        cbn [requests]. by rewrite !filter_app, !length_app, Hs. }
    unfold acquireToken. rewrite Hm.
    destruct (accessTokenMap s2 !! k) as [entry|] eqn:Hm2; [|apply Hreq].
    unfold acquireToken_check. destruct (expired now entry); [apply Hreq|].
    unfold LeaseRun.view, LeaseRun.sent in *. cbn. by rewrite Hm, Hm2, Hq, Hi, Hs.
  - destruct (inflight s2 !! k) as [leader|] eqn:Hin2.
    + destruct (respond_frame k r now s1 leader Hi) as (Hr1 & Hi1 & Hq1).
      destruct (respond_frame k r now s2 leader Hin2) as (Hr2 & Hi2 & Hq2).
      pose proof (respond_map k r now s1 leader Hi) as Hmap1.
      pose proof (respond_map k r now s2 leader Hin2) as Hmap2.
      destruct (exchange_at_key r k now (accessTokenMap s1) (accessTokenMap s2) k Hm)
        as [Hres Hat].
      destruct (exchange r k now (accessTokenMap s1)) as [m1 result1].
      destruct (exchange r k now (accessTokenMap s2)) as [m2 result2].
      cbn [fst snd] in Hres, Hat. subst result2.
      unfold LeaseRun.view, LeaseRun.sent in *.
      rewrite Hr1, Hr2, Hi1, Hi2, Hq1, Hq2, Hmap1, Hmap2, Hs, Hq.
      rewrite !lookup_delete_eq. do 3 f_equal.
      destruct result1 as [t|e]; [by rewrite !lookup_insert_eq|].
      destruct (default [] (accessTokenRequestQueueMap s2 !! k)); [exact Hat|].
      by rewrite !lookup_insert_eq.
    + unfold respond. rewrite Hi, Hin2.
      unfold LeaseRun.view. by rewrite Hm, Hq, Hi, Hin2, Hs.
Qed.

(** X27.  Keys do not interfere.  What the store holds for a key, its
    lease, its queue, its exchange in flight and the number of
    RegisterDevice requests sent for it, is determined by the calls and
    answers for that key alone: leaving the events of all other keys out
    of a run changes none of it. *)
Theorem X27_keys_do_not_interfere (events : list LeaseRun.Event) (k : string) :
  LeaseRun.view k (LeaseRun.run events)
  = LeaseRun.view k (LeaseRun.run (filter (λ ev, LeaseRun.key ev = k) events)).
Proof.
  induction events as [|ev events IH] using rev_ind; [done|].
  unfold LeaseRun.run in *. rewrite filter_app, !foldl_app. cbn [foldl].
  destruct (decide (LeaseRun.key ev = k)) as [Hk|Hk].
  - rewrite filter_cons_True by done. cbn [filter foldl]. rewrite filter_nil.
    cbn [foldl]. by apply step_same.
  - rewrite filter_cons_False by done. rewrite filter_nil. cbn [foldl].
    by rewrite step_other.
Qed.

End KeyIsolation.

(** ** No caller is left waiting *)
Section Wakeups.
Import Lease.

(** A caller waits for the exchange of a key: it sent the request, or its
    [resolve] is in the queue. *)
Local Abbreviation waits c k s :=
  ((∃ w, inflight s !! k = Some w ∧ caller w = c)
   ∨ (∃ queue w, accessTokenRequestQueueMap s !! k = Some queue
                 ∧ w ∈ queue ∧ caller w = c)).

Lemma respond_settled k r now s leader :
  inflight s !! k = Some leader →
  ∃ x y, settled (respond k r now s)
         = <[caller leader := x]>
             (foldl (λ acc w, <[caller w := y]> acc) (settled s)
                    (default [] (accessTokenRequestQueueMap s !! k))).
Proof.
  intros Hin. unfold respond. rewrite Hin.
  destruct (exchange r k now (accessTokenMap s)) as [m result] eqn:Hex.
  assert (∃ entry, queued_value result = Ok entry ∧ expired now entry = false)
    as (entry & -> & Hfresh).
  { destruct result as [t|e]; cbn; eexists; (split; [done|]); [|done].
    by eapply exchange_fresh. }
  rewrite resume_queue by done.
  destruct result as [t|e]; cbn [leader_value resume].
  - unfold acquireToken_check.
    rewrite (exchange_fresh _ _ _ _ _ _ Hex).
    destruct (stage leader); cbn; eauto.
  - cbn. eauto.
Qed.

Lemma step_settled_mono s ev c :
  is_Some (settled s !! c) → is_Some (settled (LeaseRun.step s ev) !! c).
Proof.
  intros Hc. destruct ev as [c' k now|k r now]; cbn [LeaseRun.step].
  - assert (∀ w, settled (requestToken k w s) = settled s) as Hreq
      by (intros w; unfold requestToken; by destruct (_ !! k)).
    unfold acquireToken. destruct (accessTokenMap s !! k) as [entry|];
      [|by rewrite Hreq].
    unfold acquireToken_check. destruct (expired now entry); [by rewrite Hreq|].
    cbn. apply lookup_insert_is_Some. destruct (decide (c' = c)); eauto.
  - destruct (inflight s !! k) as [leader|] eqn:Hin;
      [|by unfold respond; rewrite Hin].
    destruct (respond_settled k r now s leader Hin) as (x & y & ->).
    apply lookup_insert_is_Some.
    destruct (decide (caller leader = c)); [by left|right]. split; [done|].
    rewrite lookup_settle_all. by destruct (decide _).
Qed.

Lemma step_waits s ev c k :
  (inflight s !! k = None ↔ accessTokenRequestQueueMap s !! k = None) →
  waits c k s →
  is_Some (settled (LeaseRun.step s ev) !! c) ∨ waits c k (LeaseRun.step s ev).
Proof.
  intros Hdom Hw. destruct ev as [c' k' now|k' r now]; cbn [LeaseRun.step].
  - right.
    assert (∀ w', waits c k (requestToken k' w' s)) as Hreq.
    { intros w'. unfold requestToken.
      destruct (accessTokenRequestQueueMap s !! k') as [queue'|] eqn:Hq';
        cbn [inflight accessTokenRequestQueueMap].
      - destruct Hw as [Hw|(queue & w & Hq & Hin & Hc)]; [by left|]. right.
        destruct (decide (k' = k)) as [->|Hne].
        + rewrite lookup_insert_eq. rewrite Hq in Hq'. injection Hq' as <-.
          exists (queue ++ [w']), w. split; [done|]. split; [|done].
          apply elem_of_app. by left.
        + rewrite lookup_insert_ne by done. eauto.
      - destruct (decide (k' = k)) as [->|Hne].
        + exfalso. destruct Hw as [(w & Hi & _)|(queue & w & Hq & _)].
          * apply Hdom in Hq'. by rewrite Hq' in Hi.
          * by rewrite Hq' in Hq.
        + rewrite !lookup_insert_ne by done. exact Hw. }
    unfold acquireToken. destruct (accessTokenMap s !! k') as [entry|]; [|apply Hreq].
    unfold acquireToken_check. destruct (expired now entry); [apply Hreq|exact Hw].
  - destruct (inflight s !! k') as [leader|] eqn:Hin;
      [|by right; unfold respond; rewrite Hin].
    destruct (decide (k' = k)) as [->|Hne].
    + left. destruct (respond_settled k r now s leader Hin) as (x & y & ->).
      apply lookup_insert_is_Some.
      destruct (decide (caller leader = c)); [by left|right]. split; [done|].
      rewrite lookup_settle_all.
      destruct Hw as [(w & Hi & Hc)|(queue & w & Hq & Hw & Hc)].
      * rewrite Hin in Hi. by injection Hi as <-.
      * rewrite Hq. cbn [default]. rewrite decide_True; [done|].
        apply list_elem_of_fmap. by exists w.
    + right. destruct (respond_frame k' r now s leader Hin) as (_ & -> & ->).
      by rewrite !lookup_delete_ne.
Qed.

(** X28.  No caller is left waiting.  In every run of the store, a
    caller that has called [acquireToken] for a key has either got its
    result, a lease or an exception, or is waiting for the exchange of
    that key, as the one who sent the request or in its queue; and once
    no exchange for the key is in flight, it has got its result. *)
Theorem X28_every_caller_is_answered (events : list LeaseRun.Event) (c : nat)
    (k : string) (now : Z) :
  LeaseRun.Acquire c k now ∈ events →
  let s := LeaseRun.run events in
  (is_Some (settled s !! c)
   ∨ (∃ w, inflight s !! k = Some w ∧ caller w = c)
   ∨ (∃ queue w, accessTokenRequestQueueMap s !! k = Some queue
                 ∧ w ∈ queue ∧ caller w = c))
  ∧ (inflight s !! k = None → is_Some (settled s !! c)).
Proof.
  intros Hev. cbn zeta.
  assert (is_Some (settled (LeaseRun.run events) !! c)
          ∨ waits c k (LeaseRun.run events)) as Hmain.
  { induction events as [|ev events IH] using rev_ind; [by apply elem_of_nil in Hev|].
    unfold LeaseRun.run in *. rewrite foldl_app. cbn [foldl].
    pose proof (proj1 (run_single_flight events k)) as Hdom.
    unfold LeaseRun.run in Hdom. cbn zeta in Hdom.
    apply elem_of_app in Hev as [Hev|Hev].
    - destruct (IH Hev) as [Hs|Hw].
      + left. by apply step_settled_mono.
      + by apply step_waits.
    - apply list_elem_of_singleton in Hev as <-. cbn [LeaseRun.step].
      set (s := foldl LeaseRun.step Lease.empty events) in *.
      assert (waits c k (requestToken k {| caller := c; stage := AwaitMissing |} s)
              ∧ waits c k (requestToken k {| caller := c; stage := AwaitExpired |} s))
        as [Hmissing Hexpired].
      { split; unfold requestToken;
          (destruct (accessTokenRequestQueueMap s !! k) as [queue|];
           cbn [inflight accessTokenRequestQueueMap]; rewrite lookup_insert_eq;
           [right; eexists _, _; split; [reflexivity|];
            split; [apply elem_of_app; right; apply list_elem_of_here|reflexivity]
           |left; eexists; split; reflexivity]). }
      unfold acquireToken. destruct (accessTokenMap s !! k) as [entry|]; [|by right].
      unfold acquireToken_check. destruct (expired now entry); [by right|].
      left. cbn. rewrite lookup_insert_eq. by eexists. }
  split.
  - destruct Hmain as [?|[?|?]]; eauto.
  - intros Hnone. destruct Hmain as [?|[(w & Hi & _)|(queue & w & Hq & _)]]; [done|..].
    + by rewrite Hnone in Hi.
    + apply (proj1 (run_single_flight events k)) in Hnone. cbn zeta in Hnone.
      by rewrite Hnone in Hq.
Qed.

Lemma X28_every_caller_is_answered_witness :
  let events := [LeaseRun.Acquire 0 "k" 10; LeaseRun.Acquire 1 "k" 11;
                 LeaseRun.Respond "k" (Throw (AxiosError "timeout")) 12] in
  LeaseRun.Acquire 1 "k" 11 ∈ events
  ∧ is_Some (settled (LeaseRun.run events) !! 1).
Proof.
  intros events.
  assert (LeaseRun.Acquire 1 "k" 11 ∈ events) as Hev
    by apply list_elem_of_further, list_elem_of_here.
  split; [exact Hev|].
  apply (X28_every_caller_is_answered events 1 "k" 11 Hev). reflexivity.
Defined.

End Wakeups.
